(** * Lamport logical clock server: a shallow embedding of [main.go]

    The Go program keeps one [int64] counter behind a mutex
    ([LamportClock]), an append-only event log ([Server.events]) and a few
    HTTP handlers around them.  The embedding follows the source function
    by function:

    - [int64] values are integers of [Z]; the only arithmetic the program
      performs on them is [lc.timestamp++], whose two's-complement
      wrap-around is written out in [Int64.wrap];
    - the clock is a record updated by explicit state passing;
    - the event log is a Go slice (pointer, length, capacity) into a heap
      of backing arrays, so that [append], [make] and [copy] keep their
      aliasing behaviour;
    - the goroutine-level behaviour of [Tick] and [Update] is a small-step
      machine over their loads, stores and mutex operations. *)

From Stdlib Require Import ZArith Lia Ascii String.
From stdpp Require Import base tactics option numbers list strings pretty gmap.

Local Open Scope Z_scope.

(** ** 64-bit signed integers *)

Module Int64.

Definition min_int64 : Z := - 2 ^ 63.
Definition max_int64 : Z := 2 ^ 63 - 1.

(** The values an [int64] variable can hold. *)
Definition in_range (z : Z) : Prop := min_int64 <= z <= max_int64.

(** Reduction of a mathematical integer to its [int64] representative. *)
Definition wrap (z : Z) : Z := (z + 2 ^ 63) mod 2 ^ 64 - 2 ^ 63.

(** [x++] on an [int64] variable. *)
Definition incr (z : Z) : Z := wrap (z + 1).

End Int64.

Import Int64.

(** ** The clock *)

(** [type LamportClock struct { timestamp int64; mutex sync.RWMutex }].
    The sequential functions below run with the mutex held from entry to
    exit; the mutex itself is modelled in [Module Goroutines]. *)
Record LamportClock : Type := mkClock { timestamp : Z }.

Definition NewLamportClock : LamportClock := {| timestamp := 0 |}.

(** [Tick]: [lc.timestamp++; return lc.timestamp].  The result pairs the
    returned value with the clock after the call. *)
Definition Tick (lc : LamportClock) : Z * LamportClock :=
  let lc := {| timestamp := incr (timestamp lc) |} in
  (timestamp lc, lc).

(** [Update]: the received value replaces the counter when it is larger,
    then the counter is incremented and returned. *)
Definition Update (lc : LamportClock) (receivedTimestamp : Z) : Z * LamportClock :=
  let lc :=
    if bool_decide (receivedTimestamp > timestamp lc)
    then {| timestamp := receivedTimestamp |}
    else lc in
  let lc := {| timestamp := incr (timestamp lc) |} in
  (timestamp lc, lc).

(** [GetTime] reads the counter and leaves the clock as it is. *)
Definition GetTime (lc : LamportClock) : Z := timestamp lc.

(** The clock holds an [int64]. *)
Definition clock_ok (lc : LamportClock) : Prop := in_range (timestamp lc).

(** A sequence of calls on one clock. *)
Inductive clock_op : Type :=
  | OpTick
  | OpUpdate (receivedTimestamp : Z).

Definition apply_op (lc : LamportClock) (o : clock_op) : Z * LamportClock :=
  match o with
  | OpTick => Tick lc
  | OpUpdate r => Update lc r
  end.

(** Runs the calls in order; yields the returned values, in call order,
    and the final clock. *)
Fixpoint run_clock (lc : LamportClock) (ops : list clock_op) : list Z * LamportClock :=
  match ops with
  | [] => ([], lc)
  | o :: ops =>
      let '(v, lc1) := apply_op lc o in
      let '(vs, lc2) := run_clock lc1 ops in
      (v :: vs, lc2)
  end.

(** The argument of an [Update] is an [int64]. *)
Definition op_ok (o : clock_op) : Prop :=
  match o with
  | OpTick => True
  | OpUpdate r => in_range r
  end.

(** The value the counter holds just before the increment of a call. *)
Definition pre_incr (lc : LamportClock) (o : clock_op) : Z :=
  match o with
  | OpTick => timestamp lc
  | OpUpdate r => Z.max (timestamp lc) r
  end.

(** No increment of the run starts from [max_int64]. *)
Fixpoint no_wrap (lc : LamportClock) (ops : list clock_op) : Prop :=
  match ops with
  | [] => True
  | o :: ops => pre_incr lc o < max_int64 /\ no_wrap (snd (apply_op lc o)) ops
  end.

(** Strictly increasing lists of integers. *)
Fixpoint increasing_from (lo : Z) (l : list Z) : Prop :=
  match l with
  | [] => True
  | x :: l => lo < x /\ increasing_from x l
  end.

Definition strictly_increasing (l : list Z) : Prop :=
  match l with
  | [] => True
  | x :: l => increasing_from x l
  end.

(** ** Events and the slice holding them *)

(** [type Event struct].  [WallTime] is the reading of [time.Now()], in
    nanoseconds; the program never computes with it. *)
Record Event : Type := mkEvent {
  ID : string;
  Message : string;
  Timestamp : Z;
  WallTime : Z
}.

(** The zero value of [Event], which fills freshly made arrays. *)
Definition zero_Event : Event :=
  {| ID := ""; Message := ""; Timestamp := 0; WallTime := 0 |}.

(** A slice header: the address of the backing array, the length and the
    capacity. *)
Record slice : Type := mkSlice { ptr : nat; len : nat; cap : nat }.

(** The heap of backing arrays, by address. *)
Abbreviation Heap := (gmap nat (list Event)).

(** The amortised growth of [append] is decided by the Go runtime
    ([growslice]) and is no part of the program: it is a parameter, from
    the old capacity and the needed length to the proposed capacity. *)
Class Runtime : Type := { growslice : nat -> nat -> nat }.

(** A runtime that doubles, for running examples. *)
Definition doubling : Runtime := {| growslice := fun old needed => (2 * old)%nat |}.

(** [s[i]] for [i < len(s)], read in append order. *)
Definition slice_elems (h : Heap) (s : slice) : list Event :=
  take (len s) (default [] (h !! ptr s)).

(** [make([]Event, n)]. *)
Definition make_slice (n : nat) (h : Heap) : slice * Heap :=
  let p := fresh (dom h) in
  ({| ptr := p; len := n; cap := n |}, <[p := replicate n zero_Event]> h).

(** [copy(dst, src)]: the first [min(len(dst), len(src))] elements of
    [src] overwrite those of [dst]. *)
Definition copy_slice (dst src : slice) (h : Heap) : Heap :=
  let n := Nat.min (len dst) (len src) in
  let from := take n (slice_elems h src) in
  let arr := default [] (h !! ptr dst) in
  <[ptr dst := from ++ drop n arr]> h.

(** [append(s, e)]: in place when the capacity allows it, into a larger
    fresh array otherwise. *)
Definition append_slice `{Runtime} (s : slice) (e : Event) (h : Heap) : slice * Heap :=
  let needed := S (len s) in
  if bool_decide (needed <= cap s)%nat then
    let arr := default [] (h !! ptr s) in
    ({| ptr := ptr s; len := needed; cap := cap s |},
     <[ptr s := <[len s := e]> arr]> h)
  else
    let newcap := Nat.max needed (growslice (cap s) needed) in
    let p := fresh (dom h) in
    ({| ptr := p; len := needed; cap := newcap |},
     <[p := slice_elems h s ++ e :: replicate (newcap - needed) zero_Event]> h).

(** The header describes an allocated array of its capacity. *)
Definition slice_ok (h : Heap) (s : slice) : Prop :=
  exists arr, h !! ptr s = Some arr /\ length arr = cap s /\ (len s <= cap s)%nat.

(** ** The server *)

(** [type Server struct { clock *LamportClock; events []Event; mutex }]. *)
Record Server : Type := mkServer { clock : LamportClock; events : slice }.

(** [NewServer]: a clock at 0 and [make([]Event, 0)]. *)
Definition NewServer (h : Heap) : Server * Heap :=
  let '(evs, h) := make_slice 0 h in
  ({| clock := NewLamportClock; events := evs |}, h).

(** [logEvent]; [now] is the reading of [time.Now()].  The [log.Printf]
    line writes to the process log only and is left out. *)
Definition logEvent `{Runtime} (s : Server) (id message : string) (now : Z) (h : Heap)
  : Event * Server * Heap :=
  let '(timestamp, clk) := Tick (clock s) in
  let event :=
    {| ID := id; Message := message; Timestamp := timestamp; WallTime := now |} in
  let '(evs, h) := append_slice (events s) event h in
  (event, {| clock := clk; events := evs |}, h).

(** [processMessage]; [fmt.Sprintf] with the verb [%d] prints the decimal
    digits of the integer, with a leading minus sign when negative. *)
Definition processMessage `{Runtime} (s : Server) (receivedTimestamp : Z)
    (message : string) (now : Z) (h : Heap) : Event * Server * Heap :=
  let '(newTimestamp, clk) := Update (clock s) receivedTimestamp in
  let event :=
    {| ID := "msg-" +:+ pretty newTimestamp;
       Message := "Processed: " +:+ message;
       Timestamp := newTimestamp;
       WallTime := now |} in
  let '(evs, h) := append_slice (events s) event h in
  (event, {| clock := clk; events := evs |}, h).

(** The block of [handleGetEvents] between [RLock] and [RUnlock]: a fresh
    slice of the log's length, filled by [copy]. *)
Definition copyEvents (s : Server) (h : Heap) : slice * Heap :=
  let '(evs, h) := make_slice (len (events s)) h in
  (evs, copy_slice evs (events s) h).

(** The log, in append order. *)
Definition log_of (s : Server) (h : Heap) : list Event := slice_elems h (events s).

Definition server_ok (s : Server) (h : Heap) : Prop :=
  clock_ok (clock s) /\ slice_ok h (events s).

(** Calls into the core, with the wall-clock reading each one takes. *)
Inductive server_op : Type :=
  | CallLogEvent (id message : string) (now : Z)
  | CallProcessMessage (receivedTimestamp : Z) (message : string) (now : Z).

Definition apply_server_op `{Runtime} (s : Server) (h : Heap) (o : server_op)
  : Event * Server * Heap :=
  match o with
  | CallLogEvent id message now => logEvent s id message now h
  | CallProcessMessage r message now => processMessage s r message now h
  end.

(** Runs the calls in order; yields the returned events, in call order. *)
Fixpoint run_server `{Runtime} (s : Server) (h : Heap) (ops : list server_op)
  : list Event * Server * Heap :=
  match ops with
  | [] => ([], s, h)
  | o :: ops =>
      let '(e, s1, h1) := apply_server_op s h o in
      let '(es, s2, h2) := run_server s1 h1 ops in
      (e :: es, s2, h2)
  end.

(** The clock call behind a core call. *)
Definition clock_op_of (o : server_op) : clock_op :=
  match o with
  | CallLogEvent _ _ _ => OpTick
  | CallProcessMessage r _ _ => OpUpdate r
  end.

Definition is_message (o : server_op) : bool :=
  match o with
  | CallLogEvent _ _ _ => false
  | CallProcessMessage _ _ _ => true
  end.

(** The identifier a core call gives its event. *)
Definition id_of (o : server_op) (e : Event) : string :=
  match o with
  | CallLogEvent id _ _ => id
  | CallProcessMessage _ _ _ => "msg-" +:+ pretty (Timestamp e)
  end.

(** ** The HTTP layer *)

(** The parts of [*http.Request] the handlers read: the method and the
    parsed query ([url.Values], a map from keys to lists of values). *)
Record Request : Type := mkRequest {
  Method : string;
  Query : gmap string (list string)
}.

(** [url.Values.Get]: the first value of the key, the empty string when
    there is none. *)
Definition Values_Get (v : gmap string (list string)) (key : string) : string :=
  match v !! key with
  | Some (x :: _) => x
  | _ => ""
  end.

(** What a handler writes to the [http.ResponseWriter]: a status code
    and the body, kept as the value handed to the encoder. *)
Inductive Body : Type :=
  | PlainText (msg : string)
  | EventJSON (event : Event)
  | EventsJSON (current_timestamp : Z) (events : list Event) (event_count : nat).

Record Response : Type := mkResponse { StatusCode : Z; Content : Body }.

Definition StatusOK : Z := 200.
Definition StatusBadRequest : Z := 400.
Definition StatusMethodNotAllowed : Z := 405.

(** [http.Error(w, msg, code)]. *)
Definition http_Error (msg : string) (code : Z) : Response :=
  {| StatusCode := code; Content := PlainText msg |}.

(** [json.NewEncoder(w).Encode(v)] on a writer with no status written
    yet answers 200. *)
Definition json_reply (b : Body) : Response :=
  {| StatusCode := StatusOK; Content := b |}.

(** *** [strconv.ParseInt(s, 10, 64)] *)

Inductive NumError : Type := ErrSyntax | ErrRange.

Inductive parsed : Type :=
  | Parsed (n : Z)
  | Failed (err : NumError).

(** The value of a decimal digit; no other byte is accepted in base 10. *)
Definition digit_value (c : ascii) : option Z :=
  let n := Z.of_N (N_of_ascii c) in
  if bool_decide (48 <= n <= 57) then Some (n - 48) else None.

Definition maxUint64 : Z := 2 ^ 64 - 1.

(** The digit loop of [ParseUint]: [n] is the value read so far. *)
Fixpoint ParseUint_loop (s : string) (n : Z) : parsed :=
  match s with
  | EmptyString => Parsed n
  | String c s =>
      match digit_value c with
      | None => Failed ErrSyntax
      | Some d =>
          if bool_decide (n >= maxUint64 / 10 + 1) then Failed ErrRange
          else
            let n1 := n * 10 + d in
            if bool_decide (n1 > maxUint64) then Failed ErrRange
            else ParseUint_loop s n1
      end
  end.

Definition ParseUint (s : string) : parsed :=
  match s with
  | EmptyString => Failed ErrSyntax
  | _ => ParseUint_loop s 0
  end.

(** The sign is read first; the magnitude must fit the sign's half of the
    [int64] range.  A range error of [ParseUint] carries the largest
    [uint64], which fails both range tests. *)
Definition ParseInt (s : string) : parsed :=
  match s with
  | EmptyString => Failed ErrSyntax
  | String c rest =>
      let neg := bool_decide (c = "-"%char) in
      let s := if bool_decide (c = "+"%char \/ c = "-"%char) then rest else s in
      match ParseUint s with
      | Failed ErrSyntax => Failed ErrSyntax
      | Failed ErrRange => Failed ErrRange
      | Parsed un =>
          let cutoff := 2 ^ 63 in
          if negb neg && bool_decide (un >= cutoff) then Failed ErrRange
          else if neg && bool_decide (un > cutoff) then Failed ErrRange
          else Parsed (if neg then - un else un)
      end
  end.

(** A numeric string: an optional sign followed by at least one
    character, all of them decimal digits. *)
Fixpoint all_digits (s : string) : bool :=
  match s with
  | EmptyString => true
  | String c s => match digit_value c with Some _ => all_digits s | None => false end
  end.

Definition numeric (s : string) : bool :=
  match s with
  | EmptyString => false
  | String c rest =>
      let digits := if bool_decide (c = "+"%char \/ c = "-"%char) then rest else s in
      match digits with
      | EmptyString => false
      | _ => all_digits digits
      end
  end.

(** *** The handlers *)

(** [handleReceiveMessage]; [now] is read only when the message is
    processed. *)
Definition handleReceiveMessage `{Runtime} (s : Server) (h : Heap) (r : Request) (now : Z)
  : Response * Server * Heap :=
  if bool_decide (Method r <> "POST") then
    (http_Error "Method not allowed" StatusMethodNotAllowed, s, h)
  else
    let timestampStr := Values_Get (Query r) "timestamp" in
    let message := Values_Get (Query r) "message" in
    if bool_decide (timestampStr = "" \/ message = "") then
      (http_Error "Missing timestamp or message parameter" StatusBadRequest, s, h)
    else
      match ParseInt timestampStr with
      | Failed _ => (http_Error "Invalid timestamp" StatusBadRequest, s, h)
      | Parsed timestamp =>
          let '(event, s, h) := processMessage s timestamp message now h in
          (json_reply (EventJSON event), s, h)
      end.

(** The reply [handleGetEvents] encodes once the read lock is released:
    the clock is read at that time, the events and their count are those
    of the local slice [events], whatever the server's log has become. *)
Definition encodeEvents (s : Server) (h : Heap) (events : slice) : Response :=
  json_reply (EventsJSON (GetTime (clock s)) (slice_elems h events) (len events)).

(** [handleGetEvents]: the copy is taken under the read lock, the clock
    is read when the reply is encoded.  The lock is released in between,
    so other goroutines can run there: [meanwhile] is what they do to the
    server and the heap between [RUnlock] and [Encode]. *)
Definition handleGetEvents_with (meanwhile : Server -> Heap -> Server * Heap)
    (s : Server) (h : Heap) (r : Request) : Response * Server * Heap :=
  if bool_decide (Method r <> "GET") then
    (http_Error "Method not allowed" StatusMethodNotAllowed, s, h)
  else
    let '(events, h) := copyEvents s h in
    let '(s, h) := meanwhile s h in
    (encodeEvents s h events, s, h).

(** [handleGetEvents] with no other goroutine running. *)
Definition handleGetEvents (s : Server) (h : Heap) (r : Request) : Response * Heap :=
  let '(reply, _, h) := handleGetEvents_with (fun s h => (s, h)) s h r in
  (reply, h).

(** The calls [ops], made by other goroutines. *)
Definition calls_of `{Runtime} (ops : list server_op) (s : Server) (h : Heap) : Server * Heap :=
  let '(_, s, h) := run_server s h ops in (s, h).

(** ** Goroutines calling the clock

    [Tick] and [Update] as the loads, stores and mutex operations they
    perform, run by any number of goroutines under an arbitrary
    scheduler.  [lc.timestamp++] is a load followed by a store; only the
    mutex keeps two goroutines from interleaving them. *)

Module Goroutines.

Inductive call : Type :=
  | CallTick
  | CallUpdate (receivedTimestamp : Z).

Inductive instr : Type :=
  | ILock                      (* lc.mutex.Lock() *)
  | IUnlock                    (* the deferred lc.mutex.Unlock() *)
  | ILoad                      (* read lc.timestamp into a register *)
  | IStoreIfGreater (r : Z)    (* if r > register { lc.timestamp = r } *)
  | IStoreIncr                 (* lc.timestamp = register + 1 *)
  | IResult.                   (* evaluate the operand of return *)

Definition body (c : call) : list instr :=
  match c with
  | CallTick => [ILock; ILoad; IStoreIncr; IResult; IUnlock]
  | CallUpdate r => [ILock; ILoad; IStoreIfGreater r; ILoad; IStoreIncr; IResult; IUnlock]
  end.

(** The sequential call a goroutine's call stands for. *)
Definition op_of (c : call) : clock_op :=
  match c with
  | CallTick => OpTick
  | CallUpdate r => OpUpdate r
  end.

(** A goroutine: the call it is in with the instructions left to run, the
    calls it has still to make, its register, the evaluated result of the
    current call, and the values its finished calls returned. *)
Record goroutine : Type := mkGoroutine {
  frame : option (call * list instr);
  pending : list call;
  reg : Z;
  result : Z;
  returned : list Z
}.

(** What an observer of the calls sees: a call begins, takes the mutex,
    returns a value. *)
Inductive event : Type :=
  | EvCall (g : nat) (c : call)
  | EvLock (g : nat) (c : call)
  | EvReturn (g : nat) (c : call) (v : Z).

(** The machine: the shared counter, the goroutine holding the mutex,
    the goroutines, and the events so far (oldest first).  [trace] is
    written and never read by a step. *)
Record machine : Type := mkMachine {
  shared : Z;
  owner : option nat;
  routines : list goroutine;
  trace : list event
}.

(** The effect of one instruction, outside the mutex operations, on the
    counter, the register and the result. *)
Definition run_instr (i : instr) (st : Z * Z * Z) : Z * Z * Z :=
  let '(ts, rg, res) := st in
  match i with
  | ILock | IUnlock => st
  | ILoad => (ts, ts, res)
  | IStoreIfGreater r => (if bool_decide (r > rg) then r else ts, rg, res)
  | IStoreIncr => (incr rg, rg, res)
  | IResult => (ts, rg, ts)
  end.

(** One step of goroutine [g]; [None] when it has finished or waits for
    the mutex. *)
Definition step (m : machine) (g : nat) : option machine :=
  match routines m !! g with
  | None => None
  | Some r =>
      match frame r with
      | None =>
          match pending r with
          | [] => None
          | c :: cs =>
              Some {| shared := shared m; owner := owner m;
                      routines := <[g := {| frame := Some (c, body c); pending := cs;
                                            reg := reg r; result := result r;
                                            returned := returned r |}]> (routines m);
                      trace := trace m ++ [EvCall g c] |}
          end
      | Some (c, []) =>
          Some {| shared := shared m; owner := owner m;
                  routines := <[g := {| frame := None; pending := pending r;
                                        reg := reg r; result := result r;
                                        returned := returned r ++ [result r] |}]> (routines m);
                  trace := trace m ++ [EvReturn g c (result r)] |}
      | Some (c, ILock :: code) =>
          match owner m with
          | Some _ => None
          | None =>
              Some {| shared := shared m; owner := Some g;
                      routines := <[g := {| frame := Some (c, code); pending := pending r;
                                            reg := reg r; result := result r;
                                            returned := returned r |}]> (routines m);
                      trace := trace m ++ [EvLock g c] |}
          end
      | Some (c, IUnlock :: code) =>
          if bool_decide (owner m = Some g) then
            Some {| shared := shared m; owner := None;
                    routines := <[g := {| frame := Some (c, code); pending := pending r;
                                          reg := reg r; result := result r;
                                          returned := returned r |}]> (routines m);
                    trace := trace m |}
          else None
      | Some (c, i :: code) =>
          let '(ts, rg, res) := run_instr i (shared m, reg r, result r) in
          Some {| shared := ts; owner := owner m;
                  routines := <[g := {| frame := Some (c, code); pending := pending r;
                                        reg := rg; result := res;
                                        returned := returned r |}]> (routines m);
                  trace := trace m |}
      end
  end.

(** A schedule names the goroutine that steps next. *)
Fixpoint exec (m : machine) (sched : list nat) : option machine :=
  match sched with
  | [] => Some m
  | g :: sched =>
      match step m g with
      | None => None
      | Some m => exec m sched
      end
  end.

(** One goroutine per program, over a clock that holds [lc]. *)
Definition spawn (lc : LamportClock) (progs : list (list call)) : machine :=
  {| shared := timestamp lc; owner := None;
     routines := map (fun p => {| frame := None; pending := p; reg := 0;
                                  result := 0; returned := [] |}) progs;
     trace := [] |}.

Definition idle (r : goroutine) : Prop := frame r = None /\ pending r = [].

Definition finished (m : machine) : Prop := Forall idle (routines m).

(** The calls in the order in which they took the mutex. *)
Fixpoint lock_order (t : list event) : list (nat * call) :=
  match t with
  | [] => []
  | EvLock g c :: t => (g, c) :: lock_order t
  | _ :: t => lock_order t
  end.

Definition event_of (e : event) : nat :=
  match e with
  | EvCall g _ | EvLock g _ | EvReturn g _ _ => g
  end.

(** The events of goroutine [g]. *)
Definition project (g : nat) (t : list event) : list event :=
  filter (fun e => event_of e = g) t.

(** The values of [vs] that belong to the calls of [g] in [l]. *)
Fixpoint values_of (g : nat) (l : list (nat * call)) (vs : list Z) : list Z :=
  match l, vs with
  | (g', _) :: l, v :: vs =>
      if bool_decide (g' = g) then v :: values_of g l vs else values_of g l vs
  | _, _ => []
  end.

(** The events of a goroutine that made the calls [cs] one after the
    other and got the values [vs]. *)
Fixpoint call_events (g : nat) (cs : list call) (vs : list Z) : list event :=
  match cs, vs with
  | c :: cs, v :: vs => EvCall g c :: EvLock g c :: EvReturn g c v :: call_events g cs vs
  | _, _ => []
  end.

(** The instructions left to the holder of the mutex, run to the end. *)
Definition finish (code : list instr) (st : Z * Z * Z) : Z * Z * Z :=
  foldl (fun st i => run_instr i st) st code.

(** The sequential calls of a trace, in the order of [lock_order]. *)
Definition lock_ops (t : list event) : list clock_op :=
  map (fun p => op_of (snd p)) (lock_order t).

(** *** The invariant of the machine *)

(** A goroutine that is not between [Lock] and [Unlock]: it is between
    two calls, has not taken the mutex yet, or has released it. *)
Definition outside (r : goroutine) : Prop :=
  match frame r with
  | None => True
  | Some (c, code) => code = body c \/ code = []
  end.

(** [code] is what is left of the body of [c] somewhere after [Lock] and
    before the end of [Unlock]. *)
Definition inside (c : call) (code : list instr) : Prop :=
  exists pre, tail (body c) = pre ++ code /\ code <> [].

(** The mutex has been taken in the current call. *)
Definition started (code : list instr) : bool :=
  match code with
  | ILock :: _ => false
  | _ => true
  end.

(** The call a goroutine is in, if any. *)
Definition current (r : goroutine) : list call :=
  match frame r with
  | None => []
  | Some (c, _) => [c]
  end.

(** The events of the current call, and the value it is bound to return
    once it holds the mutex, the counter being [ts]. *)
Definition current_events (g : nat) (r : goroutine) : list event :=
  match frame r with
  | None => []
  | Some (c, code) => if started code then [EvCall g c; EvLock g c] else [EvCall g c]
  end.

Definition current_value (r : goroutine) (ts : Z) : list Z :=
  match frame r with
  | None => []
  | Some (c, code) =>
      if started code then [snd (finish code (ts, reg r, result r))] else []
  end.

(** Goroutine [g] has gone through a prefix of its program; its events
    and the values it got are those of that prefix in the order of the
    locks. *)
Definition routine_inv (progs : list (list call)) (l : list (nat * call)) (vs : list Z)
    (ts : Z) (t : list event) (g : nat) (r : goroutine) : Prop :=
  exists done,
    progs !! g = Some (done ++ current r ++ pending r) /\
    length done = length (returned r) /\
    project g t = call_events g done (returned r) ++ current_events g r /\
    values_of g l vs = returned r ++ current_value r ts.

(** The counter is the one of the sequential run in lock order, up to
    what the holder of the mutex has still to do; nobody else is between
    [Lock] and [Unlock]. *)
Definition mutex_inv (lc : LamportClock) (m : machine) : Prop :=
  match owner m with
  | None =>
      shared m = timestamp lc /\
      forall g r, routines m !! g = Some r -> outside r
  | Some g =>
      (exists r c code,
         routines m !! g = Some r /\ frame r = Some (c, code) /\ inside c code /\
         fst (fst (finish code (shared m, reg r, result r))) = timestamp lc) /\
      forall g' r, g' <> g -> routines m !! g' = Some r -> outside r
  end.

Definition inv (lc0 : LamportClock) (progs : list (list call)) (m : machine) : Prop :=
  length (routines m) = length progs /\
  mutex_inv (snd (run_clock lc0 (lock_ops (trace m)))) m /\
  (forall g r, routines m !! g = Some r ->
     routine_inv progs (lock_order (trace m)) (fst (run_clock lc0 (lock_ops (trace m))))
       (shared m) (trace m) g r) /\
  Forall (fun p => exists prog, progs !! fst p = Some prog /\ snd p ∈ prog)
    (lock_order (trace m)).

(** The number of steps a goroutine has still to take. *)
Definition steps_left (r : goroutine) : nat :=
  (match frame r with
   | None => 0
   | Some (_, code) => S (length code)
   end + sum_list (map (fun c => S (S (length (body c)))) (pending r)))%nat.

Definition steps_left_all (m : machine) : nat := sum_list (map steps_left (routines m)).

End Goroutines.

(** ** Goroutines calling the server

    [logEvent] and [processMessage] take two mutexes one after the
    other: the clock's inside [Tick] or [Update], then the server's
    around [append].  Each of the two critical sections is one step
    here, and other goroutines may run between them. *)

Module Recorder.

(** The first half of a core call: the clock call and the event built
    from the value it returns. *)
Definition stamp (lc : LamportClock) (o : server_op) : Event * LamportClock :=
  match o with
  | CallLogEvent id message now =>
      let '(timestamp, lc) := Tick lc in
      ({| ID := id; Message := message; Timestamp := timestamp; WallTime := now |}, lc)
  | CallProcessMessage receivedTimestamp message now =>
      let '(newTimestamp, lc) := Update lc receivedTimestamp in
      ({| ID := "msg-" +:+ pretty newTimestamp;
          Message := "Processed: " +:+ message;
          Timestamp := newTimestamp;
          WallTime := now |}, lc)
  end.

(** A goroutine: the event it has built and not yet appended, and the
    calls it has still to make. *)
Record worker : Type := mkWorker { stamped : option Event; todo : list server_op }.

Record system : Type := mkSystem { srv : Server; heap : Heap; workers : list worker }.

(** One step of goroutine [g]: the second half of its call when it
    holds an event, the first half of its next call otherwise. *)
Definition step `{Runtime} (y : system) (g : nat) : option system :=
  match workers y !! g with
  | None => None
  | Some w =>
      match stamped w with
      | Some event =>
          let '(evs, h) := append_slice (events (srv y)) event (heap y) in
          Some {| srv := {| clock := clock (srv y); events := evs |};
                  heap := h;
                  workers := <[g := {| stamped := None; todo := todo w |}]> (workers y) |}
      | None =>
          match todo w with
          | [] => None
          | o :: rest =>
              let '(event, lc) := stamp (clock (srv y)) o in
              Some {| srv := {| clock := lc; events := events (srv y) |};
                      heap := heap y;
                      workers := <[g := {| stamped := Some event; todo := rest |}]> (workers y) |}
          end
      end
  end.

Fixpoint exec `{Runtime} (y : system) (sched : list nat) : option system :=
  match sched with
  | [] => Some y
  | g :: sched =>
      match step y g with
      | None => None
      | Some y => exec y sched
      end
  end.

(** A fresh server and one goroutine per list of calls. *)
Definition start (h : Heap) (progs : list (list server_op)) : system :=
  let '(s, h) := NewServer h in
  {| srv := s; heap := h;
     workers := map (fun p => {| stamped := None; todo := p |}) progs |}.

End Recorder.

(** ** The remaining handlers *)

(** [handleCreateEvent]; [nanos] is the reading [time.Now().UnixNano()]
    the identifier is printed from, [now] the reading [logEvent] takes. *)
Definition handleCreateEvent `{Runtime} (s : Server) (h : Heap) (r : Request)
    (nanos now : Z) : Response * Server * Heap :=
  if bool_decide (Method r <> "POST") then
    (http_Error "Method not allowed" StatusMethodNotAllowed, s, h)
  else
    let message := Values_Get (Query r) "message" in
    let message := if bool_decide (message = "") then "Local event" else message in
    let eventID := "event-" +:+ pretty nanos in
    let '(event, s, h) := logEvent s eventID message now h in
    (json_reply (EventJSON event), s, h).

(** What [handleGetTime] writes: an error line or the two fields of its
    JSON object. *)
Inductive TimeBody : Type :=
  | TimeError (msg : string)
  | TimeJSON (lamport_timestamp : Z) (wall_time : Z).

(** [handleGetTime]: the status code and the body; the server is only
    read. *)
Definition handleGetTime (s : Server) (r : Request) (now : Z) : Z * TimeBody :=
  if bool_decide (Method r <> "GET") then
    (StatusMethodNotAllowed, TimeError "Method not allowed")
  else
    (StatusOK, TimeJSON (GetTime (clock s)) now).

(** ** Auxiliary notions for the properties below *)

(** The received value of an [Update] is at most [B]. *)
Definition op_below (B : Z) (o : clock_op) : Prop :=
  match o with
  | OpTick => True
  | OpUpdate r => r <= B
  end.

(** The number a string of decimal digits denotes, read after the
    digits that gave [n]; no bound is applied. *)
Fixpoint digits_value (s : string) (n : Z) : Z :=
  match s with
  | EmptyString => n
  | String c s =>
      match digit_value c with
      | Some d => digits_value s (n * 10 + d)
      | None => n
      end
  end.

(** The digits of a numeric string, without the sign, and the sign. *)
Definition unsigned_part (s : string) : string :=
  match s with
  | EmptyString => s
  | String c rest => if bool_decide (c = "+"%char \/ c = "-"%char) then rest else s
  end.

Definition is_negative (s : string) : bool :=
  match s with
  | String c _ => bool_decide (c = "-"%char)
  | EmptyString => false
  end.

(** The integer a numeric string denotes. *)
Definition signed_value (s : string) : Z :=
  if is_negative s then - digits_value (unsigned_part s) 0
  else digits_value (unsigned_part s) 0.

(** The steps a call takes in the machine of [Module Goroutines]: the
    call itself, the instructions of its body, the return. *)
Definition call_steps (c : Goroutines.call) : nat := S (S (length (Goroutines.body c))).

Definition program_steps (progs : list (list Goroutines.call)) : nat :=
  sum_list (map (fun p => sum_list (map call_steps p)) progs).

(** In the machine of [Module Recorder]: the logical times of the events
    that have been built and not yet appended, and the number of calls
    still to begin. *)
Definition held_times (ws : list Recorder.worker) : list Z :=
  omap (fun w => option_map Timestamp (Recorder.stamped w)) ws.

Definition calls_left (ws : list Recorder.worker) : nat :=
  sum_list (map (fun w => length (Recorder.todo w)) ws).

(** The schedule in which the goroutines [gs] make one call each, in
    that order, no goroutine running between the clock call and the
    [append] of another's call. *)
Definition one_at_a_time (gs : list nat) : list nat := flat_map (fun g => [g; g]) gs.

(** The received value of a [processMessage] call is an [int64] that is
    at most [B]. *)
Definition call_below (B : Z) (o : server_op) : Prop :=
  op_ok (clock_op_of o) /\ op_below B (clock_op_of o).

(** The invariant of the machine of [Module Recorder], for a run of
    [total] calls whose received values are at most [B]: the logical
    times given out so far, appended or still held, are pairwise
    distinct, positive and at most the counter, and the counter can still
    take all the calls left without overflow. *)
Definition recorder_inv (B : Z) (total : nat) (y : Recorder.system) : Prop :=
  server_ok (Recorder.srv y) (Recorder.heap y) /\
  NoDup (map Timestamp (log_of (Recorder.srv y) (Recorder.heap y))
         ++ held_times (Recorder.workers y)) /\
  Forall (fun t => 0 < t <= timestamp (clock (Recorder.srv y)))
    (map Timestamp (log_of (Recorder.srv y) (Recorder.heap y))
     ++ held_times (Recorder.workers y)) /\
  0 <= timestamp (clock (Recorder.srv y)) /\
  Z.max (timestamp (clock (Recorder.srv y))) B
    + Z.of_nat (calls_left (Recorder.workers y)) <= max_int64 /\
  (length (map Timestamp (log_of (Recorder.srv y) (Recorder.heap y))
           ++ held_times (Recorder.workers y))
   + calls_left (Recorder.workers y) = total)%nat /\
  Forall (fun w => Forall (call_below B) (Recorder.todo w)) (Recorder.workers y).

(** ** The program as [main] sets it up *)

(** The four handlers [main] registers with [http.HandleFunc].  A
    pattern without a trailing slash is matched by that path alone; every
    other path goes to the welcome text or to a redirect of the
    multiplexer, neither of which touches the server. *)
Inductive endpoint : Type :=
  | EventEndpoint
  | MessageEndpoint
  | EventsEndpoint
  | TimeEndpoint.

Definition main_routes (path : string) : option endpoint :=
  if bool_decide (path = "/event") then Some EventEndpoint
  else if bool_decide (path = "/message") then Some MessageEndpoint
  else if bool_decide (path = "/events") then Some EventsEndpoint
  else if bool_decide (path = "/time") then Some TimeEndpoint
  else None.

(** A request as it arrives: its path, what the handlers read of it, and
    the wall-clock readings taken while it is served. *)
Record Arrival : Type := mkArrival {
  path : string;
  request : Request;
  nanos : Z;
  now : Z
}.

(** Serving one request; the status code is [None] where no handler of
    the server runs. *)
Definition serve `{Runtime} (s : Server) (h : Heap) (a : Arrival) : option Z * Server * Heap :=
  match main_routes (path a) with
  | Some EventEndpoint =>
      let '(reply, s, h) := handleCreateEvent s h (request a) (nanos a) (now a) in
      (Some (StatusCode reply), s, h)
  | Some MessageEndpoint =>
      let '(reply, s, h) := handleReceiveMessage s h (request a) (now a) in
      (Some (StatusCode reply), s, h)
  | Some EventsEndpoint =>
      let '(reply, h) := handleGetEvents s h (request a) in
      (Some (StatusCode reply), s, h)
  | Some TimeEndpoint =>
      (Some (fst (handleGetTime s (request a) (now a))), s, h)
  | None => (None, s, h)
  end.

(** Requests served one after the other. *)
Fixpoint serve_all `{Runtime} (s : Server) (h : Heap) (arrivals : list Arrival)
  : list (option Z) * Server * Heap :=
  match arrivals with
  | [] => ([], s, h)
  | a :: arrivals =>
      let '(st, s1, h1) := serve s h a in
      let '(sts, s2, h2) := serve_all s1 h1 arrivals in
      (st :: sts, s2, h2)
  end.

(** The server [main] starts to serve with: a new server that has
    logged its start; [boot] is the wall-clock reading of that call. *)
Definition main_start `{Runtime} (h : Heap) (boot : Z) : Server * Heap :=
  let '(server, h) := NewServer h in
  let '(_, server, h) := logEvent server "init" "Server started" boot h in
  (server, h).

(** The core call a request leads to, if any. *)
Definition core_call_of (a : Arrival) : option server_op :=
  match main_routes (path a) with
  | Some EventEndpoint =>
      if bool_decide (Method (request a) <> "POST") then None
      else
        let message := Values_Get (Query (request a)) "message" in
        Some (CallLogEvent ("event-" +:+ pretty (nanos a))
                (if bool_decide (message = "") then "Local event" else message) (now a))
  | Some MessageEndpoint =>
      if bool_decide (Method (request a) <> "POST") then None
      else if bool_decide (Values_Get (Query (request a)) "timestamp" = ""
                           \/ Values_Get (Query (request a)) "message" = "") then None
      else
        match ParseInt (Values_Get (Query (request a)) "timestamp") with
        | Parsed t => Some (CallProcessMessage t (Values_Get (Query (request a)) "message") (now a))
        | Failed _ => None
        end
  | _ => None
  end.

(** The timestamp a message request carries, when it is accepted, is at
    most [B]. *)
Definition arrival_below (B : Z) (a : Arrival) : Prop :=
  match core_call_of a with
  | Some (CallProcessMessage t _ _) => t <= B
  | _ => True
  end.

(** The received value of a goroutine's [Update] call is an [int64]
    that is at most [B]. *)
Definition goroutine_call_below (B : Z) (c : Goroutines.call) : Prop :=
  op_ok (Goroutines.op_of c) /\ op_below B (Goroutines.op_of c).

(** * Properties *)

(** ** 64-bit arithmetic *)

Lemma wrap_in_range z : in_range (wrap z).
Proof.
  unfold in_range, wrap, min_int64, max_int64.
  pose proof (Z.mod_pos_bound (z + 2 ^ 63) (2 ^ 64) ltac:(lia)). lia.
Qed.

Lemma wrap_id z : in_range z -> wrap z = z.
Proof.
  unfold in_range, wrap, min_int64, max_int64. intros Hz.
  rewrite Z.mod_small by lia. lia.
Qed.

Lemma incr_in_range z : in_range (incr z).
Proof. apply wrap_in_range. Qed.

Lemma incr_below_max z : in_range z -> z < max_int64 -> incr z = z + 1.
Proof.
  unfold incr. intros Hz Hlt. apply wrap_id.
  unfold in_range, min_int64, max_int64 in *. lia.
Qed.

Lemma incr_at_max : incr max_int64 = min_int64.
Proof. reflexivity. Qed.

Lemma in_range_0 : in_range 0.
Proof. unfold in_range, min_int64, max_int64. lia. Qed.

(** ** The clock, one call at a time *)

Lemma NewLamportClock_ok : clock_ok NewLamportClock.
Proof. exact in_range_0. Qed.

Lemma Update_max lc r :
  Update lc r =
  (incr (Z.max (timestamp lc) r), {| timestamp := incr (Z.max (timestamp lc) r) |}).
Proof.
  unfold Update. case_bool_decide; simpl.
  - rewrite Z.max_r by lia. reflexivity.
  - rewrite Z.max_l by lia. reflexivity.
Qed.

Lemma apply_op_pre_incr lc o :
  apply_op lc o = (incr (pre_incr lc o), {| timestamp := incr (pre_incr lc o) |}).
Proof. destruct o; simpl; [reflexivity | apply Update_max]. Qed.

Lemma apply_op_ok lc o : clock_ok (snd (apply_op lc o)).
Proof. rewrite apply_op_pre_incr. apply incr_in_range. Qed.

Lemma pre_incr_in_range lc o : clock_ok lc -> op_ok o -> in_range (pre_incr lc o).
Proof.
  destruct o; unfold clock_ok, op_ok, pre_incr, in_range; intros; lia.
Qed.

Lemma pre_incr_ge lc o : timestamp lc <= pre_incr lc o.
Proof. destruct o; simpl; lia. Qed.

(** A call that does not start its increment from [max_int64] returns a
    value above the counter it found, and stores what it returns. *)
Lemma apply_op_grows lc o :
  clock_ok lc -> op_ok o -> pre_incr lc o < max_int64 ->
  fst (apply_op lc o) = pre_incr lc o + 1 /\
  timestamp (snd (apply_op lc o)) = pre_incr lc o + 1 /\
  timestamp lc < fst (apply_op lc o).
Proof.
  intros Hlc Ho Hlt. rewrite apply_op_pre_incr. simpl.
  rewrite incr_below_max by auto using pre_incr_in_range.
  pose proof (pre_incr_ge lc o). lia.
Qed.

(** C1, as the code has it: [Update] returns and stores [max(v, r) + 1]
    whenever that value is an [int64], that is for every current value [v]
    and received [r] (negative ones too) with [max(v, r)] below
    [max_int64]; the counter then grows strictly, so no [r] decreases it.
    The cases of the test suite: 0 and 5 give 6, 6 and 3 give 7, 7 and 7
    give 8. *)
Theorem Update_returns_max_plus_one lc r :
  clock_ok lc -> in_range r -> Z.max (timestamp lc) r < max_int64 ->
  Update lc r =
    (Z.max (timestamp lc) r + 1, {| timestamp := Z.max (timestamp lc) r + 1 |}) /\
  timestamp lc < timestamp (snd (Update lc r)) /\
  Update {| timestamp := 0 |} 5 = (6, {| timestamp := 6 |}) /\
  Update {| timestamp := 6 |} 3 = (7, {| timestamp := 7 |}) /\
  Update {| timestamp := 7 |} 7 = (8, {| timestamp := 8 |}).
Proof.
  intros Hlc Hr Hlt. rewrite Update_max.
  rewrite incr_below_max.
  - simpl. repeat split; try reflexivity. lia.
  - unfold clock_ok, in_range in *. lia.
  - exact Hlt.
Qed.

Lemma Update_returns_max_plus_one_witness :
  clock_ok {| timestamp := 6 |} /\ in_range (-3) /\
  Z.max (timestamp {| timestamp := 6 |}) (-3) < max_int64 /\
  Update {| timestamp := 6 |} (-3) = (7, {| timestamp := 7 |}).
Proof.
  assert (H1 : clock_ok {| timestamp := 6 |}) by (vm_compute; split; discriminate).
  assert (H2 : in_range (-3)) by (vm_compute; split; discriminate).
  assert (H3 : Z.max (timestamp {| timestamp := 6 |}) (-3) < max_int64) by reflexivity.
  split; [exact H1 | split; [exact H2 | split; [exact H3 | ]]].
  exact (proj1 (Update_returns_max_plus_one {| timestamp := 6 |} (-3) H1 H2 H3)).
Defined.

(** C1 as stated fails where [max(v, r)] is [max_int64]: the increment
    wraps to [min_int64], and a negative [r] then leaves the counter
    below its old value. *)
Lemma Update_wraps_at_max :
  in_range max_int64 /\
  fst (Update {| timestamp := 0 |} max_int64) = min_int64 /\
  fst (Update {| timestamp := 0 |} max_int64) <> Z.max 0 max_int64 + 1 /\
  timestamp (snd (Update {| timestamp := max_int64 |} (-1))) < max_int64.
Proof. vm_compute. repeat split; discriminate. Qed.

(** C7, as the code has it: [Tick] always returns, and stores the value
    it returns; from every counter below [max_int64] that value is the
    counter plus exactly 1. *)
Theorem Tick_adds_one lc :
  clock_ok lc -> timestamp lc < max_int64 ->
  Tick lc = (timestamp lc + 1, {| timestamp := timestamp lc + 1 |}) /\
  GetTime (snd (Tick lc)) = fst (Tick lc).
Proof.
  intros Hlc Hlt. unfold Tick, GetTime. simpl.
  rewrite incr_below_max by assumption. split; reflexivity.
Qed.

Lemma Tick_adds_one_witness :
  clock_ok {| timestamp := 41 |} /\ timestamp {| timestamp := 41 |} < max_int64 /\
  Tick {| timestamp := 41 |} = (42, {| timestamp := 42 |}).
Proof.
  assert (H1 : clock_ok {| timestamp := 41 |}) by (vm_compute; split; discriminate).
  assert (H2 : timestamp {| timestamp := 41 |} < max_int64) by reflexivity.
  split; [exact H1 | split; [exact H2 | ]].
  exact (proj1 (Tick_adds_one {| timestamp := 41 |} H1 H2)).
Defined.

(** C7 as stated fails on the clock state [max_int64], which one
    [Update] reaches: [Tick] then yields [min_int64]. *)
Lemma Tick_wraps_at_max :
  snd (Update NewLamportClock (max_int64 - 1)) = {| timestamp := max_int64 |} /\
  clock_ok {| timestamp := max_int64 |} /\
  fst (Tick {| timestamp := max_int64 |}) = min_int64 /\
  fst (Tick {| timestamp := max_int64 |}) <> max_int64 + 1.
Proof. vm_compute. repeat split; discriminate. Qed.

(** C4, as the code has it: for a clock below [max_int64] and a received
    value [r] with [0 <= r < max_int64], [Update] returns an [int64] above
    both the prior counter and [r]. *)
Theorem Update_exceeds_both lc r :
  clock_ok lc -> timestamp lc < max_int64 -> 0 <= r < max_int64 ->
  timestamp lc < fst (Update lc r) /\
  r < fst (Update lc r) /\
  in_range (fst (Update lc r)) /\
  GetTime (snd (Update lc r)) = fst (Update lc r).
Proof.
  intros Hlc Hv Hr. rewrite Update_max. unfold GetTime. simpl.
  split_and!; try apply incr_in_range; try reflexivity;
    rewrite incr_below_max; unfold clock_ok, in_range, min_int64 in *; lia.
Qed.

Lemma Update_exceeds_both_witness :
  clock_ok {| timestamp := 2 |} /\ timestamp {| timestamp := 2 |} < max_int64 /\
  0 <= 1000000 < max_int64 /\
  timestamp {| timestamp := 2 |} < fst (Update {| timestamp := 2 |} 1000000) /\
  1000000 < fst (Update {| timestamp := 2 |} 1000000).
Proof.
  assert (H1 : clock_ok {| timestamp := 2 |}) by (vm_compute; split; discriminate).
  assert (H2 : timestamp {| timestamp := 2 |} < max_int64) by reflexivity.
  assert (H3 : 0 <= 1000000 < max_int64) by (split; [discriminate | reflexivity]).
  pose proof (Update_exceeds_both {| timestamp := 2 |} 1000000 H1 H2 H3) as H.
  split; [exact H1 | split; [exact H2 | split; [exact H3 | ]]].
  split; [exact (proj1 H) | exact (proj1 (proj2 H))].
Defined.

(** C4 as stated fails at the top of the 64-bit range: the non-negative
    received value [max_int64] makes the increment overflow, and the
    returned value is below both the received one and the prior counter. *)
Lemma Update_overflows_at_max :
  0 <= max_int64 /\ in_range max_int64 /\
  fst (Update {| timestamp := 7 |} max_int64) = min_int64 /\
  ~ max_int64 < fst (Update {| timestamp := 7 |} max_int64) /\
  ~ 7 < fst (Update {| timestamp := 7 |} max_int64).
Proof. vm_compute. repeat split; discriminate. Qed.

(** ** The clock over a sequence of calls *)

Lemma run_clock_cons lc o ops :
  run_clock lc (o :: ops) =
  (fst (apply_op lc o) :: fst (run_clock (snd (apply_op lc o)) ops),
   snd (run_clock (snd (apply_op lc o)) ops)).
Proof.
  simpl. destruct (apply_op lc o) as [v lc1]. simpl.
  destruct (run_clock lc1 ops) as [vs lc2]. reflexivity.
Qed.

Lemma run_clock_app lc ops1 ops2 :
  run_clock lc (ops1 ++ ops2) =
  (fst (run_clock lc ops1) ++ fst (run_clock (snd (run_clock lc ops1)) ops2),
   snd (run_clock (snd (run_clock lc ops1)) ops2)).
Proof.
  revert lc. induction ops1 as [|o ops1 IH]; intros lc.
  - simpl. destruct (run_clock lc ops2). reflexivity.
  - rewrite <- app_comm_cons, !run_clock_cons, IH. reflexivity.
Qed.

Lemma run_clock_length lc ops : length (fst (run_clock lc ops)) = length ops.
Proof.
  revert lc. induction ops as [|o ops IH]; intros lc; [reflexivity|].
  rewrite run_clock_cons. simpl. f_equal. apply IH.
Qed.

Lemma run_clock_ok lc ops : clock_ok lc -> clock_ok (snd (run_clock lc ops)).
Proof.
  revert lc. induction ops as [|o ops IH]; intros lc Hlc; [exact Hlc|].
  rewrite run_clock_cons. simpl. apply IH, apply_op_ok.
Qed.

Lemma no_wrap_app lc ops1 ops2 :
  no_wrap lc (ops1 ++ ops2) <->
  no_wrap lc ops1 /\ no_wrap (snd (run_clock lc ops1)) ops2.
Proof.
  revert lc. induction ops1 as [|o ops1 IH]; intros lc.
  - simpl. tauto.
  - rewrite <- app_comm_cons, run_clock_cons. simpl. rewrite IH. tauto.
Qed.

(** The value the clock holds after a run is the last value returned. *)
Lemma run_clock_last lc ops :
  timestamp (snd (run_clock lc ops)) =
  default (timestamp lc) (last (fst (run_clock lc ops))).
Proof.
  revert lc. induction ops as [|o ops IH]; intros lc; [reflexivity|].
  rewrite run_clock_cons. simpl. rewrite IH.
  destruct (fst (run_clock (snd (apply_op lc o)) ops)) as [|x l] eqn:E.
  - simpl. rewrite apply_op_pre_incr. reflexivity.
  - rewrite (last_cons (fst (apply_op lc o))).
    destruct (last (x :: l)) eqn:El; [reflexivity|].
    apply last_None in El. discriminate.
Qed.

Lemma run_clock_increasing lc ops :
  clock_ok lc -> Forall op_ok ops -> no_wrap lc ops ->
  increasing_from (timestamp lc) (fst (run_clock lc ops)).
Proof.
  revert lc. induction ops as [|o ops IH]; intros lc Hlc Hops Hnw; [exact I|].
  rewrite run_clock_cons. simpl.
  inversion Hops as [|? ? Ho Hops']; subst. destruct Hnw as [Hlt Hnw].
  destruct (apply_op_grows lc o Hlc Ho Hlt) as (Hv & Hs & Hgt).
  split; [exact Hgt|].
  replace (fst (apply_op lc o)) with (timestamp (snd (apply_op lc o))) by lia.
  apply IH; auto using apply_op_ok.
Qed.


Lemma increasing_from_lookup lo l i x :
  increasing_from lo l -> l !! i = Some x -> lo < x.
Proof.
  revert lo i. induction l as [|y l IH]; intros lo i Hinc Hi; [discriminate|].
  destruct Hinc as [Hlt Hinc]. destruct i as [|i]; simpl in Hi.
  - congruence.
  - specialize (IH y i Hinc Hi). lia.
Qed.

Lemma increasing_from_pairwise lo l i j x y :
  increasing_from lo l -> (i < j)%nat ->
  l !! i = Some x -> l !! j = Some y -> x < y.
Proof.
  revert lo i j. induction l as [|z l IH]; intros lo i j Hinc Hij Hi Hj; [discriminate|].
  destruct Hinc as [Hlt Hinc]. destruct j as [|j]; [lia|].
  destruct i as [|i]; simpl in Hi, Hj.
  - injection Hi as ->. eapply increasing_from_lookup; eauto.
  - eapply (IH z i j); eauto. lia.
Qed.

Lemma increasing_from_strictly lo l : increasing_from lo l -> strictly_increasing l.
Proof. destruct l; simpl; tauto. Qed.


(** C2, as the code has it: the counter starts at 0; over every sequence
    of [Tick] and [Update] calls on [int64] arguments in which no
    increment starts from [max_int64], each call stores a strictly larger
    value and returns the value it stores, each returned value is strictly
    greater than every value returned before it, and [GetTime] at the end
    is the last value returned. *)
Theorem clock_strictly_monotone ops :
  Forall op_ok ops -> no_wrap NewLamportClock ops ->
  GetTime NewLamportClock = 0 /\
  (forall before o after, ops = before ++ o :: after ->
     let lc := snd (run_clock NewLamportClock before) in
     timestamp lc < timestamp (snd (apply_op lc o)) /\
     fst (apply_op lc o) = timestamp (snd (apply_op lc o))) /\
  (forall i j x y, (i < j)%nat ->
     fst (run_clock NewLamportClock ops) !! i = Some x ->
     fst (run_clock NewLamportClock ops) !! j = Some y -> x < y) /\
  GetTime (snd (run_clock NewLamportClock ops)) =
    default 0 (last (fst (run_clock NewLamportClock ops))).
Proof.
  intros Hops Hnw. split_and!.
  - reflexivity.
  - intros before o after -> lc.
    apply Forall_app in Hops as [Hb Ho]. apply Forall_cons in Ho as [Ho _].
    apply no_wrap_app in Hnw as [_ [Hlt _]].
    assert (Hlc : clock_ok lc) by apply run_clock_ok, NewLamportClock_ok.
    destruct (apply_op_grows lc o Hlc Ho Hlt) as (Hv & Hs & Hgt).
    split; [rewrite Hs, <- Hv; exact Hgt | rewrite Hs; exact Hv].
  - intros i j x y. apply increasing_from_pairwise with (lo := 0).
    apply (run_clock_increasing NewLamportClock); auto using NewLamportClock_ok.
  - apply (run_clock_last NewLamportClock).
Qed.

Lemma clock_strictly_monotone_witness :
  Forall op_ok [OpTick; OpUpdate 5; OpUpdate (-2); OpTick] /\
  no_wrap NewLamportClock [OpTick; OpUpdate 5; OpUpdate (-2); OpTick] /\
  fst (run_clock NewLamportClock [OpTick; OpUpdate 5; OpUpdate (-2); OpTick]) = [1; 6; 7; 8] /\
  GetTime (snd (run_clock NewLamportClock [OpTick; OpUpdate 5; OpUpdate (-2); OpTick])) =
    default 0 (last (fst (run_clock NewLamportClock [OpTick; OpUpdate 5; OpUpdate (-2); OpTick]))).
Proof.
  assert (H1 : Forall op_ok [OpTick; OpUpdate 5; OpUpdate (-2); OpTick]).
  { repeat constructor; vm_compute; discriminate. }
  assert (H2 : no_wrap NewLamportClock [OpTick; OpUpdate 5; OpUpdate (-2); OpTick]).
  { vm_compute. repeat split. }
  split; [exact H1 | split; [exact H2 | split; [reflexivity | ]]].
  exact (proj2 (proj2 (proj2 (clock_strictly_monotone _ H1 H2)))).
Defined.

(** C2 as stated fails on sequences that reach [max_int64]: the stored
    value drops below the one before the call, and a later returned
    value is below an earlier one. *)
Lemma clock_not_monotone_at_max :
  Forall op_ok [OpTick; OpUpdate max_int64] /\
  run_clock NewLamportClock [OpTick; OpUpdate max_int64] =
    ([1; min_int64], {| timestamp := min_int64 |}) /\
  min_int64 < 1 /\
  timestamp (snd (Update {| timestamp := 1 |} max_int64)) < timestamp {| timestamp := 1 |}.
Proof.
  split; [repeat constructor; vm_compute; discriminate|].
  vm_compute. repeat split.
Qed.

(** ** Slices *)

Lemma fresh_unallocated (h : Heap) : h !! fresh (dom h) = None.
Proof. apply not_elem_of_dom, is_fresh. Qed.

Lemma slice_ok_length h s : slice_ok h s -> length (slice_elems h s) = len s.
Proof.
  intros (arr & Harr & Hlen & Hle). unfold slice_elems. rewrite Harr. simpl.
  apply length_take_le. lia.
Qed.

Lemma make_slice_spec n h s h' :
  make_slice n h = (s, h') ->
  slice_ok h' s /\ len s = n /\ cap s = n /\ h !! ptr s = None /\
  h' = <[ptr s := replicate n zero_Event]> h.
Proof.
  unfold make_slice. intros [= <- <-]. simpl. split_and!.
  - exists (replicate n zero_Event). simpl.
    rewrite lookup_insert_eq, length_replicate. auto.
  - reflexivity.
  - reflexivity.
  - apply fresh_unallocated.
  - reflexivity.
Qed.

(** [append] yields a valid slice whose elements are the old ones
    followed by the new one. *)
Lemma append_slice_spec `{Runtime} s e h s' h' :
  slice_ok h s -> append_slice s e h = (s', h') ->
  slice_ok h' s' /\ slice_elems h' s' = slice_elems h s ++ [e].
Proof.
  intros (arr & Harr & Hlen & Hle). unfold append_slice.
  case_bool_decide as Hroom; intros [= <- <-]; unfold slice_ok, slice_elems; simpl.
  - rewrite lookup_insert_eq, Harr. simpl. split.
    + eexists. split; [reflexivity|]. rewrite length_insert. lia.
    + rewrite <- (take_insert_ge arr (len s) (len s) e) by lia.
      apply take_S_r. apply list_lookup_insert_eq. lia.
  - rewrite lookup_insert_eq, Harr. simpl. split.
    + eexists. split; [reflexivity|].
      rewrite length_app, length_take_le by lia. simpl.
      rewrite length_replicate. lia.
    + rewrite cons_middle, (assoc_L (++)).
      apply take_app_length'. rewrite length_app, length_take_le by lia. simpl. lia.
Qed.


(** ** The server *)

Lemma NewServer_spec h0 s h :
  NewServer h0 = (s, h) ->
  server_ok s h /\ log_of s h = [] /\ clock s = NewLamportClock.
Proof.
  unfold NewServer. destruct (make_slice 0 h0) as [evs h1] eqn:Hmk.
  intros [= <- <-]. apply make_slice_spec in Hmk as (Hok & Hlen & _ & _ & _).
  split_and!.
  - split; [exact NewLamportClock_ok | exact Hok].
  - unfold log_of, slice_elems. simpl. rewrite Hlen. reflexivity.
  - reflexivity.
Qed.

(** One core call: one clock call, one event appended, and the event
    carries the value the clock returned. *)
Lemma apply_server_op_spec `{Runtime} s h o e s' h' :
  server_ok s h -> apply_server_op s h o = (e, s', h') ->
  server_ok s' h' /\
  log_of s' h' = log_of s h ++ [e] /\
  Timestamp e = fst (apply_op (clock s) (clock_op_of o)) /\
  clock s' = snd (apply_op (clock s) (clock_op_of o)) /\
  ID e = id_of o e.
Proof.
  intros [Hc Hs].
  pose proof (apply_op_ok (clock s) (clock_op_of o)) as Hclk.
  destruct o as [id message now | r message now];
    cbn [apply_server_op clock_op_of apply_op id_of] in *.
  - unfold logEvent. destruct (Tick (clock s)) as [v clk].
    destruct (append_slice _ _ h) as [evs h1] eqn:Happ. intros [= <- <- <-].
    destruct (append_slice_spec _ _ _ _ _ Hs Happ) as [Hok Hel].
    unfold server_ok, log_of. cbn [clock events Timestamp ID fst snd] in *.
    split_and!; auto.
  - unfold processMessage. destruct (Update (clock s) r) as [v clk].
    destruct (append_slice _ _ h) as [evs h1] eqn:Happ. intros [= <- <- <-].
    destruct (append_slice_spec _ _ _ _ _ Hs Happ) as [Hok Hel].
    unfold server_ok, log_of. cbn [clock events Timestamp ID fst snd] in *.
    split_and!; auto.
Qed.


Lemma run_server_cons `{Runtime} s h o ops :
  run_server s h (o :: ops) =
  let '(e, s1, h1) := apply_server_op s h o in
  let '(es, s2, h2) := run_server s1 h1 ops in
  (e :: es, s2, h2).
Proof. reflexivity. Qed.

(** A run of core calls appends the returned events to the log, in call
    order, and their logical times are the values the clock returns on
    the corresponding run of clock calls. *)
Lemma run_server_spec `{Runtime} ops : forall s h es s' h',
  server_ok s h -> run_server s h ops = (es, s', h') ->
  server_ok s' h' /\
  log_of s' h' = log_of s h ++ es /\
  map Timestamp es = fst (run_clock (clock s) (map clock_op_of ops)) /\
  clock s' = snd (run_clock (clock s) (map clock_op_of ops)) /\
  Forall2 (fun o e => ID e = id_of o e) ops es.
Proof.
  induction ops as [|o ops IH]; intros s h es s' h' Hok.
  - simpl. intros [= <- <- <-]. rewrite app_nil_r. split_and!; auto.
  - rewrite run_server_cons.
    destruct (apply_server_op s h o) as [[e s1] h1] eqn:Hop.
    destruct (run_server s1 h1 ops) as [[es1 s2] h2] eqn:Hrun.
    intros [= <- <- <-].
    destruct (apply_server_op_spec _ _ _ _ _ _ Hok Hop) as (Hok1 & Hlog1 & Hts & Hclk & Hid).
    destruct (IH _ _ _ _ _ Hok1 Hrun) as (Hok2 & Hlog2 & Hmap & Hclk2 & Hids).
    simpl map. rewrite run_clock_cons. simpl. rewrite <- Hclk, <- Hts.
    split_and!; auto.
    + rewrite Hlog2, Hlog1, <- (assoc_L (++)). reflexivity.
    + congruence.
Qed.


(** C5: on a fresh server the calls [logEvent], [logEvent],
    [processMessage(5)], [logEvent], [processMessage(4)] return events
    with logical times 1, 2, 6, 7, 8, the log holds them in that order,
    and [GetTime] then returns 8; whatever the identifiers, labels,
    wall-clock readings, heap and growth policy. *)
Theorem scenario_1_2_6_7_8 {rt : Runtime} (h0 : Heap)
    (id1 id2 id4 l1 l2 l3 l4 l5 : string) (t1 t2 t3 t4 t5 : Z) :
  let '(s0, h1) := NewServer h0 in
  let '(es, s, h) := run_server s0 h1
    [CallLogEvent id1 l1 t1; CallLogEvent id2 l2 t2; CallProcessMessage 5 l3 t3;
     CallLogEvent id4 l4 t4; CallProcessMessage 4 l5 t5] in
  map Timestamp es = [1; 2; 6; 7; 8] /\
  map Timestamp (log_of s h) = [1; 2; 6; 7; 8] /\
  GetTime (clock s) = 8.
Proof.
  destruct (NewServer h0) as [s0 h1] eqn:Hnew.
  destruct (run_server s0 h1 _) as [[es s] h] eqn:Hrun.
  apply NewServer_spec in Hnew as (Hok & Hlog0 & Hclk0).
  destruct (run_server_spec _ _ _ _ _ _ Hok Hrun) as (_ & Hlog & Hts & Hclk & _).
  rewrite Hlog, Hlog0, Hclk. simpl app. rewrite Hts, Hclk0.
  split_and!; reflexivity.
Qed.

(** ** Identifiers of message events *)

Lemma msg_id_inj (x y : Z) : "msg-" +:+ pretty x = "msg-" +:+ pretty y -> x = y.
Proof. simpl. intros [= Heq]. exact (pretty_Z_inj _ _ Heq). Qed.

Lemma Forall2_lookup_both {A B} (P : A -> B -> Prop) l k i x y :
  Forall2 P l k -> l !! i = Some x -> k !! i = Some y -> P x y.
Proof. intros HF Hx Hy. eapply Forall2_lookup_lr; eauto. Qed.

(** C9, as the code has it: on a fresh server, for every sequence of
    calls on [int64] arguments in which no increment starts from
    [max_int64], the event of each [processMessage] call has the
    identifier ["msg-"] followed by the decimal digits of its logical
    time, and the events of two different [processMessage] calls have
    different identifiers. *)
Theorem message_ids_unique {rt : Runtime} (h0 : Heap) (ops : list server_op) :
  Forall op_ok (map clock_op_of ops) ->
  no_wrap NewLamportClock (map clock_op_of ops) ->
  let '(s0, h1) := NewServer h0 in
  let '(es, s, h) := run_server s0 h1 ops in
  forall i j oi oj ei ej,
    i <> j ->
    ops !! i = Some oi -> ops !! j = Some oj ->
    is_message oi = true -> is_message oj = true ->
    es !! i = Some ei -> es !! j = Some ej ->
    ID ei = "msg-" +:+ pretty (Timestamp ei) /\ ID ei <> ID ej.
Proof.
  intros Hops Hnw.
  destruct (NewServer h0) as [s0 h1] eqn:Hnew.
  destruct (run_server s0 h1 ops) as [[es s] h] eqn:Hrun.
  apply NewServer_spec in Hnew as (Hok & Hlog0 & Hclk0).
  destruct (run_server_spec _ _ _ _ _ _ Hok Hrun) as (_ & _ & Hts & _ & Hids).
  rewrite Hclk0 in Hts.
  pose proof (run_clock_increasing NewLamportClock _ NewLamportClock_ok Hops Hnw) as Hinc.
  rewrite <- Hts in Hinc.
  intros i j oi oj ei ej Hij Hoi Hoj Hmi Hmj Hei Hej.
  pose proof (Forall2_lookup_both _ _ _ _ _ _ Hids Hoi Hei) as Hidi.
  pose proof (Forall2_lookup_both _ _ _ _ _ _ Hids Hoj Hej) as Hidj.
  destruct oi; [discriminate|]. destruct oj; [discriminate|]. simpl in Hidi, Hidj.
  split; [exact Hidi|].
  intros Heq. rewrite Hidi, Hidj in Heq. apply msg_id_inj in Heq.
  assert (Hti : map Timestamp es !! i = Some (Timestamp ei)) by (rewrite list_lookup_fmap, Hei; reflexivity).
  assert (Htj : map Timestamp es !! j = Some (Timestamp ej)) by (rewrite list_lookup_fmap, Hej; reflexivity).
  destruct (Nat.lt_total i j) as [Hlt | [-> | Hlt]]; [| congruence |].
  - pose proof (increasing_from_pairwise _ _ _ _ _ _ Hinc Hlt Hti Htj). lia.
  - pose proof (increasing_from_pairwise _ _ _ _ _ _ Hinc Hlt Htj Hti). lia.
Qed.

Lemma message_ids_unique_witness :
  Forall op_ok (map clock_op_of
    [CallProcessMessage 5 "ping" 11; CallLogEvent "msg-6" "local" 12; CallProcessMessage 4 "pong" 13]) /\
  no_wrap NewLamportClock (map clock_op_of
    [CallProcessMessage 5 "ping" 11; CallLogEvent "msg-6" "local" 12; CallProcessMessage 4 "pong" 13]) /\
  let '(s0, h1) := NewServer ∅ in
  let '(es, s, h) := @run_server doubling s0 h1
    [CallProcessMessage 5 "ping" 11; CallLogEvent "msg-6" "local" 12; CallProcessMessage 4 "pong" 13] in
  forall i j oi oj ei ej,
    i <> j ->
    [CallProcessMessage 5 "ping" 11; CallLogEvent "msg-6" "local" 12;
     CallProcessMessage 4 "pong" 13] !! i = Some oi ->
    [CallProcessMessage 5 "ping" 11; CallLogEvent "msg-6" "local" 12;
     CallProcessMessage 4 "pong" 13] !! j = Some oj ->
    is_message oi = true -> is_message oj = true ->
    es !! i = Some ei -> es !! j = Some ej ->
    ID ei = "msg-" +:+ pretty (Timestamp ei) /\ ID ei <> ID ej.
Proof.
  assert (H1 : Forall op_ok (map clock_op_of
    [CallProcessMessage 5 "ping" 11; CallLogEvent "msg-6" "local" 12; CallProcessMessage 4 "pong" 13])).
  { repeat constructor; vm_compute; discriminate. }
  assert (H2 : no_wrap NewLamportClock (map clock_op_of
    [CallProcessMessage 5 "ping" 11; CallLogEvent "msg-6" "local" 12; CallProcessMessage 4 "pong" 13])).
  { vm_compute. repeat split. }
  split; [exact H1 | split; [exact H2 | ]].
  exact (@message_ids_unique doubling ∅ _ H1 H2).
Defined.

(** C9 as stated fails when two messages carry [max_int64]: both merges
    return [min_int64] and both events get the same identifier. *)
Lemma message_ids_collide_at_max :
  Forall op_ok (map clock_op_of
    [CallProcessMessage max_int64 "ping" 11; CallProcessMessage max_int64 "pong" 12]) /\
  let '(s0, h1) := NewServer ∅ in
  let '(es, s, h) := @run_server doubling s0 h1
    [CallProcessMessage max_int64 "ping" 11; CallProcessMessage max_int64 "pong" 12] in
  map ID es = ["msg--9223372036854775808"; "msg--9223372036854775808"] /\
  map Timestamp es = [min_int64; min_int64].
Proof.
  split; [repeat constructor; vm_compute; discriminate|].
  vm_compute. split; reflexivity.
Qed.

(** ** Snapshots of the log *)

(** The copy lives in an array of its own and holds the log as it is at
    the time of the copy; the server's own slice is left as it was. *)
Lemma copyEvents_spec s h snap h' :
  server_ok s h -> copyEvents s h = (snap, h') ->
  slice_ok h' snap /\
  slice_elems h' snap = log_of s h /\
  len snap = length (log_of s h) /\
  h !! ptr snap = None /\
  ptr snap <> ptr (events s) /\
  server_ok s h' /\
  log_of s h' = log_of s h.
Proof.
  intros [Hc Hs]. pose proof (slice_ok_length _ _ Hs) as Hlen.
  destruct Hs as (arr & Harr & Hcap & Hle).
  unfold copyEvents. destruct (make_slice _ h) as [evs h1] eqn:Hmk.
  intros [= <- <-]. apply make_slice_spec in Hmk as (Hok & Hn & Hcp & Hnone & ->).
  assert (Hne : ptr evs <> ptr (events s)) by congruence.
  assert (Hsrc : slice_elems (<[ptr evs := replicate (len (events s)) zero_Event]> h) (events s)
                 = slice_elems h (events s)).
  { unfold slice_elems. rewrite lookup_insert_ne by congruence. reflexivity. }
  unfold copy_slice. rewrite Hsrc, lookup_insert_eq, insert_insert_eq. simpl.
  rewrite Hn, Nat.min_id.
  rewrite drop_ge by (rewrite length_replicate; reflexivity).
  rewrite app_nil_r, take_ge by (rewrite Hlen; reflexivity).
  unfold server_ok, log_of, slice_ok, slice_elems.
  rewrite lookup_insert_eq, (lookup_insert_ne _ _ _ _ Hne), Harr. simpl.
  split_and!; eauto.
  - eexists. split; [reflexivity|]. rewrite length_take_le by lia. lia.
  - rewrite Hn. apply take_ge. rewrite length_take_le by lia. lia.
  - rewrite length_take_le by lia. reflexivity.
Qed.

(** The handler when no other goroutine runs. *)
Lemma handleGetEvents_alone (s : Server) (h : Heap) (r : Request) :
  handleGetEvents s h r =
    if bool_decide (Method r <> "GET") then
      (http_Error "Method not allowed" StatusMethodNotAllowed, h)
    else
      let '(events, h) := copyEvents s h in
      (json_reply (EventsJSON (GetTime (clock s)) (slice_elems h events) (len events)), h).
Proof.
  unfold handleGetEvents, handleGetEvents_with, encodeEvents.
  case_bool_decide; [reflexivity|].
  destruct (copyEvents s h) as [events h']. reflexivity.
Qed.


(** Three events, a snapshot, then a call whose [append] writes into the
    log's own array: the snapshot still lists the first three events. *)
Example frozen_copy_run :
  let '(s0, h1) := NewServer ∅ in
  let '(_, s1, h2) := @run_server doubling s0 h1
    [CallLogEvent "event1" "First event" 1; CallLogEvent "event2" "Second event" 2;
     CallLogEvent "event3" "Third event" 3] in
  let '(snap, h3) := copyEvents s1 h2 in
  let '(_, s2, h4) := @run_server doubling s1 h3 [CallProcessMessage 9 "late" 4] in
  map Timestamp (slice_elems h4 snap) = [1; 2; 3] /\
  map Timestamp (log_of s2 h4) = [1; 2; 3; 10] /\
  ptr (events s1) = ptr (events s2).
Proof. vm_compute. repeat split. Qed.

(** The same run through the handler: the late call is made between the
    copy and the encoding.  The reply lists the three events, counts
    three, and reports the clock value 10 of the time of encoding. *)
Example late_call_reply :
  let '(s0, h1) := NewServer ∅ in
  let '(_, s1, h2) := @run_server doubling s0 h1
    [CallLogEvent "event1" "First event" 1; CallLogEvent "event2" "Second event" 2;
     CallLogEvent "event3" "Third event" 3] in
  let '(reply, s2, h4) :=
    handleGetEvents_with (@calls_of doubling [CallProcessMessage 9 "late" 4]) s1 h2
      {| Method := "GET"; Query := ∅ |} in
  match Content reply with
  | EventsJSON current_timestamp events event_count =>
      current_timestamp = 10 /\ map Timestamp events = [1; 2; 3] /\ event_count = 3%nat
  | _ => False
  end /\
  map Timestamp (log_of s2 h4) = [1; 2; 3; 10].
Proof. vm_compute. repeat split. Qed.

(** ** Parsing the timestamp *)

Lemma digit_value_range c d : digit_value c = Some d -> 0 <= d <= 9.
Proof. unfold digit_value. case_bool_decide; intros [= <-]; lia. Qed.

Lemma ParseUint_loop_nonneg s : forall n un,
  0 <= n -> ParseUint_loop s n = Parsed un -> 0 <= un.
Proof.
  induction s as [|c s IH]; intros n un Hn; simpl.
  - intros [= <-]. exact Hn.
  - destruct (digit_value c) as [d|] eqn:Hd; [|discriminate].
    apply digit_value_range in Hd.
    repeat case_bool_decide; try discriminate. apply IH. lia.
Qed.

Lemma ParseUint_nonneg s un : ParseUint s = Parsed un -> 0 <= un.
Proof.
  destruct s; [discriminate|]. apply (ParseUint_loop_nonneg _ 0). lia.
Qed.

(** What [ParseInt] accepts is an [int64]. *)
Lemma ParseInt_in_range s z : ParseInt s = Parsed z -> in_range z.
Proof.
  unfold ParseInt. destruct s as [|c rest]; [discriminate|].
  destruct (ParseUint _) as [un|[]] eqn:Hu; try discriminate.
  apply ParseUint_nonneg in Hu.
  destruct (bool_decide (c = "-"%char)); simpl;
    repeat case_bool_decide; try discriminate; intros [= <-];
    unfold in_range, min_int64, max_int64; lia.
Qed.

Lemma ParseUint_loop_non_digit s : forall n,
  all_digits s = false -> exists e, ParseUint_loop s n = Failed e.
Proof.
  induction s as [|c s IH]; intros n; simpl; [discriminate|].
  destruct (digit_value c); [|eauto].
  intros Hs. repeat case_bool_decide; eauto.
Qed.

(** [ParseInt] fails on every string that is not numeric. *)
Lemma ParseInt_non_numeric s : numeric s = false -> exists e, ParseInt s = Failed e.
Proof.
  unfold numeric, ParseInt. destruct s as [|c rest]; [eauto|].
  destruct (if bool_decide (c = "+"%char \/ c = "-"%char) then rest else String c rest)
    as [|c' s'] eqn:Hd.
  - intros _. simpl. eauto.
  - intros Hnd. unfold ParseUint.
    destruct (ParseUint_loop_non_digit _ 0 Hnd) as [e ->]. destruct e; eauto.
Qed.

(** ** The message handler *)

(** Requests with another method are turned away before the query is
    read. *)
Lemma handleReceiveMessage_other_method {rt : Runtime} s h r now :
  Method r <> "POST" ->
  handleReceiveMessage s h r now =
    (http_Error "Method not allowed" StatusMethodNotAllowed, s, h).
Proof. intros Hm. unfold handleReceiveMessage. rewrite bool_decide_true; auto. Qed.

(** C8, as the code has it: [handleReceiveMessage] answers a request
    whose method is not [POST] with 405 and leaves the server and the
    heap as they were.  On a [POST] request whose timestamp parameter is
    missing, whose message parameter is missing, or whose timestamp is
    not numeric or not in the [int64] range, it answers 400 and leaves
    the server (clock and log) and the heap as they were; on a [POST]
    request with both parameters and a timestamp that [ParseInt]
    accepts, it answers with the event of [processMessage] on the parsed
    [int64], and the server is the one [processMessage] leaves. *)
Theorem handleReceiveMessage_validates {rt : Runtime} (s : Server) (h : Heap)
    (r : Request) (now : Z) :
  let timestampStr := Values_Get (Query r) "timestamp" in
  let message := Values_Get (Query r) "message" in
  (Method r <> "POST" ->
   handleReceiveMessage s h r now =
     (http_Error "Method not allowed" StatusMethodNotAllowed, s, h)) /\
  (Method r = "POST" ->
   (timestampStr = "" \/ message = "" \/ numeric timestampStr = false \/
    ParseInt timestampStr = Failed ErrRange ->
    exists msg, handleReceiveMessage s h r now = (http_Error msg StatusBadRequest, s, h)) /\
   (forall timestamp,
      timestampStr <> "" -> message <> "" -> ParseInt timestampStr = Parsed timestamp ->
      in_range timestamp /\
      handleReceiveMessage s h r now =
        let '(event, s', h') := processMessage s timestamp message now h in
        (json_reply (EventJSON event), s', h'))).
Proof.
  intros timestampStr message. split.
  { intros Hm. unfold handleReceiveMessage. rewrite bool_decide_true; auto. }
  intros Hm. unfold handleReceiveMessage.
  rewrite bool_decide_false by (intros Hne; apply Hne, Hm).
  fold timestampStr message. split.
  - intros Hbad. case_bool_decide as Hmiss; [eauto|].
    destruct Hbad as [Hbad | [Hbad | [Hbad | Hbad]]].
    + tauto.
    + tauto.
    + apply ParseInt_non_numeric in Hbad as [e ->]. eauto.
    + rewrite Hbad. eauto.
  - intros timestamp Hts Hmsg Hparse. split; [eapply ParseInt_in_range; eauto|].
    rewrite bool_decide_false by tauto. rewrite Hparse. reflexivity.
Qed.

Lemma handleReceiveMessage_validates_witness :
  Method {| Method := "POST";
            Query := {[ "timestamp" := ["invalid"]; "message" := ["test"] ]} |} = "POST" /\
  exists msg,
    @handleReceiveMessage doubling (fst (NewServer ∅)) (snd (NewServer ∅))
      {| Method := "POST";
         Query := {[ "timestamp" := ["invalid"]; "message" := ["test"] ]} |} 99 =
    (http_Error msg StatusBadRequest, fst (NewServer ∅), snd (NewServer ∅)).
Proof.
  split; [reflexivity|].
  apply (proj1 (proj2 (@handleReceiveMessage_validates doubling
    (fst (NewServer ∅)) (snd (NewServer ∅))
    {| Method := "POST";
       Query := {[ "timestamp" := ["invalid"]; "message" := ["test"] ]} |} 99) eq_refl)).
  right. right. left. vm_compute. reflexivity.
Defined.

(** The requests of the handler test: a well-formed message, a missing
    message parameter, a timestamp that is no number. *)
Example handleReceiveMessage_run :
  let '(s0, h0) := NewServer ∅ in
  let '(reply1, s1, h1) :=
    @handleReceiveMessage doubling s0 h0
      {| Method := "POST";
         Query := {[ "timestamp" := ["10"]; "message" := ["external_event"] ]} |} 99 in
  let '(reply2, s2, h2) :=
    @handleReceiveMessage doubling s1 h1
      {| Method := "POST"; Query := {[ "timestamp" := ["5"] ]} |} 100 in
  let '(reply3, s3, h3) :=
    @handleReceiveMessage doubling s2 h2
      {| Method := "POST";
         Query := {[ "timestamp" := ["invalid"]; "message" := ["test"] ]} |} 101 in
  reply1 = json_reply (EventJSON {| ID := "msg-11"; Message := "Processed: external_event";
                                    Timestamp := 11; WallTime := 99 |}) /\
  StatusCode reply2 = StatusBadRequest /\
  StatusCode reply3 = StatusBadRequest /\
  GetTime (clock s3) = 11 /\ map Timestamp (log_of s3 h3) = [11].
Proof. vm_compute. repeat split. Qed.

(** C8 as stated fails on requests that are not [POST]: a [GET] with no
    timestamp parameter is answered 405, not 400 (the server is left as
    it was). *)
Lemma handleReceiveMessage_GET_is_405 :
  Values_Get (Query {| Method := "GET"; Query := {[ "message" := ["hello"] ]} |}) "timestamp" = "" /\
  let '(s0, h0) := NewServer ∅ in
  let '(reply, s, h) :=
    @handleReceiveMessage doubling s0 h0
      {| Method := "GET"; Query := {[ "message" := ["hello"] ]} |} 99 in
  StatusCode reply = StatusMethodNotAllowed /\
  StatusCode reply <> StatusBadRequest /\
  (s, h) = (s0, h0).
Proof. vm_compute. repeat split. discriminate. Qed.

(** ** Goroutines *)

Import Goroutines.

Lemma lock_order_app t1 t2 : lock_order (t1 ++ t2) = lock_order t1 ++ lock_order t2.
Proof.
  induction t1 as [|e t1 IH]; [reflexivity|].
  destruct e; simpl; rewrite IH; reflexivity.
Qed.

Lemma lock_ops_app t1 t2 : lock_ops (t1 ++ t2) = lock_ops t1 ++ lock_ops t2.
Proof. unfold lock_ops. rewrite lock_order_app, map_app. reflexivity. Qed.

Lemma project_snoc g t e :
  project g (t ++ [e]) = project g t ++ (if bool_decide (event_of e = g) then [e] else []).
Proof.
  unfold project. rewrite filter_app. f_equal.
  rewrite filter_cons, filter_nil. case_decide; case_bool_decide; tauto.
Qed.

Lemma values_of_snoc g l vs g' c v :
  length l = length vs ->
  values_of g (l ++ [(g', c)]) (vs ++ [v]) =
  values_of g l vs ++ (if bool_decide (g' = g) then [v] else []).
Proof.
  revert vs. induction l as [|[g1 c1] l IH]; intros [|v1 vs] Hlen; try discriminate.
  - simpl. case_bool_decide; reflexivity.
  - simpl in *. rewrite IH by lia. repeat case_bool_decide; reflexivity.
Qed.

Lemma call_events_snoc g cs vs c v :
  length cs = length vs ->
  call_events g (cs ++ [c]) (vs ++ [v]) =
  call_events g cs vs ++ [EvCall g c; EvLock g c; EvReturn g c v].
Proof.
  revert vs. induction cs as [|c1 cs IH]; intros [|v1 vs] Hlen; try discriminate.
  - reflexivity.
  - simpl in *. rewrite IH by lia. reflexivity.
Qed.

Lemma finish_cons i code st : finish (i :: code) st = finish code (run_instr i st).
Proof. reflexivity. Qed.

(** The instructions after [Lock] do to the counter what the sequential
    function does, and leave its value as the result. *)
Lemma finish_body c ts rg res :
  fst (fst (finish (tail (body c)) (ts, rg, res))) =
    timestamp (snd (apply_op {| timestamp := ts |} (op_of c))) /\
  snd (finish (tail (body c)) (ts, rg, res)) =
    fst (apply_op {| timestamp := ts |} (op_of c)).
Proof.
  destruct c as [|r]; simpl.
  - split; reflexivity.
  - unfold Update. simpl. case_bool_decide; split; reflexivity.
Qed.

(** *** What is left of a body *)

Lemma started_body c : started (body c) = false.
Proof. destruct c; reflexivity. Qed.

Lemma inside_tail_body c : inside c (tail (body c)).
Proof. exists []. split; [reflexivity|]. destruct c; discriminate. Qed.

Ltac split_body :=
  repeat match goal with
         | H : _ :: _ = ?pre ++ _ |- _ => is_var pre; destruct pre; simpl in H; simplify_eq
         | H : [] = ?pre ++ _ |- _ => is_var pre; destruct pre; simpl in H; simplify_eq
         end.

Lemma inside_started c code : inside c code -> started code = true.
Proof.
  intros (pre & Heq & Hne). destruct code as [|[] code]; try reflexivity.
  destruct c; simpl in Heq; split_body.
Qed.

Lemma inside_unlock c code : inside c (IUnlock :: code) -> code = [].
Proof.
  intros (pre & Heq & Hne). destruct c; simpl in Heq; split_body; reflexivity.
Qed.

Lemma inside_next c i code : inside c (i :: code) -> i <> IUnlock -> inside c code.
Proof.
  intros (pre & Heq & Hne) Hi. exists (pre ++ [i]).
  rewrite <- (assoc_L (++)). split; [exact Heq|].
  intros ->. destruct c; simpl in Heq; split_body; congruence.
Qed.


(** *** The steps, case by case *)

Lemma step_cases m g m' :
  step m g = Some m' ->
  exists r, routines m !! g = Some r /\
    ((exists c cs, frame r = None /\ pending r = c :: cs /\
        m' = {| shared := shared m; owner := owner m;
                routines := <[g := {| frame := Some (c, body c); pending := cs;
                                      reg := reg r; result := result r;
                                      returned := returned r |}]> (routines m);
                trace := trace m ++ [EvCall g c] |}) \/
     (exists c, frame r = Some (c, []) /\
        m' = {| shared := shared m; owner := owner m;
                routines := <[g := {| frame := None; pending := pending r;
                                      reg := reg r; result := result r;
                                      returned := returned r ++ [result r] |}]> (routines m);
                trace := trace m ++ [EvReturn g c (result r)] |}) \/
     (exists c code, frame r = Some (c, ILock :: code) /\ owner m = None /\
        m' = {| shared := shared m; owner := Some g;
                routines := <[g := {| frame := Some (c, code); pending := pending r;
                                      reg := reg r; result := result r;
                                      returned := returned r |}]> (routines m);
                trace := trace m ++ [EvLock g c] |}) \/
     (exists c code, frame r = Some (c, IUnlock :: code) /\ owner m = Some g /\
        m' = {| shared := shared m; owner := None;
                routines := <[g := {| frame := Some (c, code); pending := pending r;
                                      reg := reg r; result := result r;
                                      returned := returned r |}]> (routines m);
                trace := trace m |}) \/
     (exists c i code, frame r = Some (c, i :: code) /\ i <> ILock /\ i <> IUnlock /\
        m' = {| shared := fst (fst (run_instr i (shared m, reg r, result r)));
                owner := owner m;
                routines := <[g := {| frame := Some (c, code); pending := pending r;
                                      reg := snd (fst (run_instr i (shared m, reg r, result r)));
                                      result := snd (run_instr i (shared m, reg r, result r));
                                      returned := returned r |}]> (routines m);
                trace := trace m |})).
Proof.
  unfold step. destruct (routines m !! g) as [r|]; [|discriminate].
  intros Hstep. exists r. split; [reflexivity|].
  destruct (frame r) as [[c code]|].
  - destruct code as [|i code].
    + injection Hstep as <-. right. left. eauto.
    + destruct i.
      * destruct (owner m) eqn:Ho; [discriminate|]. injection Hstep as <-.
        right. right. left. eauto 10.
      * case_bool_decide; [|discriminate]. injection Hstep as <-.
        right. right. right. left. eauto 10.
      * injection Hstep as <-. do 4 right. exists c, ILoad, code. split_and!; done.
      * injection Hstep as <-. do 4 right. exists c, (IStoreIfGreater r0), code. split_and!; done.
      * injection Hstep as <-. do 4 right. exists c, IStoreIncr, code. split_and!; done.
      * injection Hstep as <-. do 4 right. exists c, IResult, code. split_and!; done.
  - destruct (pending r) as [|c cs]; [discriminate|]. injection Hstep as <-.
    left. eauto 10.
Qed.

(** *** The invariant is kept by every step *)

Lemma run_clock_snoc lc ops o :
  run_clock lc (ops ++ [o]) =
  (fst (run_clock lc ops) ++ [fst (apply_op (snd (run_clock lc ops)) o)],
   snd (apply_op (snd (run_clock lc ops)) o)).
Proof. rewrite run_clock_app, run_clock_cons. reflexivity. Qed.

Lemma lock_order_length lc t :
  length (lock_order t) = length (fst (run_clock lc (lock_ops t))).
Proof. rewrite run_clock_length. unfold lock_ops. rewrite length_map. reflexivity. Qed.

Lemma clock_eta lc : {| timestamp := timestamp lc |} = lc.
Proof. destruct lc. reflexivity. Qed.

Lemma current_value_outside r ts ts' :
  outside r -> current_value r ts' = current_value r ts.
Proof.
  unfold outside, current_value. destruct (frame r) as [[c code]|]; [|reflexivity].
  intros [-> | ->]; [rewrite started_body|]; reflexivity.
Qed.

(** A goroutine that does not move keeps its part of the invariant,
    provided the counter is as before or the goroutine does not hold the
    mutex. *)
Lemma routine_inv_other progs l vs ts t g r l' vs' ts' t' :
  routine_inv progs l vs ts t g r ->
  project g t' = project g t ->
  values_of g l' vs' = values_of g l vs ->
  ts' = ts \/ outside r ->
  routine_inv progs l' vs' ts' t' g r.
Proof.
  intros (done & Hprog & Hdone & Hproj & Hvals) Ht Hv Hts.
  exists done. rewrite Ht, Hv. split_and!; auto.
  rewrite Hvals. f_equal.
  destruct Hts as [-> | Hout]; [reflexivity|]. symmetry. apply current_value_outside, Hout.
Qed.

Lemma project_snoc_other g g' t e :
  event_of e = g -> g' <> g -> project g' (t ++ [e]) = project g' t.
Proof.
  intros He Hne. rewrite project_snoc, bool_decide_false, app_nil_r by congruence.
  reflexivity.
Qed.

Lemma project_snoc_own g t e :
  event_of e = g -> project g (t ++ [e]) = project g t ++ [e].
Proof. intros He. rewrite project_snoc, bool_decide_true by assumption. reflexivity. Qed.

(** The moving goroutine replaced, the others looked up as before. *)
Lemma lookup_insert_cases (rs : list goroutine) g r' g' r :
  <[g := r']> rs !! g' = Some r ->
  (g' = g /\ r = r') \/ (g' <> g /\ rs !! g' = Some r).
Proof.
  intros Hl. destruct (decide (g' = g)) as [-> | Hne].
  - left. split; [reflexivity|].
    assert (g < length rs)%nat.
    { apply lookup_lt_Some in Hl. rewrite length_insert in Hl. exact Hl. }
    rewrite list_lookup_insert_eq in Hl by assumption. congruence.
  - right. rewrite list_lookup_insert_ne in Hl by congruence. auto.
Qed.

Lemma step_preserves_inv lc0 progs m g m' :
  inv lc0 progs m -> step m g = Some m' -> inv lc0 progs m'.
Proof.
  intros (Hlen & Hmx & Hrt & Hall) Hstep.
  destruct (step_cases _ _ _ Hstep) as (r & Hr & Hcase).
  destruct (Hrt g r Hr) as (done & Hprog & Hdone & Hproj & Hvals).
  pose proof (lock_order_length lc0 (trace m)) as HLV.
  destruct Hcase as [(c & cs & Hf & Hp & ->) | [(c & Hf & ->) | [(c & code & Hf & Ho & ->)
    | [(c & code & Hf & Ho & ->) | (c & i & code & Hf & Hi1 & Hi2 & ->)]]]];
    unfold inv; cbn [routines trace shared owner].
  - (* a call begins *)
    rewrite lock_ops_app, lock_order_app. cbn [lock_ops lock_order map]. rewrite !app_nil_r.
    split_and!; [rewrite length_insert; exact Hlen | | | exact Hall].
    + unfold mutex_inv in *. cbn [routines trace shared owner].
      destruct (owner m) as [g0|].
      * destruct Hmx as [(r0 & c0 & code0 & Hr0 & Hf0 & Hin0 & Hfin0) Hothers].
        assert (g0 <> g) by (intros ->; congruence).
        split.
        -- exists r0, c0, code0. rewrite list_lookup_insert_ne by congruence. auto.
        -- intros g' r' Hne Hl. apply lookup_insert_cases in Hl as [[-> ->] | [Hne' Hl]].
           ++ left. reflexivity.
           ++ eauto.
      * destruct Hmx as [Hsh Hout]. split; [exact Hsh|].
        intros g' r' Hl. apply lookup_insert_cases in Hl as [[-> ->] | [Hne' Hl]].
        -- left. reflexivity.
        -- eauto.
    + intros g' r' Hl. apply lookup_insert_cases in Hl as [[-> ->] | [Hne' Hl]].
      * exists done. unfold current, current_events, current_value in *.
        cbn [frame pending returned reg result]. rewrite Hf, Hp in *.
        rewrite started_body, project_snoc_own, Hproj by reflexivity.
        rewrite !app_nil_r in *. split_and!; auto.
      * eapply routine_inv_other; [apply Hrt, Hl | | reflexivity | left; reflexivity].
        apply project_snoc_other with (g := g); auto.
  - (* a call returns *)
    rewrite lock_ops_app, lock_order_app. cbn [lock_ops lock_order map]. rewrite !app_nil_r.
    split_and!; [rewrite length_insert; exact Hlen | | | exact Hall].
    + unfold mutex_inv in *. cbn [routines trace shared owner].
      destruct (owner m) as [g0|].
      * destruct Hmx as [(r0 & c0 & code0 & Hr0 & Hf0 & Hin0 & Hfin0) Hothers].
        assert (g0 <> g).
        { intros ->. rewrite Hr in Hr0. injection Hr0 as <-.
          rewrite Hf in Hf0. injection Hf0 as <- <-.
          destruct Hin0 as (pre & _ & Hne). congruence. }
        split.
        -- exists r0, c0, code0. rewrite list_lookup_insert_ne by congruence. auto.
        -- intros g' r' Hne Hl. apply lookup_insert_cases in Hl as [[-> ->] | [Hne' Hl]].
           ++ exact I.
           ++ eauto.
      * destruct Hmx as [Hsh Hout]. split; [exact Hsh|].
        intros g' r' Hl. apply lookup_insert_cases in Hl as [[-> ->] | [Hne' Hl]].
        -- exact I.
        -- eauto.
    + intros g' r' Hl. apply lookup_insert_cases in Hl as [[-> ->] | [Hne' Hl]].
      * exists (done ++ [c]). unfold current, current_events, current_value in *.
        cbn [frame pending returned reg result]. rewrite Hf in *.
        cbn [started finish foldl snd] in *.
        rewrite project_snoc_own, Hproj, call_events_snoc, !length_app by auto.
        rewrite <- !(assoc_L (++)), !app_nil_r. cbn [length app].
        split_and!; auto; lia.
      * eapply routine_inv_other; [apply Hrt, Hl | | reflexivity | left; reflexivity].
        apply project_snoc_other with (g := g); auto.
  - (* the mutex is taken *)
    assert (Hg : (g < length (routines m))%nat) by (eapply lookup_lt_Some; eauto).
    unfold mutex_inv in Hmx. rewrite Ho in Hmx. destruct Hmx as [Hsh Hout].
    assert (Hbody : tail (body c) = code).
    { pose proof (Hout g r Hr) as Hor. unfold outside in Hor. rewrite Hf in Hor.
      destruct Hor as [Hb | Hb]; [rewrite <- Hb; reflexivity | discriminate]. }
    pose proof (inside_tail_body c) as Hin. rewrite Hbody in Hin.
    destruct (finish_body c (shared m) (reg r) (result r)) as [Hfin1 Hfin2].
    rewrite Hbody, Hsh, clock_eta in Hfin1, Hfin2.
    rewrite lock_ops_app, lock_order_app.
    change (lock_ops [EvLock g c]) with [op_of c].
    change (lock_order [EvLock g c]) with [(g, c)].
    rewrite run_clock_snoc. cbn [fst snd].
    split_and!; [rewrite length_insert; exact Hlen | | | ].
    + unfold mutex_inv. cbn [routines trace shared owner]. split.
      * eexists _, c, code. rewrite list_lookup_insert_eq by exact Hg.
        split_and!; [reflexivity | reflexivity | exact Hin | ].
        cbn [reg result]. rewrite Hsh. exact Hfin1.
      * intros g' r' Hne Hl. apply lookup_insert_cases in Hl as [[-> ->] | [Hne' Hl]].
        -- congruence.
        -- eauto.
    + intros g' r' Hl. apply lookup_insert_cases in Hl as [[-> ->] | [Hne' Hl]].
      * exists done. unfold current, current_events, current_value in *.
        cbn [frame pending returned reg result]. rewrite Hf in *.
        rewrite (inside_started _ _ Hin). cbn [started] in *.
        rewrite project_snoc_own, Hproj by reflexivity.
        rewrite values_of_snoc, bool_decide_true, Hvals by auto.
        rewrite app_nil_r, <- !(assoc_L (++)).
        rewrite Hsh, Hfin2. split_and!; auto.
      * eapply routine_inv_other; [apply Hrt, Hl | | | left; reflexivity].
        -- apply project_snoc_other with (g := g); auto.
        -- rewrite values_of_snoc, bool_decide_false, app_nil_r by auto. reflexivity.
    + apply Forall_app. split; [exact Hall|]. constructor; [|constructor].
      eexists. split; [exact Hprog|]. unfold current. rewrite Hf. set_solver.
  - (* the mutex is released *)
    unfold mutex_inv in Hmx. rewrite Ho in Hmx.
    destruct Hmx as [(r0 & c0 & code0 & Hr0 & Hf0 & Hin0 & Hfin0) Hothers].
    rewrite Hr in Hr0. injection Hr0 as <-. rewrite Hf in Hf0. injection Hf0 as <- <-.
    pose proof (inside_unlock _ _ Hin0) as ->.
    cbn [finish foldl run_instr fst snd] in Hfin0.
    split_and!; [rewrite length_insert; exact Hlen | | | exact Hall].
    + unfold mutex_inv. cbn [routines trace shared owner]. split; [exact Hfin0|].
      intros g' r' Hl. apply lookup_insert_cases in Hl as [[-> ->] | [Hne' Hl]].
      * right. reflexivity.
      * eauto.
    + intros g' r' Hl. apply lookup_insert_cases in Hl as [[-> ->] | [Hne' Hl]].
      * exists done. unfold current, current_events, current_value in *.
        cbn [frame pending returned reg result]. rewrite Hf in *.
        cbn [started finish foldl run_instr snd] in *. split_and!; auto.
      * eapply routine_inv_other; [apply Hrt, Hl | reflexivity | reflexivity | left; reflexivity].
  - (* a load or a store *)
    assert (Hout : outside r -> False).
    { unfold outside. rewrite Hf. intros [Hb | Hb]; [|discriminate].
      destruct c; simpl in Hb; injection Hb as Hb1 Hb2; apply Hi1, Hb1. }
    unfold mutex_inv in Hmx. destruct (owner m) as [g0|] eqn:Ho;
      [|destruct Hmx as [_ Hall_out]; exfalso; eauto].
    destruct Hmx as [(r0 & c0 & code0 & Hr0 & Hf0 & Hin0 & Hfin0) Hothers].
    destruct (decide (g0 = g)) as [-> | Hne]; [|exfalso; eauto].
    rewrite Hr in Hr0. injection Hr0 as <-. rewrite Hf in Hf0. injection Hf0 as <- <-.
    pose proof (inside_next _ _ _ Hin0 Hi2) as Hin.
    assert (Hg : (g < length (routines m))%nat) by (eapply lookup_lt_Some; eauto).
    rewrite finish_cons in Hfin0.
    assert (Hst : started (i :: code) = true) by (destruct i; try reflexivity; congruence).
    split_and!; [rewrite length_insert; exact Hlen | | | exact Hall].
    + unfold mutex_inv. cbn [routines trace shared owner]. split.
      * eexists _, c, code. rewrite list_lookup_insert_eq by exact Hg.
        split_and!; [reflexivity | reflexivity | exact Hin | ].
        cbn [reg result]. rewrite <- !surjective_pairing. exact Hfin0.
      * intros g' r' Hne Hl. apply lookup_insert_cases in Hl as [[-> ->] | [Hne' Hl]].
        -- congruence.
        -- eauto.
    + intros g' r' Hl. apply lookup_insert_cases in Hl as [[-> ->] | [Hne' Hl]].
      * exists done. unfold current, current_events, current_value in *.
        cbn [frame pending returned reg result]. rewrite Hf in *.
        rewrite Hst in *. rewrite (inside_started _ _ Hin).
        rewrite <- !surjective_pairing. rewrite finish_cons in Hvals.
        split_and!; auto.
      * eapply routine_inv_other; [apply Hrt, Hl | reflexivity | reflexivity | right; eauto].
Qed.

Lemma inv_spawn lc0 progs : inv lc0 progs (spawn lc0 progs).
Proof.
  unfold inv, spawn, mutex_inv. cbn [routines trace shared owner lock_ops lock_order map run_clock fst snd].
  split_and!.
  - apply length_map.
  - reflexivity.
  - intros g r Hl. rewrite list_lookup_fmap in Hl.
    destruct (progs !! g); [|discriminate]. injection Hl as <-. exact I.
  - intros g r Hl. rewrite list_lookup_fmap in Hl.
    destruct (progs !! g) as [p|] eqn:Hp; [|discriminate]. injection Hl as <-.
    exists []. rewrite Hp. split_and!; reflexivity.
  - constructor.
Qed.

Lemma exec_preserves_inv lc0 progs sched : forall m m',
  inv lc0 progs m -> exec m sched = Some m' -> inv lc0 progs m'.
Proof.
  induction sched as [|g sched IH]; intros m m' Hinv; simpl.
  - intros [= <-]. exact Hinv.
  - destruct (step m g) as [m1|] eqn:Hstep; [|discriminate].
    apply IH. eapply step_preserves_inv; eauto.
Qed.

(** Every machine reached from [spawn] satisfies the invariant. *)
Lemma reachable_inv lc0 progs sched m :
  exec (spawn lc0 progs) sched = Some m -> inv lc0 progs m.
Proof. apply exec_preserves_inv, inv_spawn. Qed.

(** *** Finished machines *)

Lemma inv_finished lc0 progs m :
  inv lc0 progs m -> finished m ->
  owner m = None /\
  shared m = timestamp (snd (run_clock lc0 (lock_ops (trace m)))) /\
  forall g prog, progs !! g = Some prog ->
    exists r, routines m !! g = Some r /\
      project g (trace m) = call_events g prog (returned r) /\
      length (returned r) = length prog /\
      returned r = values_of g (lock_order (trace m)) (fst (run_clock lc0 (lock_ops (trace m)))).
Proof.
  intros (Hlen & Hmx & Hrt & Hall) Hfin. unfold finished in Hfin.
  rewrite Forall_lookup in Hfin.
  assert (Ho : owner m = None).
  { unfold mutex_inv in Hmx. destruct (owner m) as [g0|]; [|reflexivity].
    destruct Hmx as [(r0 & c0 & code0 & Hr0 & Hf0 & _) _].
    destruct (Hfin _ _ Hr0) as [Hidle _]. congruence. }
  unfold mutex_inv in Hmx. rewrite Ho in Hmx. destruct Hmx as [Hsh _].
  split_and!; [exact Ho | exact Hsh |].
  intros g prog Hp.
  destruct (lookup_lt_is_Some_2 (routines m) g) as [r Hr].
  { rewrite Hlen. eapply lookup_lt_Some; eauto. }
  exists r. split; [exact Hr|].
  destruct (Hrt g r Hr) as (done & Hprog & Hdone & Hproj & Hvals).
  destruct (Hfin _ _ Hr) as [Hidle Hpend].
  unfold current, current_events, current_value in *. rewrite Hidle, Hpend in *.
  rewrite !app_nil_r in *. rewrite Hp in Hprog. injection Hprog as ->.
  split_and!; auto.
Qed.

(** *** The returned values are those of the sequential run *)

Lemma concat_insert_head (f f' : nat -> list Z) (g0 : nat) (v0 : Z) (gs : list nat) :
  NoDup gs -> g0 ∈ gs ->
  (forall g, f g = if bool_decide (g0 = g) then v0 :: f' g else f' g) ->
  concat (map f gs) ≡ₚ v0 :: concat (map f' gs).
Proof.
  intros Hnd Hin Hf. induction gs as [|g gs IH]; [set_solver|].
  apply NoDup_cons in Hnd as [Hg Hnd]. simpl. rewrite (Hf g).
  case_bool_decide as Heq.
  - subst g. simpl.
    assert (Hsame : map f gs = map f' gs); [|rewrite Hsame; reflexivity].
    apply map_ext_in. intros g Hg'. rewrite Hf.
    rewrite bool_decide_false; [reflexivity|].
    intros ->. apply Hg. apply list_elem_of_In. exact Hg'.
  - rewrite IH; [symmetry; apply Permutation_middle | exact Hnd |].
    apply elem_of_cons in Hin as [Hin | Hin]; [contradiction | exact Hin].
Qed.


Lemma concat_map_nil {A} (gs : list nat) : concat (map (fun _ => @nil A) gs) = [].
Proof. induction gs; simpl; auto. Qed.

(** The values of a sequential run, shared out among the goroutines
    that made the calls. *)
Lemma values_of_partition n l : forall vs,
  length l = length vs ->
  Forall (fun p => (fst p < n)%nat) l ->
  concat (map (fun g => values_of g l vs) (seq 0 n)) ≡ₚ vs.
Proof.
  induction l as [|[g0 c0] l IH]; intros vs Hlen Hall.
  - destruct vs; [|discriminate]. simpl. rewrite concat_map_nil. reflexivity.
  - destruct vs as [|v0 vs]; [discriminate|].
    apply Forall_cons in Hall as [Hg0 Hall]. simpl in Hg0, Hlen.
    rewrite (concat_insert_head _ (fun g => values_of g l vs) g0 v0).
    + rewrite IH by (auto; lia). reflexivity.
    + apply NoDup_seq.
    + apply elem_of_seq. lia.
    + intros g. reflexivity.
Qed.

Lemma map_by_index {A B} (f : A -> B) (h : nat -> B) (rs : list A) :
  (forall g r, rs !! g = Some r -> f r = h g) ->
  map f rs = map h (seq 0 (length rs)).
Proof.
  induction rs as [|r rs IH] using rev_ind; intros Hf; [reflexivity|].
  rewrite length_app, Nat.add_1_r, seq_S, !map_app. simpl. f_equal.
  - apply IH. intros g r' Hl. apply Hf. rewrite lookup_app_l; [exact Hl|].
    eapply lookup_lt_Some; eauto.
  - f_equal. apply Hf. rewrite lookup_app_r, Nat.sub_diag by lia. reflexivity.
Qed.

Lemma finished_returned_permutation lc0 progs m :
  inv lc0 progs m -> finished m ->
  concat (map returned (routines m)) ≡ₚ fst (run_clock lc0 (lock_ops (trace m))).
Proof.
  intros Hinv Hfin.
  destruct (inv_finished _ _ _ Hinv Hfin) as (_ & _ & Hper).
  destruct Hinv as (Hlen & _ & _ & Hall).
  rewrite (map_by_index returned
    (fun g => values_of g (lock_order (trace m)) (fst (run_clock lc0 (lock_ops (trace m)))))).
  - apply values_of_partition; [apply lock_order_length|].
    eapply Forall_impl; [exact Hall|]. intros [g c] (prog & Hp & _). simpl in *.
    rewrite Hlen. eapply lookup_lt_Some; eauto.
  - intros g r Hr.
    destruct (lookup_lt_is_Some_2 progs g) as [prog Hp].
    { rewrite <- Hlen. eapply lookup_lt_Some; eauto. }
    destruct (Hper g prog Hp) as (r' & Hr' & _ & _ & Hv). congruence.
Qed.

Lemma increasing_from_NoDup lo l : increasing_from lo l -> NoDup l.
Proof.
  revert lo. induction l as [|x l IH]; intros lo Hinc; [constructor|].
  destruct Hinc as [_ Hinc]. constructor; [|eapply IH; eauto].
  intros Hx. apply list_elem_of_lookup in Hx as [i Hi].
  pose proof (increasing_from_lookup _ _ _ _ Hinc Hi). lia.
Qed.

(** *** Goroutines that only tick *)

Lemma run_ticks n : forall lc,
  clock_ok lc -> timestamp lc + Z.of_nat n <= max_int64 ->
  run_clock lc (replicate n OpTick) =
  (map (fun i => timestamp lc + Z.of_nat i) (seq 1 n),
   {| timestamp := timestamp lc + Z.of_nat n |}).
Proof.
  induction n as [|n IH]; intros lc Hlc Hle.
  - simpl. rewrite Z.add_0_r, clock_eta. reflexivity.
  - cbn [replicate]. rewrite run_clock_cons. cbn [apply_op Tick fst snd timestamp].
    assert (Hinc : incr (timestamp lc) = timestamp lc + 1).
    { apply incr_below_max; [exact Hlc | lia]. }
    rewrite Hinc, IH; cbn [timestamp].
    + cbn [seq map fst snd]. f_equal; [|f_equal; lia].
      f_equal. rewrite <- (fmap_S_seq 1), <- list_fmap_compose.
      apply list_fmap_ext. intros _ i _. simpl. lia.
    + unfold clock_ok, in_range in *. cbn [timestamp]. lia.
    + lia.
Qed.

Lemma concat_length_uniform {A} (k : nat) (ls : list (list A)) :
  Forall (fun l => length l = k) ls -> length (concat ls) = (length ls * k)%nat.
Proof.
  induction 1 as [|l ls Hl _ IH]; [reflexivity|].
  simpl. rewrite length_app, IH, Hl. reflexivity.
Qed.

Lemma ticks_only_ops progs m K :
  Forall (fun prog => prog = replicate K CallTick) progs ->
  Forall (fun p => exists prog, progs !! fst p = Some prog /\ snd p ∈ prog)
    (lock_order (trace m)) ->
  lock_ops (trace m) = replicate (length (lock_order (trace m))) OpTick.
Proof.
  intros Hprogs Hall. unfold lock_ops.
  induction Hall as [|[g c] l (prog & Hp & Hc) _ IH]; [reflexivity|].
  simpl in *. rewrite IH. f_equal.
  rewrite Forall_lookup in Hprogs. rewrite (Hprogs _ _ Hp) in Hc.
  apply elem_of_replicate in Hc as [-> _]. reflexivity.
Qed.

(** *** No goroutine waits for ever *)

Lemma idle_dec r : {idle r} + {~ idle r}.
Proof.
  unfold idle. destruct (frame r); [right; intros [? _]; discriminate|].
  destruct (pending r); [left; auto | right; intros [_ ?]; discriminate].
Defined.

(** Deadlock freedom: a reachable machine has finished or one of its
    goroutines can step. *)
Lemma inv_progress lc0 progs m :
  inv lc0 progs m -> finished m \/ exists g m', step m g = Some m'.
Proof.
  intros (_ & Hmx & _ & _). unfold mutex_inv in Hmx.
  destruct (owner m) as [g0|] eqn:Ho.
  - right. destruct Hmx as [(r0 & c0 & code0 & Hr0 & Hf0 & Hin0 & _) _].
    pose proof (inside_started _ _ Hin0) as Hst.
    destruct Hin0 as (_ & _ & Hne).
    exists g0. unfold step. rewrite Hr0, Hf0.
    destruct code0 as [|i code0]; [congruence|].
    destruct i; try discriminate Hst; try (eexists; reflexivity).
    rewrite Ho, bool_decide_true by reflexivity. eexists; reflexivity.
  - destruct Hmx as [_ Hout].
    destruct (Forall_Exists_dec idle (fun r => ~ idle r) idle_dec (routines m)) as [Hall | Hex];
      [left; exact Hall | right].
    apply Exists_exists in Hex as (r & Hin & Hbusy).
    apply list_elem_of_lookup in Hin as [g Hr].
    exists g. unfold step. rewrite Hr.
    pose proof (Hout g r Hr) as Hor. unfold outside in Hor. unfold idle in Hbusy.
    destruct (frame r) as [[c code]|].
    + destruct Hor as [-> | ->]; [|eexists; reflexivity].
      destruct c; simpl; rewrite Ho; eexists; reflexivity.
    + destruct (pending r); [tauto | eexists; reflexivity].
Qed.

Lemma sum_list_insert (f : goroutine -> nat) rs g r r' :
  rs !! g = Some r -> f r = S (f r') ->
  sum_list (map f rs) = S (sum_list (map f (<[g := r']> rs))).
Proof.
  revert g. induction rs as [|r0 rs IH]; intros g Hl Hf; [discriminate|].
  destruct g as [|g]; simpl in *.
  - injection Hl as ->. lia.
  - rewrite (IH g Hl Hf). lia.
Qed.

(** Every step uses up one of the steps left. *)
Lemma step_decreases m g m' :
  step m g = Some m' -> steps_left_all m = S (steps_left_all m').
Proof.
  intros Hstep. destruct (step_cases _ _ _ Hstep) as (r & Hr & Hcase).
  unfold steps_left_all.
  destruct Hcase as [(c & cs & Hf & Hp & ->) | [(c & Hf & ->) | [(c & code & Hf & Ho & ->)
    | [(c & code & Hf & Ho & ->) | (c & i & code & Hf & Hi1 & Hi2 & ->)]]]];
    cbn [routines]; apply (sum_list_insert _ _ _ r); try exact Hr;
    unfold steps_left; cbn [frame pending]; rewrite Hf; try rewrite Hp; simpl; lia.
Qed.

Lemma exec_steps_left sched : forall m m',
  exec m sched = Some m' -> steps_left_all m = (length sched + steps_left_all m')%nat.
Proof.
  induction sched as [|g sched IH]; intros m m'; simpl.
  - intros [= <-]. reflexivity.
  - destruct (step m g) as [m1|] eqn:Hstep; [|discriminate].
    intros Hexec. rewrite (step_decreases _ _ _ Hstep), (IH _ _ Hexec). reflexivity.
Qed.

(** From every reachable machine some schedule runs all goroutines to
    the end. *)
Lemma inv_can_finish lc0 progs n : forall m,
  inv lc0 progs m -> steps_left_all m = n ->
  exists sched m', exec m sched = Some m' /\ finished m'.
Proof.
  induction n as [|n IH]; intros m Hinv Hn.
  - destruct (inv_progress _ _ _ Hinv) as [Hfin | (g & m' & Hstep)].
    + exists [], m. split; [reflexivity | exact Hfin].
    + apply step_decreases in Hstep. lia.
  - destruct (inv_progress _ _ _ Hinv) as [Hfin | (g & m1 & Hstep)].
    + exists [], m. split; [reflexivity | exact Hfin].
    + destruct (IH m1) as (sched & m' & Hexec & Hfin).
      * eapply step_preserves_inv; eauto.
      * apply step_decreases in Hstep. lia.
      * exists (g :: sched), m'. simpl. rewrite Hstep. auto.
Qed.

Lemma steps_left_spawn lc0 progs : steps_left_all (spawn lc0 progs) = program_steps progs.
Proof.
  unfold steps_left_all, program_steps, spawn. cbn [routines].
  rewrite map_map. reflexivity.
Qed.

(** C10, as the code has it.  Goroutines call [Tick] and [Update] on one
    clock that starts at 0, under any scheduler.  No goroutine waits for
    the mutex for ever and every call returns: whatever the scheduler
    has done so far, all goroutines have finished or one of them can
    take a step, no run has more steps than the programs have
    instructions, and the run can be brought to the end.  Every run that
    the scheduler has brought to the end is linearizable: the counter
    and the value returned by each call are those of the sequential
    functions run in the order in which the calls took the mutex, every
    call takes the mutex between its beginning and its return, and every
    goroutine makes its calls in program order, each call returning one
    value.  The returned values are pairwise distinct whenever no
    increment of that sequential run starts from [max_int64]; in
    particular [N] goroutines of [K] ticks each, with
    [N * K <= max_int64], get the values 1 to [N * K], each once, and
    leave the counter at [N * K]. *)
Theorem ticks_and_merges_linearizable (progs : list (list call)) :
  (forall sched m, exec (spawn NewLamportClock progs) sched = Some m ->
     (finished m \/ exists g m', step m g = Some m') /\
     (length sched <= program_steps progs)%nat /\
     exists sched' m', exec m sched' = Some m' /\ finished m') /\
  (forall sched m, exec (spawn NewLamportClock progs) sched = Some m -> finished m ->
     let ops := lock_ops (trace m) in
     let vals := fst (run_clock NewLamportClock ops) in
     shared m = timestamp (snd (run_clock NewLamportClock ops)) /\
     (forall g prog, progs !! g = Some prog ->
        exists r, routines m !! g = Some r /\
          project g (trace m) = call_events g prog (returned r) /\
          length (returned r) = length prog /\
          returned r = values_of g (lock_order (trace m)) vals) /\
     concat (map returned (routines m)) ≡ₚ vals /\
     (Forall op_ok ops -> no_wrap NewLamportClock ops ->
        NoDup (concat (map returned (routines m)))) /\
     (forall N K, progs = replicate N (replicate K CallTick) ->
        Z.of_nat (N * K) <= max_int64 ->
        concat (map returned (routines m)) ≡ₚ map Z.of_nat (seq 1 (N * K)) /\
        NoDup (concat (map returned (routines m))) /\
        shared m = Z.of_nat (N * K))).
Proof.
  split.
  { intros sched m Hexec.
    pose proof (reachable_inv _ _ _ _ Hexec) as Hinv. split_and!.
    - eapply inv_progress; eauto.
    - pose proof (exec_steps_left _ _ _ Hexec) as Hsteps.
      rewrite steps_left_spawn in Hsteps. lia.
    - eapply inv_can_finish; [exact Hinv | reflexivity]. }
  intros sched m Hexec Hfin ops vals.
  pose proof (reachable_inv _ _ _ _ Hexec) as Hinv.
  destruct (inv_finished _ _ _ Hinv Hfin) as (Ho & Hsh & Hper).
  pose proof (finished_returned_permutation _ _ _ Hinv Hfin) as Hperm.
  fold ops in Hsh, Hper, Hperm. fold vals in Hper, Hperm.
  split_and!; try assumption.
  - intros Hops Hnw. rewrite Hperm.
    apply (increasing_from_NoDup 0).
    apply (run_clock_increasing NewLamportClock); auto using NewLamportClock_ok.
  - intros N K -> HNK.
    destruct Hinv as (Hlen & _ & _ & Hall).
    assert (Hops : ops = replicate (length (lock_order (trace m))) OpTick).
    { apply (ticks_only_ops (replicate N (replicate K CallTick)) _ K); [|exact Hall].
      apply Forall_replicate. reflexivity. }
    assert (Hcount : length (lock_order (trace m)) = (N * K)%nat).
    { rewrite (lock_order_length NewLamportClock). fold ops vals.
      rewrite <- Hperm. rewrite (concat_length_uniform K).
      - rewrite length_map, Hlen, length_replicate. reflexivity.
      - apply Forall_fmap, Forall_lookup. intros g r Hr. simpl.
        destruct (lookup_lt_is_Some_2 (replicate N (replicate K CallTick)) g) as [prog Hp].
        { rewrite <- Hlen. eapply lookup_lt_Some; eauto. }
        destruct (Hper g prog Hp) as (r' & Hr' & _ & Hl & _).
        apply lookup_replicate in Hp as [-> _]. rewrite length_replicate in Hl. congruence. }
    rewrite Hcount in Hops.
    pose proof (run_ticks (N * K) NewLamportClock NewLamportClock_ok) as Hrun.
    cbn [timestamp NewLamportClock] in Hrun. rewrite Z.add_0_l in Hrun.
    specialize (Hrun HNK). rewrite <- Hops in Hrun.
    assert (Hvals : vals = map Z.of_nat (seq 1 (N * K))).
    { unfold vals. rewrite Hrun. reflexivity. }
    split_and!.
    + rewrite Hperm, Hvals. reflexivity.
    + rewrite Hperm, Hvals. apply NoDup_fmap; [apply _ | apply NoDup_seq].
    + rewrite Hsh, Hrun. reflexivity.
Qed.

Lemma ticks_and_merges_linearizable_witness :
  exists m,
    exec (spawn NewLamportClock [[CallTick; CallTick]; [CallTick; CallTick]])
      [0; 1; 1; 1; 1; 1; 1; 0; 1; 1; 0; 0; 0; 0;
       1; 0; 0; 1; 1; 1; 1; 1; 0; 0; 0; 0; 0; 0]%nat = Some m /\
    finished m /\
    map returned (routines m) = [[2; 4]; [1; 3]] /\
    NoDup (concat (map returned (routines m))) /\
    shared m = Z.of_nat (2 * 2).
Proof.
  eexists. split; [vm_compute; reflexivity|].
  match goal with
  | |- finished ?M /\ _ =>
      assert (Hexec : exec (spawn NewLamportClock [[CallTick; CallTick]; [CallTick; CallTick]])
                [0; 1; 1; 1; 1; 1; 1; 0; 1; 1; 0; 0; 0; 0;
                 1; 0; 0; 1; 1; 1; 1; 1; 0; 0; 0; 0; 0; 0]%nat = Some M)
        by (vm_compute; reflexivity);
      assert (Hfin : finished M) by (repeat constructor)
  end.
  split; [exact Hfin|]. split; [reflexivity|].
  destruct (proj2 (ticks_and_merges_linearizable _) _ _ Hexec Hfin) as (_ & _ & _ & _ & Hnk).
  destruct (Hnk 2%nat 2%nat eq_refl ltac:(vm_compute; discriminate)) as (_ & Hnd & Hsh).
  split; [exact Hnd | exact Hsh].
Defined.

(** C10 as stated fails for merges at the top of the range: two
    goroutines that each call [Update(max_int64)] both get [min_int64]
    back, under the mutex and in a run brought to the end. *)
Lemma merges_return_same_value_at_max :
  exists m,
    exec (spawn NewLamportClock [[CallUpdate max_int64]; [CallUpdate max_int64]])
      [0; 1; 0; 0; 0; 0; 0; 0; 0; 1; 0; 1; 1; 1; 1; 1; 1; 1]%nat = Some m /\
    finished m /\
    map returned (routines m) = [[min_int64]; [min_int64]] /\
    ~ NoDup (concat (map returned (routines m))).
Proof.
  eexists. split; [vm_compute; reflexivity|].
  split; [repeat constructor|]. split; [reflexivity|].
  simpl. intros Hnd. apply NoDup_cons in Hnd as [Hnotin _].
  apply Hnotin. left.
Qed.

(** The same loads and stores with the mutex operations taken out: two
    goroutines interleave and both return 1, and one increment is lost.
    The mutex is what makes the calls atomic. *)
Example unlocked_increments_collide :
  exists m,
    exec {| shared := 0; owner := None;
            routines :=
              [ {| frame := Some (CallTick, [ILoad; IStoreIncr; IResult]); pending := [];
                   reg := 0; result := 0; returned := [] |};
                {| frame := Some (CallTick, [ILoad; IStoreIncr; IResult]); pending := [];
                   reg := 0; result := 0; returned := [] |} ];
            trace := [] |}
      [0; 1; 0; 1; 0; 1; 0; 1]%nat = Some m /\
    finished m /\
    map returned (routines m) = [[1]; [1]] /\
    shared m = 1.
Proof.
  eexists. split; [vm_compute; reflexivity|].
  split; [repeat constructor|]. split; reflexivity.
Qed.

(** ** Goroutines calling the server *)

(** The two halves of a call, run without another goroutine in between,
    are the call. *)
Lemma recorder_call_is_two_steps {rt : Runtime} (y y1 y2 : Recorder.system) g o rest :
  Recorder.workers y !! g = Some {| Recorder.stamped := None; Recorder.todo := o :: rest |} ->
  Recorder.step y g = Some y1 -> Recorder.step y1 g = Some y2 ->
  (Recorder.srv y2, Recorder.heap y2) =
    (snd (fst (apply_server_op (Recorder.srv y) (Recorder.heap y) o)),
     snd (apply_server_op (Recorder.srv y) (Recorder.heap y) o)) /\
  Recorder.workers y2 !! g = Some {| Recorder.stamped := None; Recorder.todo := rest |}.
Proof.
  intros Hw. unfold Recorder.step at 1. rewrite Hw. cbn [Recorder.stamped Recorder.todo].
  destruct (Recorder.stamp (clock (Recorder.srv y)) o) as [e lc] eqn:Hst.
  intros [= <-]. unfold Recorder.step. cbn [Recorder.workers Recorder.srv Recorder.heap].
  assert (Hg : (g < length (Recorder.workers y))%nat) by (eapply lookup_lt_Some; eauto).
  rewrite list_lookup_insert_eq by exact Hg. cbn [Recorder.stamped Recorder.todo clock events].
  destruct (append_slice (events (Recorder.srv y)) e (Recorder.heap y)) as [evs h] eqn:Happ.
  intros [= <-]. cbn [Recorder.workers Recorder.srv Recorder.heap].
  rewrite list_insert_insert_eq, list_lookup_insert_eq by exact Hg.
  split; [|reflexivity].
  destruct o as [id message now | r message now];
    cbn [apply_server_op Recorder.stamp] in *; unfold logEvent, processMessage.
  - destruct (Tick (clock (Recorder.srv y))) as [v clk]. injection Hst as <- <-.
    rewrite Happ. reflexivity.
  - destruct (Update (clock (Recorder.srv y)) r) as [v clk]. injection Hst as <- <-.
    rewrite Happ. reflexivity.
Qed.

(** Two goroutines that each log one event: the first ticks, the second
    ticks and appends, then the first appends.  The log holds the
    logical times 2, 1 in append order. *)
Example concurrent_appends_out_of_order :
  exists y,
    @Recorder.exec doubling
      (Recorder.start ∅ [[CallLogEvent "a" "first" 1]; [CallLogEvent "b" "second" 2]])
      [0; 1; 1; 0]%nat = Some y /\
    map Timestamp (log_of (Recorder.srv y) (Recorder.heap y)) = [2; 1] /\
    GetTime (clock (Recorder.srv y)) = 2.
Proof. eexists. split; [vm_compute; reflexivity|]. split; reflexivity. Qed.

(** ** The order of the log *)

Lemma stamp_clock lc o :
  Timestamp (fst (Recorder.stamp lc o)) = fst (apply_op lc (clock_op_of o)) /\
  snd (Recorder.stamp lc o) = snd (apply_op lc (clock_op_of o)).
Proof.
  destruct o as [id message now | r message now]; cbn [Recorder.stamp clock_op_of apply_op].
  - destruct (Tick lc). split; reflexivity.
  - destruct (Update lc r). split; reflexivity.
Qed.

(** The held times when one goroutine's record is replaced. *)
Lemma held_times_insert ws : forall g w w',
  ws !! g = Some w ->
  held_times (<[g := w']> ws) ++ option_list (option_map Timestamp (Recorder.stamped w))
  ≡ₚ held_times ws ++ option_list (option_map Timestamp (Recorder.stamped w')).
Proof.
  unfold held_times.
  induction ws as [|w0 ws IH]; intros g w w' Hl; [discriminate|].
  destruct g as [|g]; simpl in *.
  - injection Hl as ->.
    destruct (Recorder.stamped w) as [e|], (Recorder.stamped w') as [e'|]; simpl;
      rewrite ?app_nil_r; try reflexivity.
    + rewrite <- !Permutation_cons_append. apply perm_swap.
    + symmetry. apply Permutation_cons_append.
    + apply Permutation_cons_append.
  - specialize (IH g w w' Hl).
    destruct (Recorder.stamped w0) as [e0|]; simpl; [|exact IH].
    rewrite IH. reflexivity.
Qed.

Lemma calls_left_insert ws : forall g w w',
  ws !! g = Some w ->
  (calls_left (<[g := w']> ws) + length (Recorder.todo w) =
   calls_left ws + length (Recorder.todo w'))%nat.
Proof.
  unfold calls_left.
  induction ws as [|w0 ws IH]; intros g w w' Hl; [discriminate|].
  destruct g as [|g]; simpl in *.
  - injection Hl as ->. lia.
  - specialize (IH g w w' Hl). lia.
Qed.

Lemma recorder_step_inv {rt : Runtime} B total y g y' :
  recorder_inv B total y -> Recorder.step y g = Some y' -> recorder_inv B total y'.
Proof.
  intros (Hok & Hnd & Hall & Hnn & Hbound & Hcount & Htodo).
  unfold Recorder.step. destruct (Recorder.workers y !! g) as [w|] eqn:Hw; [|discriminate].
  pose proof (Forall_lookup_1 _ _ _ _ Htodo Hw) as Hwtodo. cbv beta in Hwtodo.
  destruct (Recorder.stamped w) as [e|] eqn:Hst.
  - (* the event is appended *)
    destruct (append_slice _ e (Recorder.heap y)) as [evs h1] eqn:Happ.
    intros [= <-]. destruct Hok as [Hc Hs].
    destruct (append_slice_spec _ _ _ _ _ Hs Happ) as [Hs' Hel].
    pose proof (held_times_insert _ g w {| Recorder.stamped := None; Recorder.todo := Recorder.todo w |} Hw)
      as Hheld.
    pose proof (calls_left_insert _ g w {| Recorder.stamped := None; Recorder.todo := Recorder.todo w |} Hw)
      as Hcalls.
    rewrite Hst in Hheld. cbn [Recorder.stamped Recorder.todo option_map option_list] in Hheld, Hcalls.
    rewrite app_nil_r in Hheld.
    unfold recorder_inv, server_ok, log_of in *.
    cbn [Recorder.srv Recorder.heap Recorder.workers clock events].
    rewrite Hel, map_app. cbn [map].
    assert (Hperm : (map Timestamp (slice_elems (Recorder.heap y) (events (Recorder.srv y)))
                     ++ [Timestamp e])
                    ++ held_times (<[g := {| Recorder.stamped := None;
                                              Recorder.todo := Recorder.todo w |}]> (Recorder.workers y))
                    ≡ₚ map Timestamp (slice_elems (Recorder.heap y) (events (Recorder.srv y)))
                       ++ held_times (Recorder.workers y)).
    { rewrite <- Hheld, <- (assoc_L (++)). apply Permutation_app_head, Permutation_app_comm. }
    split_and!; auto.
    + rewrite Hperm. exact Hnd.
    + rewrite Hperm. exact Hall.
    + assert (Heq : calls_left (<[g := {| Recorder.stamped := None;
                                            Recorder.todo := Recorder.todo w |}]> (Recorder.workers y))
                    = calls_left (Recorder.workers y)) by lia.
      rewrite Heq. exact Hbound.
    + rewrite Hperm. lia.
    + apply Forall_insert; [exact Htodo | exact Hwtodo].
  - (* a call begins: the clock stamps its event *)
    destruct (Recorder.todo w) as [|o rest] eqn:Htd; [discriminate|].
    destruct (Recorder.stamp (clock (Recorder.srv y)) o) as [e lc] eqn:Hstamp.
    intros [= <-]. destruct Hok as [Hc Hs].
    destruct (stamp_clock (clock (Recorder.srv y)) o) as [Hts Hlc].
    rewrite Hstamp in Hts, Hlc. cbn [fst snd] in Hts, Hlc.
    apply Forall_cons in Hwtodo as [[Ho Hb] Hrest].
    pose proof (held_times_insert _ g w {| Recorder.stamped := Some e; Recorder.todo := rest |} Hw)
      as Hheld.
    pose proof (calls_left_insert _ g w {| Recorder.stamped := Some e; Recorder.todo := rest |} Hw)
      as Hcalls.
    rewrite Hst in Hheld. rewrite Htd in Hcalls.
    cbn [Recorder.stamped Recorder.todo option_map option_list length] in Hheld, Hcalls.
    rewrite app_nil_r in Hheld.
    assert (Hpre : timestamp (clock (Recorder.srv y)) <= pre_incr (clock (Recorder.srv y)) (clock_op_of o)
                   <= Z.max (timestamp (clock (Recorder.srv y))) B).
    { destruct (clock_op_of o); simpl in *; lia. }
    destruct (apply_op_grows _ _ Hc Ho ltac:(lia)) as (Hv & Hs1 & Hgt).
    rewrite <- Hts in Hv, Hgt. rewrite <- Hlc in Hs1.
    unfold recorder_inv, server_ok, log_of in *.
    cbn [Recorder.srv Recorder.heap Recorder.workers clock events].
    assert (Hperm : map Timestamp (slice_elems (Recorder.heap y) (events (Recorder.srv y)))
                    ++ held_times (<[g := {| Recorder.stamped := Some e;
                                              Recorder.todo := rest |}]> (Recorder.workers y))
                    ≡ₚ Timestamp e ::
                       (map Timestamp (slice_elems (Recorder.heap y) (events (Recorder.srv y)))
                        ++ held_times (Recorder.workers y))).
    { rewrite Hheld, (assoc_L (++)). symmetry. apply Permutation_cons_append. }
    split_and!.
    + rewrite Hlc. apply apply_op_ok.
    + exact Hs.
    + rewrite Hperm. constructor; [|exact Hnd].
      intros Hin. rewrite Forall_forall in Hall. specialize (Hall _ Hin). lia.
    + rewrite Hperm. constructor; [lia|].
      eapply Forall_impl; [exact Hall|]. intros t Ht. simpl in Ht. lia.
    + lia.
    + lia.
    + rewrite Hperm. cbn [length]. lia.
    + apply Forall_insert; [exact Htodo | exact Hrest].
Qed.

Lemma recorder_exec_inv {rt : Runtime} B total sched : forall y y',
  recorder_inv B total y -> Recorder.exec y sched = Some y' -> recorder_inv B total y'.
Proof.
  induction sched as [|g sched IH]; intros y y' Hinv; simpl.
  - intros [= <-]. exact Hinv.
  - destruct (Recorder.step y g) as [y1|] eqn:Hstep; [|discriminate].
    apply IH. eapply recorder_step_inv; eauto.
Qed.

Lemma recorder_start_inv h0 progs B :
  Forall (Forall (call_below B)) progs ->
  Z.max 0 B + Z.of_nat (sum_list (map length progs)) <= max_int64 ->
  recorder_inv B (sum_list (map length progs)) (Recorder.start h0 progs).
Proof.
  intros Hprogs Hbound. unfold Recorder.start.
  destruct (NewServer h0) as [s h] eqn:Hnew.
  apply NewServer_spec in Hnew as (Hok & Hlog & Hclk).
  assert (Hheld : held_times (map (fun p => {| Recorder.stamped := None; Recorder.todo := p |}) progs) = []).
  { unfold held_times. induction progs as [|p progs IH]; [reflexivity|].
    simpl. apply IH.
    - apply Forall_cons in Hprogs. tauto.
    - simpl in Hbound. lia. }
  assert (Hcalls : calls_left (map (fun p => {| Recorder.stamped := None; Recorder.todo := p |}) progs)
                   = sum_list (map length progs)).
  { unfold calls_left. rewrite map_map. reflexivity. }
  unfold recorder_inv. cbn [Recorder.srv Recorder.heap Recorder.workers].
  rewrite Hlog, Hheld, Hcalls, Hclk. cbn [map app length timestamp NewLamportClock].
  split_and!; auto; try constructor; try lia.
  apply Forall_fmap. eapply Forall_impl; [exact Hprogs|]. intros p Hp. exact Hp.
Qed.

Lemma increasing_from_snoc lo l t :
  increasing_from lo l -> lo < t -> Forall (fun x => x < t) l ->
  increasing_from lo (l ++ [t]).
Proof.
  revert lo. induction l as [|x l IH]; intros lo Hinc Hlo Hall; simpl in *.
  - auto.
  - destruct Hinc as [Hx Hinc]. apply Forall_cons in Hall as [Hxt Hall]. auto.
Qed.

(** A call made with no goroutine in between, in a system where no
    goroutine holds an event: its event goes to the end of the log with
    a logical time above all those of the log. *)
Lemma recorder_call_inv {rt : Runtime} B total y g y' :
  recorder_inv B total y ->
  Forall (fun w => Recorder.stamped w = None) (Recorder.workers y) ->
  increasing_from 0 (map Timestamp (log_of (Recorder.srv y) (Recorder.heap y))) ->
  Recorder.exec y [g; g] = Some y' ->
  recorder_inv B total y' /\
  Forall (fun w => Recorder.stamped w = None) (Recorder.workers y') /\
  increasing_from 0 (map Timestamp (log_of (Recorder.srv y') (Recorder.heap y'))).
Proof.
  intros Hinv Hnone Hinc. simpl.
  destruct (Recorder.step y g) as [y1|] eqn:Hs1; [|discriminate].
  destruct (Recorder.step y1 g) as [y2|] eqn:Hs2; [|discriminate].
  intros [= <-].
  pose proof (recorder_step_inv _ _ _ _ _ Hinv Hs1) as Hinv1.
  pose proof (recorder_step_inv _ _ _ _ _ Hinv1 Hs2) as Hinv2.
  split; [exact Hinv2|]. clear Hinv1 Hinv2.
  unfold Recorder.step in Hs1.
  destruct (Recorder.workers y !! g) as [w|] eqn:Hw; [|discriminate].
  pose proof (Forall_lookup_1 _ _ _ _ Hnone Hw) as Hst. cbv beta in Hst.
  rewrite Hst in Hs1.
  destruct (Recorder.todo w) as [|o rest] eqn:Htd; [discriminate|].
  destruct (Recorder.stamp (clock (Recorder.srv y)) o) as [e lc] eqn:Hstamp.
  injection Hs1 as <-.
  unfold Recorder.step in Hs2. cbn [Recorder.workers Recorder.srv Recorder.heap] in Hs2.
  rewrite list_lookup_insert_eq in Hs2 by (eapply lookup_lt_Some; eauto).
  cbn [Recorder.stamped Recorder.todo clock events] in Hs2.
  destruct (append_slice (events (Recorder.srv y)) e (Recorder.heap y)) as [evs h1] eqn:Happ.
  injection Hs2 as <-. cbn [Recorder.workers Recorder.srv Recorder.heap].
  rewrite list_insert_insert_eq.
  destruct Hinv as ((Hc & Hs) & _ & Hall & Hnn & Hbound & _ & Htodo).
  destruct (append_slice_spec _ _ _ _ _ Hs Happ) as [_ Hel].
  pose proof (Forall_lookup_1 _ _ _ _ Htodo Hw) as Hwtodo. cbv beta in Hwtodo.
  rewrite Htd in Hwtodo. apply Forall_cons in Hwtodo as [[Ho Hb] _].
  pose proof (calls_left_insert _ g w {| Recorder.stamped := None; Recorder.todo := rest |} Hw)
    as Hcalls.
  rewrite Htd in Hcalls. cbn [Recorder.todo length] in Hcalls.
  destruct (stamp_clock (clock (Recorder.srv y)) o) as [Hts _].
  rewrite Hstamp in Hts. cbn [fst] in Hts.
  assert (Hpre : pre_incr (clock (Recorder.srv y)) (clock_op_of o)
                 <= Z.max (timestamp (clock (Recorder.srv y))) B).
  { destruct (clock_op_of o); simpl in *; lia. }
  destruct (apply_op_grows _ _ Hc Ho ltac:(lia)) as (_ & _ & Hgt).
  rewrite <- Hts in Hgt.
  split.
  - apply Forall_insert; [exact Hnone | reflexivity].
  - unfold log_of in *. cbn [events]. rewrite Hel, map_app. cbn [map].
    apply increasing_from_snoc; [exact Hinc | lia |].
    apply Forall_app in Hall as [Hall _].
    eapply Forall_impl; [exact Hall|]. intros t Ht. simpl in Ht. lia.
Qed.

Lemma recorder_one_at_a_time_inv {rt : Runtime} B total gs : forall y y',
  recorder_inv B total y ->
  Forall (fun w => Recorder.stamped w = None) (Recorder.workers y) ->
  increasing_from 0 (map Timestamp (log_of (Recorder.srv y) (Recorder.heap y))) ->
  Recorder.exec y (one_at_a_time gs) = Some y' ->
  increasing_from 0 (map Timestamp (log_of (Recorder.srv y') (Recorder.heap y'))).
Proof.
  induction gs as [|g gs IH]; intros y y' Hinv Hnone Hinc; simpl.
  - intros [= <-]. exact Hinc.
  - destruct (Recorder.step y g) as [y1|] eqn:Hs1; [|discriminate].
    destruct (Recorder.step y1 g) as [y2|] eqn:Hs2; [|discriminate].
    assert (Hcall : Recorder.exec y [g; g] = Some y2).
    { simpl. rewrite Hs1, Hs2. reflexivity. }
    destruct (recorder_call_inv _ _ _ _ _ Hinv Hnone Hinc Hcall) as (Hinv2 & Hnone2 & Hinc2).
    apply IH; assumption.
Qed.

(** C3, as the code has it.  In [logEvent] and [processMessage] the
    clock call is made before the lock on the log is taken, so the
    order of the log is the order of the [append]s, not that of the
    clock calls.

    Calls made one after the other on a fresh server, on [int64]
    arguments and with no increment starting from [max_int64]: the log
    read in append order is the sequence of events the calls returned,
    and its logical times are strictly increasing.  The same holds of
    goroutines that make their calls one at a time, when the received
    values are at most [B] and [max(0, B)] plus the number of calls does
    not exceed [max_int64].

    Goroutines whose calls overlap in any way, under the same bound:
    the logical times in the log are pairwise distinct, positive and at
    most what [GetTime] reads. *)
Theorem log_strictly_increasing {rt : Runtime} (h0 : Heap) (ops : list server_op)
    (progs : list (list server_op)) (B : Z) :
  Forall op_ok (map clock_op_of ops) ->
  no_wrap NewLamportClock (map clock_op_of ops) ->
  Forall (Forall (call_below B)) progs ->
  Z.max 0 B + Z.of_nat (sum_list (map length progs)) <= max_int64 ->
  (let '(s0, h1) := NewServer h0 in
   let '(es, s, h) := run_server s0 h1 ops in
   log_of s h = es /\ strictly_increasing (map Timestamp (log_of s h))) /\
  (forall gs y,
     Recorder.exec (Recorder.start h0 progs) (one_at_a_time gs) = Some y ->
     strictly_increasing (map Timestamp (log_of (Recorder.srv y) (Recorder.heap y)))) /\
  (forall sched y,
     Recorder.exec (Recorder.start h0 progs) sched = Some y ->
     NoDup (map Timestamp (log_of (Recorder.srv y) (Recorder.heap y))) /\
     Forall (fun e => 0 < Timestamp e <= GetTime (clock (Recorder.srv y)))
       (log_of (Recorder.srv y) (Recorder.heap y))).
Proof.
  intros Hops Hnw Hprogs Hbound.
  pose proof (recorder_start_inv h0 progs B Hprogs Hbound) as Hstart.
  split_and!.
  - destruct (NewServer h0) as [s0 h1] eqn:Hnew.
    destruct (run_server s0 h1 ops) as [[es s] h] eqn:Hrun.
    apply NewServer_spec in Hnew as (Hok & Hlog0 & Hclk0).
    destruct (run_server_spec _ _ _ _ _ _ Hok Hrun) as (_ & Hlog & Hts & _ & _).
    rewrite Hlog, Hlog0. simpl. split; [reflexivity|].
    rewrite Hts, Hclk0. apply increasing_from_strictly with (lo := 0).
    apply (run_clock_increasing NewLamportClock); auto using NewLamportClock_ok.
  - intros gs y Hexec. apply increasing_from_strictly with (lo := 0).
    eapply recorder_one_at_a_time_inv; [exact Hstart | | | exact Hexec].
    + unfold Recorder.start. destruct (NewServer h0) as [s h].
      cbn [Recorder.workers]. apply Forall_fmap, Forall_forall. reflexivity.
    + unfold Recorder.start. destruct (NewServer h0) as [s h] eqn:Hnew.
      apply NewServer_spec in Hnew as (_ & Hlog0 & _).
      cbn [Recorder.srv Recorder.heap]. rewrite Hlog0. exact I.
  - intros sched y Hexec.
    pose proof (recorder_exec_inv _ _ _ _ _ Hstart Hexec) as Hinv.
    destruct Hinv as (_ & Hnd & Hall & _).
    split.
    + apply NoDup_app in Hnd. tauto.
    + apply Forall_app in Hall as [Hall _]. apply Forall_fmap in Hall. exact Hall.
Qed.

Lemma log_strictly_increasing_witness :
  Forall op_ok (map clock_op_of
    [CallLogEvent "e1" "boot" 10; CallProcessMessage 5 "ping" 11; CallLogEvent "e2" "work" 12]) /\
  no_wrap NewLamportClock (map clock_op_of
    [CallLogEvent "e1" "boot" 10; CallProcessMessage 5 "ping" 11; CallLogEvent "e2" "work" 12]) /\
  Forall (Forall (call_below 5))
    [[CallLogEvent "e1" "boot" 10; CallLogEvent "e2" "work" 12];
     [CallProcessMessage 5 "ping" 11]] /\
  Z.max 0 5 + Z.of_nat (sum_list (map length
    [[CallLogEvent "e1" "boot" 10; CallLogEvent "e2" "work" 12];
     [CallProcessMessage 5 "ping" 11]])) <= max_int64 /\
  (let '(s0, h1) := NewServer ∅ in
   let '(es, s, h) := @run_server doubling s0 h1
     [CallLogEvent "e1" "boot" 10; CallProcessMessage 5 "ping" 11; CallLogEvent "e2" "work" 12] in
   log_of s h = es /\ strictly_increasing (map Timestamp (log_of s h))) /\
  exists y,
    @Recorder.exec doubling
      (Recorder.start ∅ [[CallLogEvent "e1" "boot" 10; CallLogEvent "e2" "work" 12];
                         [CallProcessMessage 5 "ping" 11]])
      (one_at_a_time [0; 1; 0]%nat) = Some y /\
    map Timestamp (log_of (Recorder.srv y) (Recorder.heap y)) = [1; 6; 7] /\
    strictly_increasing (map Timestamp (log_of (Recorder.srv y) (Recorder.heap y))).
Proof.
  assert (H1 : Forall op_ok (map clock_op_of
    [CallLogEvent "e1" "boot" 10; CallProcessMessage 5 "ping" 11; CallLogEvent "e2" "work" 12])).
  { repeat constructor; vm_compute; discriminate. }
  assert (H2 : no_wrap NewLamportClock (map clock_op_of
    [CallLogEvent "e1" "boot" 10; CallProcessMessage 5 "ping" 11; CallLogEvent "e2" "work" 12])).
  { vm_compute. repeat split. }
  assert (H3 : Forall (Forall (call_below 5))
    [[CallLogEvent "e1" "boot" 10; CallLogEvent "e2" "work" 12];
     [CallProcessMessage 5 "ping" 11]]).
  { repeat constructor; vm_compute; discriminate. }
  assert (H4 : Z.max 0 5 + Z.of_nat (sum_list (map length
    [[CallLogEvent "e1" "boot" 10; CallLogEvent "e2" "work" 12];
     [CallProcessMessage 5 "ping" 11]])) <= max_int64).
  { vm_compute. discriminate. }
  destruct (@log_strictly_increasing doubling ∅ _ _ 5 H1 H2 H3 H4) as (Hseq & Hone & _).
  split; [exact H1 | split; [exact H2 | split; [exact H3 | split; [exact H4 | ]]]].
  split; [exact Hseq|].
  eexists. split; [vm_compute; reflexivity|]. split; [reflexivity|].
  apply (Hone [0; 1; 0]%nat). vm_compute. reflexivity.
Defined.

(** C3 as stated fails in two ways.  When a message carries
    [max_int64], the event it appends has logical time [min_int64],
    below the event before it.  And when two goroutines each log one
    event, the first ticks, the second ticks and appends, then the first
    appends: the log holds the logical times 2, 1 in append order. *)
Lemma log_not_increasing :
  (Forall op_ok (map clock_op_of
     [CallLogEvent "e1" "boot" 10; CallProcessMessage max_int64 "ping" 11]) /\
   let '(s0, h1) := NewServer ∅ in
   let '(es, s, h) := @run_server doubling s0 h1
     [CallLogEvent "e1" "boot" 10; CallProcessMessage max_int64 "ping" 11] in
   map Timestamp (log_of s h) = [1; min_int64] /\
   ~ strictly_increasing (map Timestamp (log_of s h))) /\
  (Forall (Forall (call_below 0))
     [[CallLogEvent "a" "first" 1]; [CallLogEvent "b" "second" 2]] /\
   Z.max 0 0 + Z.of_nat (sum_list (map length
     [[CallLogEvent "a" "first" 1]; [CallLogEvent "b" "second" 2]])) <= max_int64 /\
   exists y,
     @Recorder.exec doubling
       (Recorder.start ∅ [[CallLogEvent "a" "first" 1]; [CallLogEvent "b" "second" 2]])
       [0; 1; 1; 0]%nat = Some y /\
     Forall (fun w => Recorder.stamped w = None /\ Recorder.todo w = []) (Recorder.workers y) /\
     map Timestamp (log_of (Recorder.srv y) (Recorder.heap y)) = [2; 1] /\
     ~ strictly_increasing (map Timestamp (log_of (Recorder.srv y) (Recorder.heap y)))).
Proof.
  split.
  - split; [repeat constructor; vm_compute; discriminate|].
    vm_compute. split; [reflexivity|]. intros [H _]. discriminate H.
  - split; [repeat constructor; vm_compute; discriminate|].
    split; [vm_compute; discriminate|].
    eexists. split; [vm_compute; reflexivity|].
    split; [repeat constructor|]. split; [reflexivity|].
    vm_compute. intros [H _]. discriminate H.
Qed.

(** * Further properties of the program *)

(** ** The counter under repeated ticks *)

Lemma incr_wrap a : incr (wrap a) = wrap (a + 1).
Proof.
  unfold incr, wrap.
  replace ((a + 2 ^ 63) mod 2 ^ 64 - 2 ^ 63 + 1 + 2 ^ 63)
    with ((a + 2 ^ 63) mod 2 ^ 64 + 1) by lia.
  rewrite Z.add_mod_idemp_l by lia. f_equal. f_equal. lia.
Qed.

Lemma run_ticks_wrap n : forall a,
  run_clock {| timestamp := wrap a |} (replicate n OpTick) =
  (map (fun i => wrap (a + Z.of_nat i)) (seq 1 n),
   {| timestamp := wrap (a + Z.of_nat n) |}).
Proof.
  induction n as [|n IH]; intros a.
  - simpl. rewrite Z.add_0_r. reflexivity.
  - cbn [replicate]. rewrite run_clock_cons. cbn [apply_op Tick fst snd timestamp].
    rewrite incr_wrap, IH. cbn [seq map fst snd].
    f_equal; [|f_equal; f_equal; lia].
    f_equal. rewrite <- (fmap_S_seq 1), <- list_fmap_compose.
    apply list_fmap_ext. intros _ i _. simpl. f_equal. lia.
Qed.

(** X1: [n] calls of [Tick] on a clock that holds the [int64] value [v]
    return [v + 1], ..., [v + n] reduced to the [int64] range, whatever
    [n] is, and leave the counter at [v + n] so reduced; after a multiple
    of [2 ^ 64] calls the counter is back at [v]. *)
Theorem ticks_wrap_around (lc : LamportClock) (n : nat) :
  clock_ok lc ->
  run_clock lc (replicate n OpTick) =
    (map (fun i => wrap (timestamp lc + Z.of_nat i)) (seq 1 n),
     {| timestamp := wrap (timestamp lc + Z.of_nat n) |}) /\
  (Z.of_nat n mod 2 ^ 64 = 0 -> snd (run_clock lc (replicate n OpTick)) = lc).
Proof.
  intros Hlc.
  assert (Hrun : run_clock lc (replicate n OpTick) =
    (map (fun i => wrap (timestamp lc + Z.of_nat i)) (seq 1 n),
     {| timestamp := wrap (timestamp lc + Z.of_nat n) |})).
  { rewrite <- (clock_eta lc) at 1. rewrite <- (wrap_id (timestamp lc)) at 1 by exact Hlc.
    apply run_ticks_wrap. }
  split; [exact Hrun|].
  intros Hmod. rewrite Hrun. cbn [snd]. rewrite <- (clock_eta lc) at 2. f_equal.
  apply Z.mod_divide in Hmod as [k Hk]; [|lia].
  unfold wrap. rewrite Hk.
  replace (timestamp lc + k * 2 ^ 64 + 2 ^ 63) with (timestamp lc + 2 ^ 63 + k * 2 ^ 64) by lia.
  rewrite Z.mod_add by lia.
  unfold clock_ok, in_range, min_int64, max_int64 in Hlc.
  rewrite Z.mod_small by lia. lia.
Qed.

Lemma ticks_wrap_around_witness :
  clock_ok {| timestamp := max_int64 - 1 |} /\
  run_clock {| timestamp := max_int64 - 1 |} (replicate 3 OpTick) =
    ([max_int64; min_int64; min_int64 + 1], {| timestamp := min_int64 + 1 |}).
Proof.
  assert (H1 : clock_ok {| timestamp := max_int64 - 1 |}) by (vm_compute; split; discriminate).
  split; [exact H1|].
  exact (proj1 (ticks_wrap_around {| timestamp := max_int64 - 1 |} 3 H1)).
Defined.

(** ** A bound that rules overflow out *)

Lemma bounded_run_no_wrap ops : forall lc B,
  clock_ok lc -> Forall op_ok ops -> Forall (op_below B) ops ->
  Z.max (timestamp lc) B + Z.of_nat (length ops) <= max_int64 ->
  no_wrap lc ops /\
  timestamp lc + Z.of_nat (length ops) <= timestamp (snd (run_clock lc ops)) /\
  timestamp (snd (run_clock lc ops)) <= Z.max (timestamp lc) B + Z.of_nat (length ops).
Proof.
  induction ops as [|o ops IH]; intros lc B Hlc Hok Hbelow Hsum.
  - simpl. split; [exact I|]. lia.
  - apply Forall_cons in Hok as [Ho Hok]. apply Forall_cons in Hbelow as [Hb Hbelow].
    rewrite run_clock_cons. cbn [snd no_wrap length] in *.
    assert (Hpre : timestamp lc <= pre_incr lc o <= Z.max (timestamp lc) B).
    { destruct o; simpl in *; lia. }
    assert (Hlt : pre_incr lc o < max_int64) by lia.
    destruct (apply_op_grows lc o Hlc Ho Hlt) as (_ & Hs & _).
    destruct (IH (snd (apply_op lc o)) B (apply_op_ok lc o) Hok Hbelow) as (Hnw & Hlo & Hhi).
    { rewrite Hs. lia. }
    rewrite Hs in Hlo, Hhi. split_and!; [exact Hlt | exact Hnw | lia | lia].
Qed.

(** X2: if the clock holds [v], every received value of a run of [n]
    calls is an [int64] that is at most [B], and [max(v, B) + n] does not
    exceed [max_int64], then no increment of the run overflows, the
    returned values are strictly increasing, and the counter ends between
    [v + n] and [max(v, B) + n]. *)
Theorem bounded_run_is_monotone (lc : LamportClock) (B : Z) (ops : list clock_op) :
  clock_ok lc -> Forall op_ok ops -> Forall (op_below B) ops ->
  Z.max (timestamp lc) B + Z.of_nat (length ops) <= max_int64 ->
  no_wrap lc ops /\
  increasing_from (timestamp lc) (fst (run_clock lc ops)) /\
  timestamp lc + Z.of_nat (length ops) <= GetTime (snd (run_clock lc ops)) /\
  GetTime (snd (run_clock lc ops)) <= Z.max (timestamp lc) B + Z.of_nat (length ops).
Proof.
  intros Hlc Hok Hbelow Hsum.
  destruct (bounded_run_no_wrap ops lc B Hlc Hok Hbelow Hsum) as (Hnw & Hlo & Hhi).
  split_and!; auto. apply run_clock_increasing; auto.
Qed.

Lemma bounded_run_is_monotone_witness :
  clock_ok NewLamportClock /\
  Forall op_ok [OpTick; OpUpdate 5; OpUpdate (-2)] /\
  Forall (op_below 5) [OpTick; OpUpdate 5; OpUpdate (-2)] /\
  Z.max (timestamp NewLamportClock) 5 + Z.of_nat (length [OpTick; OpUpdate 5; OpUpdate (-2)])
    <= max_int64 /\
  no_wrap NewLamportClock [OpTick; OpUpdate 5; OpUpdate (-2)] /\
  GetTime (snd (run_clock NewLamportClock [OpTick; OpUpdate 5; OpUpdate (-2)])) <= 8.
Proof.
  assert (H1 : clock_ok NewLamportClock) by (vm_compute; split; discriminate).
  assert (H2 : Forall op_ok [OpTick; OpUpdate 5; OpUpdate (-2)]).
  { repeat constructor; vm_compute; discriminate. }
  assert (H3 : Forall (op_below 5) [OpTick; OpUpdate 5; OpUpdate (-2)]).
  { repeat constructor; vm_compute; discriminate. }
  assert (H4 : Z.max (timestamp NewLamportClock) 5
               + Z.of_nat (length [OpTick; OpUpdate 5; OpUpdate (-2)]) <= max_int64).
  { vm_compute. discriminate. }
  pose proof (bounded_run_is_monotone _ _ _ H1 H2 H3 H4) as (Hnw & _ & _ & Hhi).
  split; [exact H1 | split; [exact H2 | split; [exact H3 | split; [exact H4 | ]]]].
  split; [exact Hnw | exact Hhi].
Defined.

(** ** The log is append-only *)

Lemma run_server_length {rt : Runtime} ops s h es s' h' :
  server_ok s h -> run_server s h ops = (es, s', h') -> length es = length ops.
Proof.
  intros Hok Hrun.
  destruct (run_server_spec _ _ _ _ _ _ Hok Hrun) as (_ & _ & Hts & _ & _).
  apply (f_equal length) in Hts.
  rewrite length_map, run_clock_length, length_map in Hts. exact Hts.
Qed.

(** X3: from every valid server state, a run of [logEvent] and
    [processMessage] calls leaves the entries the log already had where
    they were and appends one event per call, in call order: the events
    the calls returned. *)
Theorem log_is_append_only {rt : Runtime} (s : Server) (h : Heap) (ops : list server_op) :
  server_ok s h ->
  let '(es, s', h') := run_server s h ops in
  server_ok s' h' /\
  log_of s' h' = log_of s h ++ es /\
  length es = length ops /\
  length (log_of s' h') = (length (log_of s h) + length ops)%nat.
Proof.
  intros Hok. destruct (run_server s h ops) as [[es s'] h'] eqn:Hrun.
  destruct (run_server_spec _ _ _ _ _ _ Hok Hrun) as (Hok' & Hlog & _).
  pose proof (run_server_length _ _ _ _ _ _ Hok Hrun) as Hlen.
  split_and!; auto. rewrite Hlog, length_app, Hlen. reflexivity.
Qed.

Lemma log_is_append_only_witness :
  server_ok (fst (NewServer ∅)) (snd (NewServer ∅)) /\
  let '(es, s', h') :=
    @run_server doubling (fst (NewServer ∅)) (snd (NewServer ∅))
      [CallLogEvent "a" "first" 1; CallProcessMessage 7 "second" 2] in
  server_ok s' h' /\
  log_of s' h' = log_of (fst (NewServer ∅)) (snd (NewServer ∅)) ++ es /\
  length es = length [CallLogEvent "a" "first" 1; CallProcessMessage 7 "second" 2] /\
  length (log_of s' h') =
    (length (log_of (fst (NewServer ∅)) (snd (NewServer ∅)))
     + length [CallLogEvent "a" "first" 1; CallProcessMessage 7 "second" 2])%nat.
Proof.
  assert (H1 : server_ok (fst (NewServer ∅)) (snd (NewServer ∅))).
  { destruct (NewServer ∅) as [s0 h0] eqn:Hnew. apply NewServer_spec in Hnew. tauto. }
  split; [exact H1|].
  exact (@log_is_append_only doubling _ _
           [CallLogEvent "a" "first" 1; CallProcessMessage 7 "second" 2] H1).
Defined.

(** X4: the event a core call returns is the last entry of the log, its
    logical time is what [GetTime] reads afterwards, and its wall time is
    the reading the call took; [logEvent] keeps the identifier and the
    label it was given, [processMessage] prefixes the label with
    ["Processed: "] and names the event after its logical time. *)
Theorem core_call_event {rt : Runtime} (s : Server) (h : Heap) (o : server_op) :
  server_ok s h ->
  let '(e, s', h') := apply_server_op s h o in
  last (log_of s' h') = Some e /\
  GetTime (clock s') = Timestamp e /\
  match o with
  | CallLogEvent id message now =>
      ID e = id /\ Message e = message /\ WallTime e = now
  | CallProcessMessage r message now =>
      ID e = "msg-" +:+ pretty (Timestamp e) /\
      Message e = "Processed: " +:+ message /\ WallTime e = now
  end.
Proof.
  intros Hok. destruct (apply_server_op s h o) as [[e s'] h'] eqn:Hop.
  destruct (apply_server_op_spec _ _ _ _ _ _ Hok Hop) as (_ & Hlog & Hts & Hclk & _).
  split_and!.
  - rewrite Hlog. apply last_snoc.
  - unfold GetTime. rewrite Hclk, Hts, apply_op_pre_incr. reflexivity.
  - destruct Hok as [_ Hs]. destruct o as [id message now | r message now];
      cbn [apply_server_op] in Hop.
    + unfold logEvent in Hop. destruct (Tick (clock s)) as [v clk].
      destruct (append_slice _ _ h) as [evs h1]. injection Hop as <- _ _. auto.
    + unfold processMessage in Hop. destruct (Update (clock s) r) as [v clk].
      destruct (append_slice _ _ h) as [evs h1]. injection Hop as <- _ _. auto.
Qed.

Lemma core_call_event_witness :
  server_ok (fst (NewServer ∅)) (snd (NewServer ∅)) /\
  let '(e, s', h') :=
    @apply_server_op doubling (fst (NewServer ∅)) (snd (NewServer ∅))
      (CallProcessMessage 41 "hello" 9) in
  last (log_of s' h') = Some e /\
  GetTime (clock s') = Timestamp e /\
  ID e = "msg-" +:+ pretty (Timestamp e) /\
  Message e = "Processed: " +:+ "hello" /\ WallTime e = 9.
Proof.
  assert (H1 : server_ok (fst (NewServer ∅)) (snd (NewServer ∅))).
  { destruct (NewServer ∅) as [s0 h0] eqn:Hnew. apply NewServer_spec in Hnew. tauto. }
  split; [exact H1|].
  exact (@core_call_event doubling _ _ (CallProcessMessage 41 "hello" 9) H1).
Defined.

(** ** Listing the events *)

Lemma handleGetEvents_GET s h q snap h' :
  copyEvents s h = (snap, h') ->
  handleGetEvents s h {| Method := "GET"; Query := q |} =
    (json_reply (EventsJSON (GetTime (clock s)) (slice_elems h' snap) (len snap)), h').
Proof.
  intros Hcopy. rewrite handleGetEvents_alone. cbn [Method].
  case_bool_decide as Hm; [congruence|]. rewrite Hcopy. reflexivity.
Qed.

(** X5: on a server that has made any run of core calls since it was
    created, [handleGetEvents] lists the events those calls returned, in
    call order, counts as many events as there were calls, and reports
    as current time the logical time of the last of them (0 when there
    was no call). *)
Theorem events_reply_after_run {rt : Runtime} (h0 : Heap) (ops : list server_op)
    (q : gmap string (list string)) :
  let '(s0, h1) := NewServer h0 in
  let '(es, s, h) := run_server s0 h1 ops in
  fst (handleGetEvents s h {| Method := "GET"; Query := q |}) =
    json_reply (EventsJSON (default 0 (last (map Timestamp es))) es (length ops)).
Proof.
  destruct (NewServer h0) as [s0 h1] eqn:Hnew.
  destruct (run_server s0 h1 ops) as [[es s] h] eqn:Hrun.
  apply NewServer_spec in Hnew as (Hok0 & Hlog0 & Hclk0).
  destruct (run_server_spec _ _ _ _ _ _ Hok0 Hrun) as (Hok & Hlog & Hts & Hclk & _).
  pose proof (run_server_length _ _ _ _ _ _ Hok0 Hrun) as Hlen.
  destruct (copyEvents s h) as [snap h'] eqn:Hcopy.
  destruct (copyEvents_spec _ _ _ _ Hok Hcopy) as (_ & Hel & Hn & _).
  rewrite (handleGetEvents_GET _ _ _ _ _ Hcopy). cbn [fst].
  rewrite Hel, Hn, Hlog, Hlog0. cbn [app]. rewrite Hlen.
  unfold GetTime. rewrite Hclk, Hts, Hclk0, run_clock_last. reflexivity.
Qed.

(** The two outcomes of [handleGetEvents]. *)
Lemma handleGetEvents_spec (s : Server) (h : Heap) (r : Request) :
  server_ok s h ->
  let '(reply, h') := handleGetEvents s h r in
  server_ok s h' /\
  log_of s h' = log_of s h /\
  (Method r <> "GET" -> reply = http_Error "Method not allowed" StatusMethodNotAllowed /\ h' = h) /\
  (Method r = "GET" ->
     reply = json_reply (EventsJSON (GetTime (clock s)) (log_of s h) (length (log_of s h)))) /\
  fst (handleGetEvents s h' r) = reply.
Proof.
  intros Hok. rewrite handleGetEvents_alone. case_bool_decide as Hm.
  - split_and!; auto; try congruence.
    rewrite handleGetEvents_alone, bool_decide_true by exact Hm. reflexivity.
  - destruct (copyEvents s h) as [snap h'] eqn:Hcopy.
    destruct (copyEvents_spec _ _ _ _ Hok Hcopy) as (_ & Hel & Hn & _ & _ & Hok' & Hlog).
    rewrite handleGetEvents_alone, bool_decide_false by (intros Hne; apply Hne, Hm).
    destruct (copyEvents s h') as [snap2 h2] eqn:Hcopy2.
    destruct (copyEvents_spec _ _ _ _ Hok' Hcopy2) as (_ & Hel2 & Hn2 & _).
    rewrite Hel, Hn. cbn [fst]. rewrite Hel2, Hn2, Hlog.
    split_and!; auto; tauto.
Qed.

(** X6: [handleGetEvents] only reads the server: whatever the request,
    the log and the clock are afterwards what they were; a request that
    is not a [GET] is answered 405 and allocates nothing; and asking
    again, with nothing in between, gives the same answer. *)
Theorem handleGetEvents_only_reads (s : Server) (h : Heap) (r : Request) :
  server_ok s h ->
  let '(reply, h') := handleGetEvents s h r in
  server_ok s h' /\
  log_of s h' = log_of s h /\
  (Method r <> "GET" -> reply = http_Error "Method not allowed" StatusMethodNotAllowed /\ h' = h) /\
  (Method r = "GET" ->
     reply = json_reply (EventsJSON (GetTime (clock s)) (log_of s h) (length (log_of s h)))) /\
  fst (handleGetEvents s h' r) = reply.
Proof.
  intros Hok. rewrite handleGetEvents_alone. case_bool_decide as Hm.
  - split_and!; auto; try congruence.
    rewrite handleGetEvents_alone, bool_decide_true by exact Hm. reflexivity.
  - destruct (copyEvents s h) as [snap h'] eqn:Hcopy.
    destruct (copyEvents_spec _ _ _ _ Hok Hcopy) as (_ & Hel & Hn & _ & _ & Hok' & Hlog).
    rewrite handleGetEvents_alone, bool_decide_false by (intros Hne; apply Hne, Hm).
    destruct (copyEvents s h') as [snap2 h2] eqn:Hcopy2.
    destruct (copyEvents_spec _ _ _ _ Hok' Hcopy2) as (_ & Hel2 & Hn2 & _).
    rewrite Hel, Hn. cbn [fst]. rewrite Hel2, Hn2, Hlog.
    split_and!; auto; tauto.
Qed.

Lemma handleGetEvents_only_reads_witness :
  server_ok (fst (NewServer ∅)) (snd (NewServer ∅)) /\
  let '(reply, h') :=
    handleGetEvents (fst (NewServer ∅)) (snd (NewServer ∅)) {| Method := "GET"; Query := ∅ |} in
  log_of (fst (NewServer ∅)) h' = log_of (fst (NewServer ∅)) (snd (NewServer ∅)) /\
  fst (handleGetEvents (fst (NewServer ∅)) h' {| Method := "GET"; Query := ∅ |}) = reply.
Proof.
  assert (H1 : server_ok (fst (NewServer ∅)) (snd (NewServer ∅))).
  { destruct (NewServer ∅) as [s0 h0] eqn:Hnew. apply NewServer_spec in Hnew. tauto. }
  split; [exact H1|].
  pose proof (handleGetEvents_only_reads _ _ {| Method := "GET"; Query := ∅ |} H1) as H.
  destruct (handleGetEvents (fst (NewServer ∅)) (snd (NewServer ∅))
              {| Method := "GET"; Query := ∅ |}) as [reply h'].
  destruct H as (_ & Hlog & _ & _ & Hagain). split; [exact Hlog | exact Hagain].
Defined.

(** ** Creating local events over HTTP *)

Lemma logEvent_spec {rt : Runtime} s h id message now e s' h' :
  server_ok s h -> logEvent s id message now h = (e, s', h') ->
  server_ok s' h' /\
  log_of s' h' = log_of s h ++ [e] /\
  e = {| ID := id; Message := message; Timestamp := fst (Tick (clock s)); WallTime := now |} /\
  clock s' = snd (Tick (clock s)).
Proof.
  intros Hok Hlog.
  destruct (apply_server_op_spec s h (CallLogEvent id message now) e s' h' Hok Hlog)
    as (Hok' & Happ & _ & Hclk & _).
  split_and!; auto.
  unfold logEvent in Hlog. destruct (Tick (clock s)) as [v clk].
  destruct (append_slice _ _ h) as [evs h1]. injection Hlog as <- _ _. reflexivity.
Qed.

(** The two outcomes of [handleCreateEvent]. *)
Lemma handleCreateEvent_spec {rt : Runtime} (s : Server) (h : Heap) (r : Request)
    (nanos now : Z) :
  server_ok s h ->
  let '(reply, s', h') := handleCreateEvent s h r nanos now in
  (Method r <> "POST" ->
     reply = http_Error "Method not allowed" StatusMethodNotAllowed /\ s' = s /\ h' = h) /\
  (Method r = "POST" ->
     exists e,
       reply = json_reply (EventJSON e) /\
       log_of s' h' = log_of s h ++ [e] /\
       ID e = "event-" +:+ pretty nanos /\
       Message e = (if bool_decide (Values_Get (Query r) "message" = "")
                    then "Local event" else Values_Get (Query r) "message") /\
       Message e <> "" /\
       Timestamp e = fst (Tick (clock s)) /\
       GetTime (clock s') = Timestamp e /\
       server_ok s' h').
Proof.
  intros Hok. unfold handleCreateEvent. case_bool_decide as Hm.
  - split; [auto | congruence].
  - destruct (logEvent s _ _ now h) as [[e s'] h'] eqn:Hlog.
    destruct (logEvent_spec _ _ _ _ _ _ _ _ Hok Hlog) as (Hok' & Happ & He & Hclk).
    split; [tauto|]. intros _. exists e. subst e. cbn [ID Message Timestamp].
    split_and!; auto.
    + case_bool_decide; [intros Hx; discriminate Hx | assumption].
    + unfold GetTime. rewrite Hclk. reflexivity.
Qed.

(** X7: [handleCreateEvent] turns away every request that is not a
    [POST] with 405 and leaves the server as it was; it never rejects a
    [POST]: the reply is the event it appends to the log, stamped by one
    [Tick], named ["event-"] followed by the nanosecond reading, and
    labelled with the message parameter, or with ["Local event"] when the
    parameter is missing or empty, so the label is never empty. *)
Theorem handleCreateEvent_logs {rt : Runtime} (s : Server) (h : Heap) (r : Request)
    (nanos now : Z) :
  server_ok s h ->
  let '(reply, s', h') := handleCreateEvent s h r nanos now in
  (Method r <> "POST" ->
     reply = http_Error "Method not allowed" StatusMethodNotAllowed /\ s' = s /\ h' = h) /\
  (Method r = "POST" ->
     exists e,
       reply = json_reply (EventJSON e) /\
       log_of s' h' = log_of s h ++ [e] /\
       ID e = "event-" +:+ pretty nanos /\
       Message e = (if bool_decide (Values_Get (Query r) "message" = "")
                    then "Local event" else Values_Get (Query r) "message") /\
       Message e <> "" /\
       Timestamp e = fst (Tick (clock s)) /\
       GetTime (clock s') = Timestamp e /\
       server_ok s' h').
Proof.
  intros Hok. unfold handleCreateEvent. case_bool_decide as Hm.
  - split; [auto | congruence].
  - destruct (logEvent s _ _ now h) as [[e s'] h'] eqn:Hlog.
    destruct (logEvent_spec _ _ _ _ _ _ _ _ Hok Hlog) as (Hok' & Happ & He & Hclk).
    split; [tauto|]. intros _. exists e. subst e. cbn [ID Message Timestamp].
    split_and!; auto.
    + case_bool_decide; [intros Hx; discriminate Hx | assumption].
    + unfold GetTime. rewrite Hclk. reflexivity.
Qed.

Lemma handleCreateEvent_logs_witness :
  server_ok (fst (NewServer ∅)) (snd (NewServer ∅)) /\
  let '(reply, s', h') :=
    @handleCreateEvent doubling (fst (NewServer ∅)) (snd (NewServer ∅))
      {| Method := "POST"; Query := ∅ |} 1700000000000000000 5 in
  exists e,
    reply = json_reply (EventJSON e) /\
    ID e = "event-" +:+ pretty 1700000000000000000 /\
    Message e = "Local event" /\
    Timestamp e = 1.
Proof.
  assert (H1 : server_ok (fst (NewServer ∅)) (snd (NewServer ∅))).
  { destruct (NewServer ∅) as [s0 h0] eqn:Hnew. apply NewServer_spec in Hnew. tauto. }
  split; [exact H1|].
  pose proof (@handleCreateEvent_logs doubling _ _ {| Method := "POST"; Query := ∅ |}
                1700000000000000000 5 H1) as H.
  destruct (@handleCreateEvent doubling (fst (NewServer ∅)) (snd (NewServer ∅))
              {| Method := "POST"; Query := ∅ |} 1700000000000000000 5) as [[reply s'] h'].
  destruct H as [_ H]. destruct (H eq_refl) as (e & Hr & _ & Hid & Hmsg & _ & Hts & _).
  exists e. split; [exact Hr | split; [exact Hid | split; [exact Hmsg | exact Hts]]].
Defined.

Lemma event_id_inj (x y : Z) : "event-" +:+ pretty x = "event-" +:+ pretty y -> x = y.
Proof. simpl. intros [= Heq]. exact (pretty_Z_inj _ _ Heq). Qed.

(** X8: two [POST] requests to [handleCreateEvent], one after the other
    on a clock at least two below [max_int64], append two events to the
    log with consecutive logical times; the two events have the same
    identifier exactly when the two requests read the same nanosecond
    from the wall clock. *)
Theorem created_ids_follow_the_wall_clock {rt : Runtime} (s : Server) (h : Heap)
    (r1 r2 : Request) (nanos1 now1 nanos2 now2 : Z) :
  server_ok s h -> timestamp (clock s) + 1 < max_int64 ->
  Method r1 = "POST" -> Method r2 = "POST" ->
  let '(reply1, s1, h1) := handleCreateEvent s h r1 nanos1 now1 in
  let '(reply2, s2, h2) := handleCreateEvent s1 h1 r2 nanos2 now2 in
  exists e1 e2,
    reply1 = json_reply (EventJSON e1) /\
    reply2 = json_reply (EventJSON e2) /\
    log_of s2 h2 = log_of s h ++ [e1; e2] /\
    Timestamp e1 = timestamp (clock s) + 1 /\
    Timestamp e2 = timestamp (clock s) + 2 /\
    (ID e1 = ID e2 <-> nanos1 = nanos2).
Proof.
  intros Hok Hlt Hm1 Hm2.
  pose proof (handleCreateEvent_spec s h r1 nanos1 now1 Hok) as H1.
  destruct (handleCreateEvent s h r1 nanos1 now1) as [[reply1 s1] h1].
  destruct H1 as [_ H1]. destruct (H1 Hm1) as (e1 & Hr1 & Hl1 & Hid1 & _ & _ & Ht1 & Hg1 & Hok1).
  pose proof (handleCreateEvent_spec s1 h1 r2 nanos2 now2 Hok1) as H2.
  destruct (handleCreateEvent s1 h1 r2 nanos2 now2) as [[reply2 s2] h2].
  destruct H2 as [_ H2]. destruct (H2 Hm2) as (e2 & Hr2 & Hl2 & Hid2 & _ & _ & Ht2 & _ & _).
  destruct Hok as [Hc _]. unfold GetTime in Hg1.
  assert (Hv1 : Timestamp e1 = timestamp (clock s) + 1).
  { rewrite Ht1. cbn [Tick fst timestamp]. apply incr_below_max; [exact Hc | lia]. }
  assert (Hv2 : Timestamp e2 = timestamp (clock s) + 2).
  { rewrite Ht2. cbn [Tick fst timestamp]. rewrite Hg1, Hv1.
    rewrite incr_below_max; [lia | | lia].
    unfold clock_ok, in_range, min_int64, max_int64 in *. lia. }
  exists e1, e2. split_and!; auto.
  - rewrite Hl2, Hl1, <- (assoc_L (++)). reflexivity.
  - rewrite Hid1, Hid2. split; [apply event_id_inj | intros ->; reflexivity].
Qed.

Lemma created_ids_follow_the_wall_clock_witness :
  server_ok (fst (NewServer ∅)) (snd (NewServer ∅)) /\
  timestamp (clock (fst (NewServer ∅))) + 1 < max_int64 /\
  let '(reply1, s1, h1) :=
    @handleCreateEvent doubling (fst (NewServer ∅)) (snd (NewServer ∅))
      {| Method := "POST"; Query := ∅ |} 77 1 in
  let '(reply2, s2, h2) :=
    @handleCreateEvent doubling s1 h1 {| Method := "POST"; Query := ∅ |} 77 2 in
  exists e1 e2,
    reply1 = json_reply (EventJSON e1) /\
    reply2 = json_reply (EventJSON e2) /\
    Timestamp e1 = 1 /\ Timestamp e2 = 2 /\ ID e1 = ID e2.
Proof.
  assert (H1 : server_ok (fst (NewServer ∅)) (snd (NewServer ∅))).
  { destruct (NewServer ∅) as [s0 h0] eqn:Hnew. apply NewServer_spec in Hnew. tauto. }
  assert (H2 : timestamp (clock (fst (NewServer ∅))) + 1 < max_int64) by reflexivity.
  split; [exact H1 | split; [exact H2 | ]].
  pose proof (@created_ids_follow_the_wall_clock doubling _ _
                {| Method := "POST"; Query := ∅ |} {| Method := "POST"; Query := ∅ |}
                77 1 77 2 H1 H2 eq_refl eq_refl) as H.
  destruct (@handleCreateEvent doubling (fst (NewServer ∅)) (snd (NewServer ∅))
              {| Method := "POST"; Query := ∅ |} 77 1) as [[reply1 s1] h1].
  destruct (@handleCreateEvent doubling s1 h1 {| Method := "POST"; Query := ∅ |} 77 2)
    as [[reply2 s2] h2].
  destruct H as (e1 & e2 & Hr1 & Hr2 & _ & Ht1 & Ht2 & Hid).
  exists e1, e2.
  split; [exact Hr1 | split; [exact Hr2 | split; [exact Ht1 | split; [exact Ht2 | ]]]].
  exact (proj2 Hid eq_refl).
Defined.

(** ** Replies and state changes of the message handler *)

(** X9: whatever the request, [handleReceiveMessage] answers 200, 400
    or 405; unless it answers 200 the server and the heap are exactly
    what they were; when it answers 200 the timestamp parameter parsed
    to an [int64], and the log has grown by exactly the one event of the
    reply, stamped by [Update] on the parsed value. *)
Theorem receive_changes_state_only_on_200 {rt : Runtime} (s : Server) (h : Heap)
    (r : Request) (now : Z) :
  server_ok s h ->
  let '(reply, s', h') := handleReceiveMessage s h r now in
  (StatusCode reply = StatusOK \/ StatusCode reply = StatusBadRequest \/
   StatusCode reply = StatusMethodNotAllowed) /\
  (StatusCode reply <> StatusOK -> s' = s /\ h' = h) /\
  (StatusCode reply = StatusOK ->
     exists e t,
       ParseInt (Values_Get (Query r) "timestamp") = Parsed t /\ in_range t /\
       reply = json_reply (EventJSON e) /\
       log_of s' h' = log_of s h ++ [e] /\
       Timestamp e = fst (Update (clock s) t) /\
       server_ok s' h').
Proof.
  intros Hok. unfold handleReceiveMessage.
  case_bool_decide as Hm; [cbn; split_and!; auto; discriminate|].
  case_bool_decide as Hmiss; [cbn; split_and!; auto; discriminate|].
  destruct (ParseInt (Values_Get (Query r) "timestamp")) as [t|err] eqn:Hparse;
    [|cbn; split_and!; auto; discriminate].
  destruct (processMessage s t _ now h) as [[e s'] h'] eqn:Hpm.
  destruct (apply_server_op_spec s h (CallProcessMessage t _ now) e s' h' Hok Hpm)
    as (Hok' & Hlog & Hts & _ & _).
  cbn [StatusCode json_reply]. split_and!; [auto | congruence |].
  intros _. exists e, t. split_and!; auto. eapply ParseInt_in_range; eauto.
Qed.

Lemma receive_changes_state_only_on_200_witness :
  server_ok (fst (NewServer ∅)) (snd (NewServer ∅)) /\
  let '(reply, s', h') :=
    @handleReceiveMessage doubling (fst (NewServer ∅)) (snd (NewServer ∅))
      {| Method := "POST"; Query := {[ "timestamp" := ["1e3"]; "message" := ["x"] ]} |} 3 in
  (StatusCode reply <> StatusOK -> s' = fst (NewServer ∅) /\ h' = snd (NewServer ∅)).
Proof.
  assert (H1 : server_ok (fst (NewServer ∅)) (snd (NewServer ∅))).
  { destruct (NewServer ∅) as [s0 h0] eqn:Hnew. apply NewServer_spec in Hnew. tauto. }
  split; [exact H1|].
  pose proof (@receive_changes_state_only_on_200 doubling _ _
    {| Method := "POST"; Query := {[ "timestamp" := ["1e3"]; "message" := ["x"] ]} |} 3 H1) as H.
  destruct (@handleReceiveMessage doubling (fst (NewServer ∅)) (snd (NewServer ∅))
    {| Method := "POST"; Query := {[ "timestamp" := ["1e3"]; "message" := ["x"] ]} |} 3)
    as [[reply s'] h'].
  exact (proj1 (proj2 H)).
Defined.

(** ** Reading the time over HTTP *)

(** X10: on a server that has made any run of core calls since it was
    created, [handleGetTime] answers a [GET] with the logical time of
    the last event logged (0 when there is none), which is also the
    current time [handleGetEvents] reports, together with the wall-clock
    reading it took; any other method is answered 405. *)
Theorem time_reply_after_run {rt : Runtime} (h0 : Heap) (ops : list server_op)
    (r : Request) (now : Z) :
  let '(s0, h1) := NewServer h0 in
  let '(es, s, h) := run_server s0 h1 ops in
  (Method r = "GET" ->
     handleGetTime s r now =
       (StatusOK, TimeJSON (default 0 (last (map Timestamp (log_of s h)))) now) /\
     exists evs n,
       fst (handleGetEvents s h r) =
         json_reply (EventsJSON (default 0 (last (map Timestamp (log_of s h)))) evs n)) /\
  (Method r <> "GET" ->
     handleGetTime s r now = (StatusMethodNotAllowed, TimeError "Method not allowed")).
Proof.
  destruct (NewServer h0) as [s0 h1] eqn:Hnew.
  destruct (run_server s0 h1 ops) as [[es s] h] eqn:Hrun.
  apply NewServer_spec in Hnew as (Hok0 & Hlog0 & Hclk0).
  destruct (run_server_spec _ _ _ _ _ _ Hok0 Hrun) as (Hok & Hlog & Hts & Hclk & _).
  assert (Htime : GetTime (clock s) = default 0 (last (map Timestamp (log_of s h)))).
  { unfold GetTime. rewrite Hlog, Hlog0. cbn [app].
    rewrite Hclk, Hts, Hclk0, run_clock_last. reflexivity. }
  rewrite handleGetEvents_alone. unfold handleGetTime. split; intros Hm.
  - rewrite !bool_decide_false by (intros Hne; apply Hne, Hm). rewrite Htime.
    split; [reflexivity|]. destruct (copyEvents s h) as [snap h']. cbn [fst]. eauto.
  - rewrite bool_decide_true by exact Hm. reflexivity.
Qed.

(** ** Which timestamps the message handler accepts *)

Lemma digits_value_ge s : forall n, 0 <= n -> n <= digits_value s n.
Proof.
  induction s as [|c s IH]; intros n Hn; simpl; [lia|].
  destruct (digit_value c) as [d|] eqn:Hd; [|lia].
  apply digit_value_range in Hd. specialize (IH (n * 10 + d)). lia.
Qed.

(** The range tests inside the digit loop reject exactly the strings
    whose value does not fit 64 bits. *)
Lemma ParseUint_loop_exact s : forall n,
  all_digits s = true -> 0 <= n <= maxUint64 ->
  ParseUint_loop s n =
    if bool_decide (digits_value s n <= maxUint64) then Parsed (digits_value s n)
    else Failed ErrRange.
Proof.
  induction s as [|c s IH]; intros n Hs Hn; simpl in *.
  - rewrite bool_decide_true by lia. reflexivity.
  - destruct (digit_value c) as [d|] eqn:Hd; [|discriminate].
    apply digit_value_range in Hd.
    pose proof (digits_value_ge s (n * 10 + d) ltac:(lia)) as Hge.
    change (maxUint64 / 10 + 1) with 1844674407370955162.
    unfold maxUint64 in *.
    case_bool_decide as Hcut.
    + rewrite bool_decide_false by lia. reflexivity.
    + case_bool_decide as Hov.
      * rewrite bool_decide_false by lia. reflexivity.
      * apply IH; [exact Hs | lia].
Qed.

Lemma ParseUint_exact s :
  s <> "" -> all_digits s = true ->
  ParseUint s =
    if bool_decide (digits_value s 0 <= maxUint64) then Parsed (digits_value s 0)
    else Failed ErrRange.
Proof.
  intros Hne Hs. unfold ParseUint. destruct s; [congruence|].
  apply ParseUint_loop_exact; [exact Hs | unfold maxUint64; lia].
Qed.

Lemma numeric_unsigned_part s :
  numeric s = true -> unsigned_part s <> "" /\ all_digits (unsigned_part s) = true.
Proof.
  unfold numeric, unsigned_part. destruct s as [|c rest]; [discriminate|].
  destruct (if bool_decide (c = "+"%char \/ c = "-"%char) then rest else String c rest);
    [discriminate|]. intros Hd. split; [discriminate | exact Hd].
Qed.

(** [ParseInt] on a numeric string: the integer the string denotes when
    it is an [int64], a range error otherwise. *)
Lemma ParseInt_exact s :
  numeric s = true ->
  (in_range (signed_value s) -> ParseInt s = Parsed (signed_value s)) /\
  (~ in_range (signed_value s) -> ParseInt s = Failed ErrRange).
Proof.
  intros Hnum. destruct (numeric_unsigned_part s Hnum) as [Hne Hd].
  pose proof (ParseUint_exact _ Hne Hd) as Hu.
  pose proof (digits_value_ge (unsigned_part s) 0 ltac:(lia)) as Hge.
  unfold ParseInt, signed_value, is_negative, unsigned_part, in_range, min_int64, max_int64 in *.
  destruct s as [|c rest]; [discriminate|].
  rewrite Hu. unfold maxUint64.
  destruct (bool_decide (c = "-"%char)); cbn [negb andb];
    repeat case_bool_decide; split; intros Hr; try reflexivity; try lia.
Qed.

(** X11: a [POST] request with a non-empty message is accepted by
    [handleReceiveMessage] exactly when its timestamp parameter is a
    numeric string (an optional sign and at least one decimal digit,
    nothing else) that denotes an [int64]; the event then carries
    [Update] on that integer.  A numeric string outside the [int64] range
    and every other string are answered 400. *)
Theorem receive_accepts_exactly_int64 {rt : Runtime} (s : Server) (h : Heap)
    (r : Request) (now : Z) :
  Method r = "POST" -> Values_Get (Query r) "message" <> "" ->
  let timestampStr := Values_Get (Query r) "timestamp" in
  let '(reply, s', h') := handleReceiveMessage s h r now in
  (StatusCode reply = StatusOK <->
     numeric timestampStr = true /\ in_range (signed_value timestampStr)) /\
  (StatusCode reply <> StatusOK -> StatusCode reply = StatusBadRequest) /\
  (StatusCode reply = StatusOK ->
     (reply, s', h') =
       let '(event, s1, h1) :=
         processMessage s (signed_value timestampStr) (Values_Get (Query r) "message") now h in
       (json_reply (EventJSON event), s1, h1)).
Proof.
  intros Hm Hmsg timestampStr. unfold handleReceiveMessage.
  rewrite bool_decide_false by (intros Hne; apply Hne, Hm). fold timestampStr.
  case_bool_decide as Hmiss.
  - destruct Hmiss as [Hts | ?]; [|contradiction]. rewrite Hts.
    cbn. split_and!; auto; try discriminate. split; [discriminate | intros [? _]; discriminate].
  - destruct (numeric timestampStr) eqn:Hnum.
    + destruct (ParseInt_exact _ Hnum) as [Hin Hout].
      destruct (decide (in_range (signed_value timestampStr))) as [Hr | Hr].
      * rewrite (Hin Hr).
        destruct (processMessage s _ _ now h) as [[e s'] h']. cbn.
        split_and!; auto; try done.
      * rewrite (Hout Hr). cbn. split_and!; auto; try discriminate.
        split; [discriminate | tauto].
    + destruct (ParseInt_non_numeric _ Hnum) as [e ->]. cbn.
      split_and!; auto; try discriminate. split; [discriminate | intros [? _]; discriminate].
Qed.

Lemma receive_accepts_exactly_int64_witness :
  Method {| Method := "POST"; Query := {[ "timestamp" := ["+007"]; "message" := ["m"] ]} |}
    = "POST" /\
  Values_Get (Query {| Method := "POST";
                       Query := {[ "timestamp" := ["+007"]; "message" := ["m"] ]} |}) "message"
    <> "" /\
  let '(reply, s', h') :=
    @handleReceiveMessage doubling (fst (NewServer ∅)) (snd (NewServer ∅))
      {| Method := "POST"; Query := {[ "timestamp" := ["+007"]; "message" := ["m"] ]} |} 3 in
  StatusCode reply = StatusOK /\ GetTime (clock s') = 8.
Proof.
  assert (H2 : Values_Get (Query {| Method := "POST";
                 Query := {[ "timestamp" := ["+007"]; "message" := ["m"] ]} |}) "message" <> "")
    by (vm_compute; discriminate).
  split; [reflexivity|]. split; [exact H2|].
  pose proof (@receive_accepts_exactly_int64 doubling (fst (NewServer ∅)) (snd (NewServer ∅))
    {| Method := "POST"; Query := {[ "timestamp" := ["+007"]; "message" := ["m"] ]} |} 3
    eq_refl H2) as H.
  cbv zeta in H.
  destruct (@handleReceiveMessage doubling (fst (NewServer ∅)) (snd (NewServer ∅))
    {| Method := "POST"; Query := {[ "timestamp" := ["+007"]; "message" := ["m"] ]} |} 3)
    as [[reply s'] h'].
  destruct H as (Hiff & _ & Hok).
  assert (H200 : StatusCode reply = StatusOK).
  { apply Hiff. split; [vm_compute; reflexivity | vm_compute; split; discriminate]. }
  split; [exact H200|].
  specialize (Hok H200). revert Hok. vm_compute. intros [= _ -> _]. reflexivity.
Defined.

(** *** What the server prints, it accepts *)

Lemma digit_value_pretty_char d :
  (d < 10)%N -> digit_value (pretty_N_char d) = Some (Z.of_N d).
Proof.
  intros Hd.
  assert (d = 0 \/ d = 1 \/ d = 2 \/ d = 3 \/ d = 4 \/ d = 5 \/ d = 6 \/ d = 7 \/ d = 8 \/ d = 9)%N
    as Hcases by lia.
  repeat destruct Hcases as [-> | Hcases]; try subst d; reflexivity.
Qed.

Lemma ParseUint_loop_pretty_go x : forall s,
  Z.of_N x <= maxUint64 ->
  ParseUint_loop (pretty_N_go x s) 0 = ParseUint_loop s (Z.of_N x).
Proof.
  induction (N.lt_wf_0 x) as [x _ IH]; intros s Hx.
  destruct (decide (x = 0%N)) as [-> | Hpos].
  - rewrite pretty_N_go_0. reflexivity.
  - rewrite pretty_N_go_step by lia.
    assert (Hdiv : Z.of_N (x `div` 10) = Z.of_N x / 10) by apply N2Z.inj_div.
    assert (Hmod : Z.of_N (x `mod` 10) = Z.of_N x mod 10) by apply N2Z.inj_mod.
    unfold maxUint64 in *.
    rewrite IH; [| apply N.div_lt; lia | rewrite Hdiv; Z.div_mod_to_equations; lia].
    cbn [ParseUint_loop].
    rewrite digit_value_pretty_char by (apply N.mod_lt; lia).
    change (maxUint64 / 10 + 1) with 1844674407370955162. unfold maxUint64.
    rewrite !bool_decide_false.
    + f_equal. rewrite Hdiv, Hmod. Z.div_mod_to_equations. lia.
    + rewrite Hdiv, Hmod. Z.div_mod_to_equations. lia.
    + rewrite Hdiv. Z.div_mod_to_equations. lia.
Qed.

Lemma ParseInt_pretty_pos p :
  Z.pos p <= max_int64 ->
  exists c rest,
    pretty_N_go (N.pos p) "" = String c rest /\
    c <> "+"%char /\ c <> "-"%char /\
    ParseUint (String c rest) = Parsed (Z.pos p).
Proof.
  intros Hp. unfold max_int64 in Hp.
  pose proof (ParseUint_loop_pretty_go (N.pos p) "" ltac:(unfold maxUint64; simpl; lia)) as Hloop.
  cbn [ParseUint_loop] in Hloop.
  destruct (pretty_N_go (N.pos p) "") as [|c rest]; [discriminate|].
  exists c, rest. split; [reflexivity|].
  cbn [ParseUint_loop] in Hloop.
  split_and!; [ | | exact Hloop]; intros ->; discriminate Hloop.
Qed.

(** The decimal text [fmt.Sprintf] prints for an [int64] parses back to
    it. *)
Lemma ParseInt_pretty z : in_range z -> ParseInt (pretty z) = Parsed z.
Proof.
  unfold in_range, min_int64, max_int64. intros Hz. destruct z as [|p|p].
  - reflexivity.
  - destruct (ParseInt_pretty_pos p) as (c & rest & Hstr & Hplus & Hminus & Hu).
    { unfold max_int64. lia. }
    change (pretty (Z.pos p)) with (pretty_N_go (N.pos p) ""). rewrite Hstr.
    unfold ParseInt. rewrite !bool_decide_false by tauto. rewrite Hu.
    cbn [negb andb]. rewrite bool_decide_false by lia. reflexivity.
  - assert (Hle : Z.pos p <= 2 ^ 63) by lia.
    change (pretty (Z.neg p)) with (String "-" (pretty_N_go (N.pos p) "")).
    pose proof (ParseUint_loop_pretty_go (N.pos p) "" ltac:(unfold maxUint64; simpl; lia)) as Hloop.
    cbn [ParseUint_loop] in Hloop.
    unfold ParseInt. rewrite bool_decide_true by (right; reflexivity).
    rewrite bool_decide_true by reflexivity.
    unfold ParseUint. destruct (pretty_N_go (N.pos p) "") as [|c rest]; [discriminate|].
    rewrite Hloop. cbn [negb andb]. rewrite bool_decide_false by lia. reflexivity.
Qed.

(** X12: the decimal form in which the program prints an [int64] (the
    number in a ["msg-"] identifier, made by [fmt.Sprintf] with [%d]) is
    accepted back as a timestamp parameter: a [POST] with a non-empty
    message and that text as timestamp is processed as
    [processMessage] on the very same integer, negative ones too. *)
Theorem receive_accepts_printed_timestamp {rt : Runtime} (s : Server) (h : Heap)
    (r : Request) (now z : Z) :
  Method r = "POST" -> Values_Get (Query r) "message" <> "" ->
  in_range z -> Values_Get (Query r) "timestamp" = pretty z ->
  handleReceiveMessage s h r now =
    let '(event, s', h') := processMessage s z (Values_Get (Query r) "message") now h in
    (json_reply (EventJSON event), s', h').
Proof.
  intros Hm Hmsg Hz Hts. unfold handleReceiveMessage.
  rewrite bool_decide_false by (intros Hne; apply Hne, Hm).
  rewrite Hts, (ParseInt_pretty z Hz).
  rewrite bool_decide_false; [reflexivity|].
  intros [Hempty | ?]; [|contradiction].
  pose proof (ParseInt_pretty z Hz) as Hp. rewrite Hempty in Hp. discriminate Hp.
Qed.

Lemma receive_accepts_printed_timestamp_witness :
  Method {| Method := "POST"; Query := {[ "timestamp" := [pretty (-42)]; "message" := ["m"] ]} |}
    = "POST" /\
  Values_Get (Query {| Method := "POST";
                       Query := {[ "timestamp" := [pretty (-42)]; "message" := ["m"] ]} |})
    "message" <> "" /\
  in_range (-42) /\
  Values_Get (Query {| Method := "POST";
                       Query := {[ "timestamp" := [pretty (-42)]; "message" := ["m"] ]} |})
    "timestamp" = pretty (-42) /\
  @handleReceiveMessage doubling (fst (NewServer ∅)) (snd (NewServer ∅))
    {| Method := "POST"; Query := {[ "timestamp" := [pretty (-42)]; "message" := ["m"] ]} |} 3 =
  let '(event, s', h') :=
    @processMessage doubling (fst (NewServer ∅)) (-42)
      (Values_Get (Query {| Method := "POST";
                            Query := {[ "timestamp" := [pretty (-42)]; "message" := ["m"] ]} |})
         "message") 3 (snd (NewServer ∅)) in
  (json_reply (EventJSON event), s', h').
Proof.
  assert (H2 : Values_Get (Query {| Method := "POST";
                 Query := {[ "timestamp" := [pretty (-42)]; "message" := ["m"] ]} |}) "message"
               <> "") by (vm_compute; discriminate).
  assert (H3 : in_range (-42)) by (vm_compute; split; discriminate).
  assert (H4 : Values_Get (Query {| Method := "POST";
                 Query := {[ "timestamp" := [pretty (-42)]; "message" := ["m"] ]} |}) "timestamp"
               = pretty (-42)) by (vm_compute; reflexivity).
  split; [reflexivity | split; [exact H2 | split; [exact H3 | split; [exact H4 | ]]]].
  exact (@receive_accepts_printed_timestamp doubling _ _
           {| Method := "POST"; Query := {[ "timestamp" := [pretty (-42)]; "message" := ["m"] ]} |}
           3 (-42) eq_refl H2 H3 H4).
Defined.

(** ** Critical sections *)

Lemma outside_not_inside r c code :
  outside r -> frame r = Some (c, code) -> inside c code -> False.
Proof.
  unfold outside. intros Hout Hf Hin. rewrite Hf in Hout.
  destruct Hout as [-> | ->].
  - apply inside_started in Hin. rewrite started_body in Hin. discriminate.
  - destruct Hin as (pre & _ & Hne). congruence.
Qed.

(** X13: in every state the goroutines can reach, at most one of them is
    between the [Lock] and the [Unlock] of a [Tick] or an [Update], and
    it is the one that holds the mutex; and whenever the mutex is free,
    the counter holds the value of the sequential run of the calls that
    have taken the mutex so far: the value an [Update] stores before its
    increment is never in the counter while the mutex is free. *)
Theorem critical_sections_exclude (lc0 : LamportClock) (progs : list (list call))
    (sched : list nat) (m : machine) :
  exec (spawn lc0 progs) sched = Some m ->
  (forall g1 g2 r1 r2 c1 c2 code1 code2,
     routines m !! g1 = Some r1 -> frame r1 = Some (c1, code1) -> inside c1 code1 ->
     routines m !! g2 = Some r2 -> frame r2 = Some (c2, code2) -> inside c2 code2 ->
     g1 = g2 /\ owner m = Some g1) /\
  (owner m = None ->
     shared m = timestamp (snd (run_clock lc0 (lock_ops (trace m))))).
Proof.
  intros Hexec. destruct (reachable_inv _ _ _ _ Hexec) as (_ & Hmx & _ & _).
  unfold mutex_inv in Hmx. destruct (owner m) as [g0|].
  - destruct Hmx as [_ Hothers]. split; [|discriminate].
    intros g1 g2 r1 r2 c1 c2 code1 code2 Hr1 Hf1 Hin1 Hr2 Hf2 Hin2.
    assert (Hg1 : g1 = g0).
    { destruct (decide (g1 = g0)) as [|Hne]; [assumption|].
      exfalso. eapply outside_not_inside; eauto. }
    assert (Hg2 : g2 = g0).
    { destruct (decide (g2 = g0)) as [|Hne]; [assumption|].
      exfalso. eapply outside_not_inside; eauto. }
    subst. auto.
  - destruct Hmx as [Hsh Hout]. split; [|auto].
    intros g1 g2 r1 r2 c1 c2 code1 code2 Hr1 Hf1 Hin1 _ _ _.
    exfalso. eapply outside_not_inside; eauto.
Qed.

Lemma critical_sections_exclude_witness :
  exists m,
    exec (spawn NewLamportClock [[CallUpdate 5]; [CallTick]]) [0; 1; 0; 0; 0]%nat = Some m /\
    owner m = Some 0%nat /\ shared m = 5 /\
    (owner m = None ->
       shared m = timestamp (snd (run_clock NewLamportClock (lock_ops (trace m))))).
Proof.
  eexists. split; [vm_compute; reflexivity|].
  split; [reflexivity|]. split; [reflexivity|].
  refine (proj2 (critical_sections_exclude NewLamportClock [[CallUpdate 5]; [CallTick]]
                   [0; 1; 0; 0; 0]%nat _ _)).
  vm_compute. reflexivity.
Defined.

(** ** The log under interleaved calls *)

Lemma workers_done ws :
  Forall (fun w => Recorder.stamped w = None /\ Recorder.todo w = []) ws ->
  held_times ws = [] /\ calls_left ws = 0%nat.
Proof.
  unfold held_times, calls_left. induction ws as [|w ws IH]; intros Hidle; [auto|].
  apply Forall_cons in Hidle as [[Hs Ht] Hidle]. destruct (IH Hidle) as [IH1 IH2].
  simpl. rewrite Hs, Ht, IH2. simpl. auto.
Qed.

(** X15: goroutines that call [logEvent] and [processMessage] on a fresh
    server, interleaved in any way between the clock call and the
    [append] of each call.  If the received values are [int64] values of
    at most [B] and [max(0, B)] plus the number of calls does not exceed
    [max_int64], then at every moment the logical times in the log are
    pairwise distinct, positive and at most what [GetTime] reads, and
    the log never holds more events than calls were made; once every
    goroutine has finished, it holds exactly one event per call. *)
Theorem interleaved_log_has_distinct_times {rt : Runtime} (h0 : Heap)
    (progs : list (list server_op)) (B : Z) (sched : list nat) (y : Recorder.system) :
  Forall (Forall (call_below B)) progs ->
  Z.max 0 B + Z.of_nat (sum_list (map length progs)) <= max_int64 ->
  Recorder.exec (Recorder.start h0 progs) sched = Some y ->
  NoDup (map Timestamp (log_of (Recorder.srv y) (Recorder.heap y))) /\
  Forall (fun e => 0 < Timestamp e <= GetTime (clock (Recorder.srv y)))
    (log_of (Recorder.srv y) (Recorder.heap y)) /\
  (length (log_of (Recorder.srv y) (Recorder.heap y)) <= sum_list (map length progs))%nat /\
  (Forall (fun w => Recorder.stamped w = None /\ Recorder.todo w = []) (Recorder.workers y) ->
   length (log_of (Recorder.srv y) (Recorder.heap y)) = sum_list (map length progs)).
Proof.
  intros Hprogs Hbound Hexec.
  pose proof (recorder_exec_inv _ _ _ _ _ (recorder_start_inv h0 progs B Hprogs Hbound) Hexec)
    as Hinv.
  unfold recorder_inv in Hinv. destruct Hinv as (_ & Hnd & Hall & _ & _ & Hcount & _).
  rewrite length_app, length_map in Hcount.
  split_and!.
  - apply NoDup_app in Hnd. tauto.
  - apply Forall_app in Hall as [Hall _]. apply Forall_fmap in Hall. exact Hall.
  - lia.
  - intros Hidle.
    destruct (workers_done _ Hidle) as [Hh Hc]. rewrite Hh, Hc in Hcount. simpl in Hcount. lia.
Qed.

Lemma interleaved_log_has_distinct_times_witness :
  Forall (Forall (call_below 5))
    [[CallLogEvent "a" "first" 1]; [CallProcessMessage 5 "second" 2]] /\
  Z.max 0 5 + Z.of_nat (sum_list (map length
    [[CallLogEvent "a" "first" 1]; [CallProcessMessage 5 "second" 2]])) <= max_int64 /\
  exists y,
    @Recorder.exec doubling
      (Recorder.start ∅ [[CallLogEvent "a" "first" 1]; [CallProcessMessage 5 "second" 2]])
      [0; 1; 1; 0]%nat = Some y /\
    map Timestamp (log_of (Recorder.srv y) (Recorder.heap y)) = [6; 1] /\
    NoDup (map Timestamp (log_of (Recorder.srv y) (Recorder.heap y))).
Proof.
  assert (H1 : Forall (Forall (call_below 5))
                 [[CallLogEvent "a" "first" 1]; [CallProcessMessage 5 "second" 2]]).
  { repeat constructor; vm_compute; discriminate. }
  assert (H2 : Z.max 0 5 + Z.of_nat (sum_list (map length
                 [[CallLogEvent "a" "first" 1]; [CallProcessMessage 5 "second" 2]])) <= max_int64).
  { vm_compute. discriminate. }
  split; [exact H1 | split; [exact H2 | ]].
  eexists. split; [vm_compute; reflexivity|]. split; [reflexivity|].
  refine (proj1 (@interleaved_log_has_distinct_times doubling ∅ _ 5 [0; 1; 1; 0]%nat _ H1 H2 _)).
  vm_compute. reflexivity.
Defined.

(** ** The server as [main] runs it *)

Lemma run_clock_one lc o :
  run_clock lc [o] = ([fst (apply_op lc o)], snd (apply_op lc o)).
Proof. rewrite run_clock_cons. reflexivity. Qed.

Lemma run_clock_some lc o :
  run_clock lc (map clock_op_of (option_list (Some o))) =
  ([fst (apply_op lc (clock_op_of o))], snd (apply_op lc (clock_op_of o))).
Proof. apply run_clock_one. Qed.

(** Serving a request makes the core call of [core_call_of], or none:
    the log grows by the events of that call and the clock moves as in
    the sequential run of it. *)
Lemma serve_spec {rt : Runtime} s h a st s' h' :
  server_ok s h -> serve s h a = (st, s', h') ->
  server_ok s' h' /\
  exists es,
    log_of s' h' = log_of s h ++ es /\
    map Timestamp es =
      fst (run_clock (clock s) (map clock_op_of (option_list (core_call_of a)))) /\
    clock s' = snd (run_clock (clock s) (map clock_op_of (option_list (core_call_of a)))).
Proof.
  intros Hok. unfold serve, core_call_of.
  assert (Hsame : server_ok s h /\ exists es,
            log_of s h = log_of s h ++ es /\
            map Timestamp es = fst (run_clock (clock s) []) /\
            clock s = snd (run_clock (clock s) [])).
  { split; [exact Hok|]. exists []. rewrite app_nil_r. auto. }
  destruct (main_routes (path a)) as [[| | |]|].
  - unfold handleCreateEvent. case_bool_decide as Hm.
    + intros [= _ <- <-]. exact Hsame.
    + destruct (logEvent s _ _ (now a) h) as [[e s1] h1] eqn:Hlog. intros [= _ <- <-].
      destruct (apply_server_op_spec s h (CallLogEvent _ _ (now a)) e s1 h1 Hok Hlog)
        as (Hok1 & Hl & Hts & Hclk & _).
      split; [exact Hok1|]. exists [e]. rewrite run_clock_some.
      cbn [fst snd map]. rewrite Hts. auto.
  - unfold handleReceiveMessage. case_bool_decide as Hm.
    + intros [= _ <- <-]. exact Hsame.
    + case_bool_decide as Hmiss.
      * intros [= _ <- <-]. exact Hsame.
      * destruct (ParseInt _) as [t|err].
        -- destruct (processMessage s t _ (now a) h) as [[e s1] h1] eqn:Hpm.
           intros [= _ <- <-].
           destruct (apply_server_op_spec s h (CallProcessMessage t _ (now a)) e s1 h1 Hok Hpm)
             as (Hok1 & Hl & Hts & Hclk & _).
           split; [exact Hok1|]. exists [e]. rewrite run_clock_some.
           cbn [fst snd map]. rewrite Hts. auto.
        -- intros [= _ <- <-]. exact Hsame.
  - pose proof (handleGetEvents_spec s h (request a) Hok) as Hread.
    destruct (handleGetEvents s h (request a)) as [reply h1]. intros [= _ <- <-].
    destruct Hread as (Hok1 & Hl & _). split; [exact Hok1|].
    exists []. rewrite app_nil_r. auto.
  - intros [= _ <- <-]. exact Hsame.
  - intros [= _ <- <-]. exact Hsame.
Qed.

Lemma omap_cons_option_list {A B} (f : A -> option B) a l :
  omap f (a :: l) = option_list (f a) ++ omap f l.
Proof. simpl. destruct (f a); reflexivity. Qed.

Lemma serve_all_spec {rt : Runtime} arrivals : forall s h sts s' h',
  server_ok s h -> serve_all s h arrivals = (sts, s', h') ->
  server_ok s' h' /\
  length sts = length arrivals /\
  exists es,
    log_of s' h' = log_of s h ++ es /\
    map Timestamp es =
      fst (run_clock (clock s) (map clock_op_of (omap core_call_of arrivals))) /\
    clock s' = snd (run_clock (clock s) (map clock_op_of (omap core_call_of arrivals))).
Proof.
  induction arrivals as [|a arrivals IH]; intros s h sts s' h' Hok.
  - simpl. intros [= <- <- <-]. split_and!; auto. exists []. rewrite app_nil_r. auto.
  - cbn [serve_all]. destruct (serve s h a) as [[st s1] h1] eqn:Hserve.
    destruct (serve_all s1 h1 arrivals) as [[sts1 s2] h2] eqn:Hall. intros [= <- <- <-].
    destruct (serve_spec _ _ _ _ _ _ Hok Hserve) as (Hok1 & es1 & Hl1 & Ht1 & Hc1).
    destruct (IH _ _ _ _ _ Hok1 Hall) as (Hok2 & Hlen & es2 & Hl2 & Ht2 & Hc2).
    split_and!; [exact Hok2 | simpl; lia |].
    exists (es1 ++ es2).
    rewrite omap_cons_option_list, (map_app clock_op_of), run_clock_app. cbn [fst snd].
    rewrite <- Hc1, <- Ht1, <- Ht2, <- Hc2, <- (map_app Timestamp), Hl2, Hl1, (assoc_L (++)).
    auto.
Qed.

Lemma core_calls_bounded B arrivals :
  Forall (arrival_below B) arrivals ->
  Forall op_ok (map clock_op_of (omap core_call_of arrivals)) /\
  Forall (op_below B) (map clock_op_of (omap core_call_of arrivals)) /\
  (length (map clock_op_of (omap core_call_of arrivals)) <= length arrivals)%nat.
Proof.
  induction 1 as [|a arrivals Ha _ (IH1 & IH2 & IH3)]; [simpl; auto|].
  rewrite omap_cons_option_list, map_app.
  assert (Hone : Forall op_ok (map clock_op_of (option_list (core_call_of a))) /\
                 Forall (op_below B) (map clock_op_of (option_list (core_call_of a))) /\
                 (length (map clock_op_of (option_list (core_call_of a))) <= 1)%nat).
  { unfold arrival_below in Ha. revert Ha. unfold core_call_of.
    destruct (main_routes (path a)) as [[| | |]|].
    - case_bool_decide; intros _; simpl; [auto|].
      split_and!; [constructor; [exact I | constructor] | constructor; [exact I | constructor] | lia].
    - case_bool_decide; [intros _; simpl; auto|].
      case_bool_decide; [intros _; simpl; auto|].
      destruct (ParseInt _) as [t|err] eqn:Hp; [|intros _; simpl; auto].
      intros Ht. simpl.
      split_and!; [constructor; [|constructor] | constructor; [exact Ht | constructor] | lia].
      simpl. eapply ParseInt_in_range; eauto.
    - intros _. simpl. auto.
    - intros _. simpl. auto.
    - intros _. simpl. auto. }
  destruct Hone as (H1 & H2 & H3).
  rewrite !Forall_app, length_app. simpl. split_and!; auto. lia.
Qed.

Lemma main_start_spec {rt : Runtime} h0 boot s h :
  main_start h0 boot = (s, h) ->
  server_ok s h /\
  log_of s h = [ {| ID := "init"; Message := "Server started";
                    Timestamp := 1; WallTime := boot |} ] /\
  clock s = {| timestamp := 1 |}.
Proof.
  unfold main_start. destruct (NewServer h0) as [s0 h1] eqn:Hnew.
  destruct (logEvent s0 _ _ boot h1) as [[e s1] h2] eqn:Hlog. intros [= <- <-].
  apply NewServer_spec in Hnew as (Hok0 & Hlog0 & Hclk0).
  destruct (logEvent_spec _ _ _ _ _ _ _ _ Hok0 Hlog) as (Hok1 & Hl & He & Hclk).
  rewrite Hclk0 in He, Hclk. rewrite Hlog0 in Hl.
  split_and!; [exact Hok1 | rewrite Hl, He; reflexivity | rewrite Hclk; reflexivity].
Qed.

(** X17: the server as [main] sets it up (a new server that has logged
    its start) serving any sequence of requests, one after the other, on
    any paths.  If the timestamps of the accepted message requests are at
    most [B] and [max(1, B)] plus the number of requests does not exceed
    [max_int64], then the log begins with the ["init"] event at logical
    time 1, holds one more event for each request that led to a core
    call and nothing else, its logical times are strictly increasing,
    and [GetTime] reads the last of them. *)
Theorem served_log_is_increasing {rt : Runtime} (h0 : Heap) (boot B : Z)
    (arrivals : list Arrival) :
  Forall (arrival_below B) arrivals ->
  Z.max 1 B + Z.of_nat (length arrivals) <= max_int64 ->
  let '(s0, h1) := main_start h0 boot in
  let '(statuses, s, h) := serve_all s0 h1 arrivals in
  length statuses = length arrivals /\
  (exists rest,
     log_of s h = {| ID := "init"; Message := "Server started";
                     Timestamp := 1; WallTime := boot |} :: rest /\
     length rest = length (omap core_call_of arrivals)) /\
  strictly_increasing (map Timestamp (log_of s h)) /\
  last (map Timestamp (log_of s h)) = Some (GetTime (clock s)).
Proof.
  intros Hbelow Hbound.
  destruct (main_start h0 boot) as [s0 h1] eqn:Hstart.
  destruct (serve_all s0 h1 arrivals) as [[statuses s] h] eqn:Hserve.
  apply main_start_spec in Hstart as (Hok0 & Hlog0 & Hclk0).
  destruct (serve_all_spec _ _ _ _ _ _ Hok0 Hserve) as (Hok & Hlen & es & Hlog & Hts & Hclk).
  destruct (core_calls_bounded B arrivals Hbelow) as (Hops & Hb & Hle).
  rewrite Hclk0 in Hts, Hclk.
  assert (Hc1 : clock_ok {| timestamp := 1 |}) by (vm_compute; split; discriminate).
  destruct (bounded_run_no_wrap _ {| timestamp := 1 |} B Hc1 Hops Hb) as (Hnw & _ & _).
  { cbn [timestamp]. lia. }
  pose proof (run_clock_increasing _ _ Hc1 Hops Hnw) as Hinc.
  rewrite <- Hts in Hinc. cbn [timestamp] in Hinc.
  rewrite Hlog, Hlog0. cbn [app map]. split_and!.
  - exact Hlen.
  - exists es. split; [reflexivity|].
    apply (f_equal length) in Hts.
    rewrite length_map, run_clock_length, length_map in Hts. exact Hts.
  - exact Hinc.
  - unfold GetTime. rewrite Hclk, run_clock_last, <- Hts. cbn [timestamp].
    rewrite last_cons. destruct (last (map Timestamp es)); reflexivity.
Qed.

Lemma served_log_is_increasing_witness :
  Forall (arrival_below 10)
    [ {| path := "/event"; request := {| Method := "POST"; Query := ∅ |}; nanos := 5; now := 1 |};
      {| path := "/message";
         request := {| Method := "POST";
                       Query := {[ "timestamp" := ["10"]; "message" := ["x"] ]} |};
         nanos := 6; now := 2 |};
      {| path := "/events"; request := {| Method := "GET"; Query := ∅ |}; nanos := 7; now := 3 |};
      {| path := "/nowhere"; request := {| Method := "GET"; Query := ∅ |}; nanos := 8; now := 4 |} ] /\
  Z.max 1 10 + Z.of_nat 4 <= max_int64 /\
  let '(s0, h1) := @main_start doubling ∅ 0 in
  let '(statuses, s, h) := @serve_all doubling s0 h1
    [ {| path := "/event"; request := {| Method := "POST"; Query := ∅ |}; nanos := 5; now := 1 |};
      {| path := "/message";
         request := {| Method := "POST";
                       Query := {[ "timestamp" := ["10"]; "message" := ["x"] ]} |};
         nanos := 6; now := 2 |};
      {| path := "/events"; request := {| Method := "GET"; Query := ∅ |}; nanos := 7; now := 3 |};
      {| path := "/nowhere"; request := {| Method := "GET"; Query := ∅ |}; nanos := 8; now := 4 |} ] in
  statuses = [Some 200; Some 200; Some 200; None] /\
  map Timestamp (log_of s h) = [1; 2; 11] /\
  strictly_increasing (map Timestamp (log_of s h)).
Proof.
  assert (H1 : Forall (arrival_below 10)
    [ {| path := "/event"; request := {| Method := "POST"; Query := ∅ |}; nanos := 5; now := 1 |};
      {| path := "/message";
         request := {| Method := "POST";
                       Query := {[ "timestamp" := ["10"]; "message" := ["x"] ]} |};
         nanos := 6; now := 2 |};
      {| path := "/events"; request := {| Method := "GET"; Query := ∅ |}; nanos := 7; now := 3 |};
      {| path := "/nowhere"; request := {| Method := "GET"; Query := ∅ |}; nanos := 8; now := 4 |} ]).
  { repeat constructor; vm_compute; discriminate. }
  assert (H2 : Z.max 1 10 + Z.of_nat 4 <= max_int64) by (vm_compute; discriminate).
  split; [exact H1 | split; [exact H2 | ]].
  pose proof (@served_log_is_increasing doubling ∅ 0 10 _ H1 H2) as H.
  revert H. vm_compute. intros (_ & _ & Hinc & _).
  split; [reflexivity | split; [reflexivity | exact Hinc]].
Defined.

(** ** What each goroutine sees of the clock *)

Lemma increasing_from_weaken lo lo' l :
  lo' <= lo -> increasing_from lo l -> increasing_from lo' l.
Proof. destruct l; simpl; [auto|]. intros ? [? ?]. split; [lia|auto]. Qed.

Lemma increasing_from_prefix lo l k : increasing_from lo (l ++ k) -> increasing_from lo l.
Proof.
  revert lo. induction l as [|x l IH]; intros lo; simpl; [auto|].
  intros [Hlt Hinc]. split; [exact Hlt | apply IH, Hinc].
Qed.

Lemma values_of_increasing g l : forall vs lo,
  increasing_from lo vs -> increasing_from lo (values_of g l vs).
Proof.
  induction l as [|[g' c] l IH]; intros vs lo Hinc; [exact I|].
  destruct vs as [|v vs]; [exact I|]. destruct Hinc as [Hlt Hinc]. simpl.
  case_bool_decide.
  - split; [exact Hlt | apply IH, Hinc].
  - apply (increasing_from_weaken v); [lia | apply IH, Hinc].
Qed.

Lemma concat_map_length (F : nat -> list Z) gs :
  length (concat (map F gs)) = sum_list (map (fun g => length (F g)) gs).
Proof. induction gs as [|g gs IH]; simpl; [reflexivity|]. rewrite length_app, IH. reflexivity. Qed.

Lemma sum_by_index (ls : list (list call)) (f : nat -> nat) :
  (forall g p, ls !! g = Some p -> (f g <= length p)%nat) ->
  (sum_list (map f (seq 0 (length ls))) <= sum_list (map length ls))%nat.
Proof.
  intros Hf.
  assert (Hgen : forall n, (n <= length ls)%nat ->
            (sum_list (map f (seq 0 n)) <= sum_list (map length (take n ls)))%nat).
  { induction n as [|n IHn]; intros Hn; [simpl; lia|].
    destruct (lookup_lt_is_Some_2 ls n ltac:(lia)) as [q Hq].
    rewrite seq_S, map_app, sum_list_with_app, (take_S_r _ _ _ Hq), map_app, sum_list_with_app.
    simpl. specialize (Hf _ _ Hq). specialize (IHn ltac:(lia)). lia. }
  specialize (Hgen (length ls) ltac:(lia)). rewrite firstn_all in Hgen. exact Hgen.
Qed.

Lemma lock_order_bounded lc0 progs m :
  inv lc0 progs m ->
  (length (lock_order (trace m)) <= sum_list (map length progs))%nat.
Proof.
  intros (Hlen & _ & Hrt & Hall).
  pose proof (lock_order_length lc0 (trace m)) as HLV.
  assert (Hbound : Forall (fun p => (fst p < length progs)%nat) (lock_order (trace m))).
  { eapply Forall_impl; [exact Hall|]. intros [g c] (prog & Hp & _). simpl in *.
    eapply lookup_lt_Some; eauto. }
  pose proof (values_of_partition (length progs) _ _ HLV Hbound) as Hperm.
  apply Permutation_length in Hperm. rewrite concat_map_length in Hperm.
  rewrite HLV, <- Hperm. apply sum_by_index.
  intros g p Hp.
  destruct (lookup_lt_is_Some_2 (routines m) g) as [r Hr].
  { rewrite Hlen. eapply lookup_lt_Some; eauto. }
  destruct (Hrt g r Hr) as (done & Hprog & Hdone & _ & Hvals).
  rewrite Hvals. rewrite Hp in Hprog. injection Hprog as ->.
  rewrite !length_app, Hdone. unfold current_value, current.
  destruct (frame r) as [[c code]|]; [destruct (started code)|]; simpl; lia.
Qed.

(** X18: goroutines calling [Tick] and [Update] on a fresh clock under
    any scheduler.  If every received value is an [int64] of at most [B]
    and [max(0, B)] plus the number of calls of all programs does not
    exceed [max_int64], then at every moment of every run the values
    each goroutine has got back so far are positive and strictly
    increasing in the order of its calls, and the counter has never
    overflowed. *)
Theorem each_goroutine_sees_time_advance (progs : list (list call)) (B : Z)
    (sched : list nat) (m : machine) :
  Forall (Forall (goroutine_call_below B)) progs ->
  Z.max 0 B + Z.of_nat (sum_list (map length progs)) <= max_int64 ->
  exec (spawn NewLamportClock progs) sched = Some m ->
  no_wrap NewLamportClock (lock_ops (trace m)) /\
  forall g r, routines m !! g = Some r -> increasing_from 0 (returned r).
Proof.
  intros Hprogs Hbound Hexec.
  pose proof (reachable_inv _ _ _ _ Hexec) as Hinv.
  pose proof (lock_order_bounded _ _ _ Hinv) as Hshort.
  destruct Hinv as (Hlen & _ & Hrt & Hall).
  assert (Hops : Forall op_ok (lock_ops (trace m)) /\ Forall (op_below B) (lock_ops (trace m))).
  { unfold lock_ops. rewrite !Forall_fmap. split.
    - eapply Forall_impl; [exact Hall|]. intros [g c] (prog & Hp & Hc). simpl in *.
      rewrite Forall_lookup in Hprogs. specialize (Hprogs _ _ Hp).
      rewrite Forall_forall in Hprogs. destruct (Hprogs _ Hc) as [Hok _]. exact Hok.
    - eapply Forall_impl; [exact Hall|]. intros [g c] (prog & Hp & Hc). simpl in *.
      rewrite Forall_lookup in Hprogs. specialize (Hprogs _ _ Hp).
      rewrite Forall_forall in Hprogs. destruct (Hprogs _ Hc) as [_ Hb]. exact Hb. }
  destruct Hops as [Hok Hb].
  assert (Hl : length (lock_ops (trace m)) = length (lock_order (trace m))).
  { unfold lock_ops. apply length_map. }
  destruct (bounded_run_no_wrap _ NewLamportClock B NewLamportClock_ok Hok Hb) as (Hnw & _ & _).
  { cbn [timestamp NewLamportClock]. lia. }
  split; [exact Hnw|].
  intros g r Hr. destruct (Hrt g r Hr) as (_ & _ & _ & _ & Hvals).
  apply (increasing_from_prefix _ _ (current_value r (shared m))). rewrite <- Hvals.
  apply values_of_increasing.
  apply (run_clock_increasing NewLamportClock); auto using NewLamportClock_ok.
Qed.

Lemma each_goroutine_sees_time_advance_witness :
  Forall (Forall (goroutine_call_below 5)) [[CallUpdate 5; CallTick]; [CallTick]] /\
  Z.max 0 5 + Z.of_nat (sum_list (map length [[CallUpdate 5; CallTick]; [CallTick]]))
    <= max_int64 /\
  exists m,
    exec (spawn NewLamportClock [[CallUpdate 5; CallTick]; [CallTick]])
      [0; 1; 0; 0; 0; 0; 0; 0; 0; 1; 0; 1; 1; 1; 1]%nat = Some m /\
    map returned (routines m) = [[6]; []] /\
    no_wrap NewLamportClock (lock_ops (trace m)).
Proof.
  assert (H1 : Forall (Forall (goroutine_call_below 5)) [[CallUpdate 5; CallTick]; [CallTick]]).
  { repeat constructor; vm_compute; discriminate. }
  assert (H2 : Z.max 0 5 + Z.of_nat (sum_list (map length [[CallUpdate 5; CallTick]; [CallTick]]))
               <= max_int64) by (vm_compute; discriminate).
  split; [exact H1 | split; [exact H2 | ]].
  eexists. split; [vm_compute; reflexivity|]. split; [reflexivity|].
  refine (proj1 (each_goroutine_sees_time_advance _ 5
                   [0; 1; 0; 0; 0; 0; 0; 0; 0; 1; 0; 1; 1; 1; 1]%nat _ H1 H2 _)).
  vm_compute. reflexivity.
Defined.
